(** * my_stats: population statistics of a surface and their scatter plot

    A shallow embedding of [my_stats.py].  Python values are a small tagged
    union, dictionaries are finite maps with string keys, floats are the
    binary64 numbers of the kernel, and the passes run in a state and
    exception monad whose state holds the two objects every pass receives
    by reference: the surface and the [stats] dictionary.  The choices of a
    gene are str objects, since the code compares them by identity.  The
    two libraries the module calls, [statistics] and plotly, are not part
    of it: the passes and [output_plot] take their calls as parameters. *)

From Stdlib Require Import ZArith List Bool Lia Floats Uint63 Permutation Sorted.
From stdpp Require Import gmap strings sorting.

Import ListNotations.
Local Open Scope string_scope.
Local Open Scope list_scope.
Local Open Scope Z_scope.

(** * The program *)

(** ** Python values and exceptions *)

Inductive pyval : Type :=
  | PNone
  | PInt (z : Z)
  | PFloat (f : float).

Inductive exn : Type :=
  | IndexError
  | KeyError
  | ZeroDivisionError
  | OverflowError
  | TypeError
  | StatisticsError
  | PlotlyEmptyDataError.

Definition result (A : Type) : Type := (exn + A)%type.

Abbreviation ok := (@inr exn _) (only parsing).
Abbreviation err := (@inl exn _) (only parsing).

Definition rbind {A B} (r : result A) (k : A -> result B) : result B :=
  match r with
  | inl e => inl e
  | inr a => k a
  end.

(** ** Numbers *)

(** [float(n)] of a Python integer: the nearest binary64 number, ties to
    even; CPython raises [OverflowError] when that number is not finite. *)
Definition float_of_Z (z : Z) : float :=
  SF2Prim (binary_normalize prec emax z 0 false).

Definition float_of_int (z : Z) : result float :=
  let f := float_of_Z z in
  if PrimFloat.is_infinity f then err OverflowError else ok f.

(** [float(v)] *)
Definition py_float (v : pyval) : result float :=
  match v with
  | PNone => err TypeError
  | PInt z => float_of_int z
  | PFloat f => ok f
  end.

(** [a / b] on two floats: division by either zero raises. *)
Definition float_truediv (a b : float) : result float :=
  if PrimFloat.is_zero b then err ZeroDivisionError else ok (a / b)%float.

(** [a / n] with [a] a float and [n] an integer: [n] is converted first. *)
Definition float_div_int (a : float) (n : Z) : result float :=
  rbind (float_of_int n) (float_truediv a).

Definition hundred : float := 100%float.

(** [v * 100.0] *)
Definition times_hundred (v : pyval) : result pyval :=
  rbind (py_float v) (fun f => ok (PFloat (f * hundred)%float)).

(** ** Strings as objects *)

(** [init_move_stats] compares a choice with the literal ['d'] by identity
    ([is]), not by equality, so a choice is an object: either the very
    object the literal denotes, or another str object, given by its
    characters.  An object of the second kind may well hold the single
    character d: CPython builds such strings at run time (a slice, [chr],
    a decoded byte), and they are equal to the literal without being it. *)
Inductive pystr : Type :=
  | literal_d
  | str_object (chars : string).

Definition chars_of (o : pystr) : string :=
  match o with
  | literal_d => "d"
  | str_object chars => chars
  end.

(** ['d' is o] *)
Definition is_literal_d (o : pystr) : bool :=
  match o with
  | literal_d => true
  | str_object _ => false
  end.

(** ['d' == o] *)
Definition equals_d (o : pystr) : bool := String.eqb "d" (chars_of o).

(** A choice written as a string literal in some module: CPython interns
    such literals when it compiles them, so every literal ['d'] is the one
    object. *)
Definition literal (chars : string) : pystr :=
  if String.eqb "d" chars then literal_d else str_object chars.

(** ** The collaborators: Gene, Cell, Surface *)

(** Modelled from the spec: Gene.py is not part of the sources.  A gene is
    an ordered sequence of choices ('c' or 'd'), here str objects;
    [get_choice_at] is the lookup of the sequence at a step index, which has
    no value outside the sequence; the fraction of defecting choices is what
    the gene reports. *)
Record Gene : Type := {
  get_seq : list pystr;
  get_defect_fraction : pyval
}.

(** Modelled from the spec: [Gene.get_choice_at], the choice at a step
    index; outside the sequence the lookup raises [IndexError]. *)
Definition get_choice_at (g : Gene) (i : nat) : result pystr :=
  match nth_error (get_seq g) i with
  | Some c => ok c
  | None => err IndexError
  end.

(** Modelled from the spec: Cell.py is not part of the sources.  An entity
    exposes its gene, score, age and the five classifier answers. *)
Record Cell : Type := {
  get_gene : Gene;
  get_score : pyval;
  get_age : pyval;
  is_tft : bool;
  is_t2t : bool;
  is_ftf : bool;
  is_alld : bool;
  is_allc : bool
}.

(** Modelled from the spec: Surface.py is not part of the sources.  The
    surface has its two dimensions and its live entities; [population] is
    their count.  [my_map] and [get_all] below traverse [cells]. *)
Record Surface : Type := {
  width : Z;
  height : Z;
  cells : list Cell
}.

(** Modelled from the spec: [surface.population], the count of live
    entities. *)
Definition population (s : Surface) : Z := Z.of_nat (length (cells s)).

(** A CPython container holds at most [sys.maxsize] items. *)
Definition sys_maxsize : Z := 2 ^ 63 - 1.

(** ** State and exceptions *)

Record State : Type := {
  surface : Surface;
  stats : gmap string pyval
}.

Definition M (A : Type) : Type := State -> result A * State.

Definition ret {A} (a : A) : M A := fun st => (ok a, st).

Definition bind {A B} (m : M A) (k : A -> M B) : M B :=
  fun st =>
    match m st with
    | (inl e, st') => (inl e, st')
    | (inr a, st') => k a st'
    end.

Definition lift {A} (r : result A) : M A := fun st => (r, st).

Notation "x <- m ;; k" := (bind m (fun x => k))
  (at level 100, m at next level, right associativity).
Notation "m ;; k" := (bind m (fun _ => k))
  (at level 100, right associativity).

(** [surface.population] *)
Definition read_population : M Z := fun st => (ok (population (surface st)), st).

(** [surface.width * surface.height] *)
Definition read_map_size : M Z :=
  fun st => (ok (width (surface st) * height (surface st)), st).

(** [stats[k] = v] *)
Definition stats_set (k : string) (v : pyval) : M unit :=
  fun st => (ok tt, {| surface := surface st; stats := <[k := v]> (stats st) |}).

(** [return stats] *)
Definition read_stats : M (gmap string pyval) := fun st => (ok (stats st), st).

(** A function handed to [my_map] gets the entity itself, so it may change
    it, and it works on the list its closure captured. *)
Definition callback (A : Type) : Type := Cell -> A -> result A * Cell.

Fixpoint visit {A} (fn : callback A) (cs : list Cell) (acc : A)
  : result A * list Cell :=
  match cs with
  | [] => (ok acc, [])
  | c :: rest =>
      match fn c acc with
      | (inl e, c') => (inl e, c' :: rest)
      | (inr acc', c') =>
          let '(r, rest') := visit fn rest acc' in (r, c' :: rest')
      end
  end.

(** Modelled from the spec: [surface.my_map(fn)] applies [fn] to every
    live entity, in the order of [cells]. *)
Definition my_map {A} (fn : callback A) (acc : A) : M A :=
  fun st =>
    let s := surface st in
    let '(r, cs) := visit fn (cells s) acc in
    (r, {| surface := {| width := width s; height := height s; cells := cs |};
           stats := stats st |}).

(** Modelled from the spec: [surface.get_all()] yields every live
    entity. *)
Definition get_all : M (list Cell) := fun st => (ok (cells (surface st)), st).

(** [lambda c: acc.append(f(c))] for a getter [f] that may raise. *)
Definition appending {A} (f : Cell -> result A) : callback (list A) :=
  fun c acc =>
    match f c with
    | inl e => (inl e, c)
    | inr a => (ok (acc ++ [a]), c)
    end.

(** ** The aggregation passes *)

(** The loop [for move in initial_moves: if 'd' is move: init_move_frac += 1]:
    the test is one of identity, so a choice counts when it is the object
    of the literal, not when it merely equals it. *)
Definition count_defect (moves : list pystr) : Z :=
  fold_left (fun n move => if is_literal_d move then n + 1 else n) moves 0.

Definition init_move_stats : M unit :=
  pop <- read_population ;;
  if negb (0 =? pop) then
    initial_moves <-
      my_map (appending (fun c => get_choice_at (get_gene c) 1)) [] ;;
    let init_move_frac := count_defect initial_moves in
    f <- lift (float_of_int init_move_frac) ;;
    init_move_frac <-
      lift (float_div_int f (Z.of_nat (length initial_moves))) ;;
    stats_set "init_move_frac" (PFloat (init_move_frac * hundred)%float)
  else
    stats_set "init_move_frac" PNone.

(** The counters of [get_rule_stats]. *)
Record rule_counts : Type := {
  num_tfts : Z;
  num_t2ts : Z;
  num_ftfs : Z;
  num_alld : Z;
  num_allc : Z
}.

Definition no_counts : rule_counts :=
  {| num_tfts := 0; num_t2ts := 0; num_ftfs := 0; num_alld := 0; num_allc := 0 |}.

(** The body of [for c in surface.get_all()]: an [if]/[elif] chain. *)
Definition count_rule (n : rule_counts) (c : Cell) : rule_counts :=
  if is_tft c then
    {| num_tfts := num_tfts n + 1; num_t2ts := num_t2ts n;
       num_ftfs := num_ftfs n; num_alld := num_alld n; num_allc := num_allc n |}
  else if is_t2t c then
    {| num_tfts := num_tfts n; num_t2ts := num_t2ts n + 1;
       num_ftfs := num_ftfs n; num_alld := num_alld n; num_allc := num_allc n |}
  else if is_ftf c then
    {| num_tfts := num_tfts n; num_t2ts := num_t2ts n;
       num_ftfs := num_ftfs n + 1; num_alld := num_alld n; num_allc := num_allc n |}
  else if is_alld c then
    {| num_tfts := num_tfts n; num_t2ts := num_t2ts n;
       num_ftfs := num_ftfs n; num_alld := num_alld n + 1; num_allc := num_allc n |}
  else if is_allc c then
    {| num_tfts := num_tfts n; num_t2ts := num_t2ts n;
       num_ftfs := num_ftfs n; num_alld := num_alld n; num_allc := num_allc n + 1 |}
  else n.

Definition count_rules (cs : list Cell) : rule_counts :=
  fold_left count_rule cs no_counts.

(** [float(num) / surface.population] *)
Definition rule_fraction (num : Z) : M pyval :=
  f <- lift (float_of_int num) ;;
  pop <- read_population ;;
  q <- lift (float_div_int f pop) ;;
  ret (PFloat q).

Definition get_rule_stats : M unit :=
  pop <- read_population ;;
  fracs <-
    (if negb (0 =? pop) then
       cs <- get_all ;;
       let n := count_rules cs in
       frac_tfts <- rule_fraction (num_tfts n) ;;
       frac_t2ts <- rule_fraction (num_t2ts n) ;;
       frac_ftfs <- rule_fraction (num_ftfs n) ;;
       frac_alld <- rule_fraction (num_alld n) ;;
       frac_allc <- rule_fraction (num_allc n) ;;
       ret (frac_tfts, frac_t2ts, frac_ftfs, frac_alld, frac_allc)
     else
       ret (PInt 0, PInt 0, PInt 0, PInt 0, PInt 0)) ;;
  let '(frac_tfts, frac_t2ts, frac_ftfs, frac_alld, frac_allc) := fracs in
  v <- lift (times_hundred frac_tfts) ;; stats_set "rule_frac_tfts" v ;;
  v <- lift (times_hundred frac_t2ts) ;; stats_set "rule_frac_t2ts" v ;;
  v <- lift (times_hundred frac_ftfs) ;; stats_set "rule_frac_ftfs" v ;;
  v <- lift (times_hundred frac_alld) ;; stats_set "rule_frac_alld" v ;;
  v <- lift (times_hundred frac_allc) ;; stats_set "rule_frac_allc" v.

Definition get_population_stats : M unit :=
  map_size <- read_map_size ;;
  pop <- read_population ;;
  fp <- lift (float_of_int pop) ;;
  fm <- lift (float_of_int map_size) ;;
  rel_population <- lift (float_truediv fp fm) ;;
  stats_set "pop_rel" (PFloat (rel_population * hundred)%float) ;;
  pop <- read_population ;;
  stats_set "pop_abs" (PInt pop).

(** The passes that use Python's [statistics] module take its two
    functions as parameters: they are the standard library's, they may
    raise, and nothing below depends on what they compute. *)
Section Statistics.

Variable s_mean : list pyval -> result pyval.
Variable s_pstdev : list pyval -> pyval -> result pyval.

(** [mean = s.mean(data); stddev = s.pstdev(data, mean)] *)
Definition mean_and_stddev (data : list pyval) : M (pyval * pyval) :=
  mean <- lift (s_mean data) ;;
  stddev <- lift (s_pstdev data mean) ;;
  ret (mean, stddev).

Definition fraction_def_stats : M unit :=
  pop <- read_population ;;
  ms <-
    (if negb (0 =? pop) then
       fraction_defect <-
         my_map (appending (fun c => ok (get_defect_fraction (get_gene c)))) [] ;;
       mean_and_stddev fraction_defect
     else
       ret (PInt 0, PInt 0)) ;;
  v <- lift (times_hundred (fst ms)) ;; stats_set "def_frac_mean" v ;;
  v <- lift (times_hundred (snd ms)) ;; stats_set "def_frac_stddev" v.

Definition gene_length_stats : M unit :=
  pop <- read_population ;;
  ms <-
    (if negb (0 =? pop) then
       lengths <-
         my_map (appending (fun c =>
           ok (PInt (Z.of_nat (length (get_seq (get_gene c))) - 1)))) [] ;;
       mean_and_stddev lengths
     else
       ret (PNone, PNone)) ;;
  stats_set "length_mean" (fst ms) ;;
  stats_set "length_stddev" (snd ms).

Definition get_score_stats : M unit :=
  pop <- read_population ;;
  ms <-
    (if negb (0 =? pop) then
       scores <- my_map (appending (fun c => ok (get_score c))) [] ;;
       mean_and_stddev scores
     else
       ret (PNone, PNone)) ;;
  stats_set "scores_mean" (fst ms) ;;
  stats_set "scores_stddev" (snd ms).

Definition get_age_stats : M unit :=
  pop <- read_population ;;
  ms <-
    (if negb (0 =? pop) then
       ages <- my_map (appending (fun c => ok (get_age c))) [] ;;
       mean_and_stddev ages
     else
       ret (PNone, PNone)) ;;
  stats_set "age_mean" (fst ms) ;;
  stats_set "age_stddev" (snd ms).

(** The body of [get_stats], on the state that holds [surface] and the
    fresh dictionary. *)
Definition get_stats_body : M (gmap string pyval) :=
  init_move_stats ;;
  fraction_def_stats ;;
  gene_length_stats ;;
  get_score_stats ;;
  get_rule_stats ;;
  get_age_stats ;;
  read_stats.

(** [get_stats(surface)]: what is returned or raised, and the surface
    afterwards. *)
Definition get_stats (s : Surface) : result (gmap string pyval) * Surface :=
  let '(r, st) := get_stats_body {| surface := s; stats := ∅ |} in
  (r, surface st).

End Statistics.

(** The passes in the order [get_stats] calls them. *)
Inductive pass : Type :=
  | InitMove
  | FractionDef
  | GeneLength
  | ScoreStats
  | RuleStats
  | AgeStats.

#[global] Instance pass_eq_dec : EqDecision pass.
Proof. solve_decision. Defined.

Definition all_passes : list pass :=
  [InitMove; FractionDef; GeneLength; ScoreStats; RuleStats; AgeStats].

Definition pass_keys (p : pass) : list string :=
  match p with
  | InitMove => ["init_move_frac"]
  | FractionDef => ["def_frac_mean"; "def_frac_stddev"]
  | GeneLength => ["length_mean"; "length_stddev"]
  | ScoreStats => ["scores_mean"; "scores_stddev"]
  | RuleStats =>
      ["rule_frac_tfts"; "rule_frac_t2ts"; "rule_frac_ftfs";
       "rule_frac_alld"; "rule_frac_allc"]
  | AgeStats => ["age_mean"; "age_stddev"]
  end.

Section Orders.

Variable s_mean : list pyval -> result pyval.
Variable s_pstdev : list pyval -> pyval -> result pyval.

Definition run_pass (p : pass) : M unit :=
  match p with
  | InitMove => init_move_stats
  | FractionDef => fraction_def_stats s_mean s_pstdev
  | GeneLength => gene_length_stats s_mean s_pstdev
  | ScoreStats => get_score_stats s_mean s_pstdev
  | RuleStats => get_rule_stats
  | AgeStats => get_age_stats s_mean s_pstdev
  end.

Fixpoint run_passes (ps : list pass) : M unit :=
  match ps with
  | [] => ret tt
  | p :: rest => run_pass p ;; run_passes rest
  end.

(** [get_stats] with its six calls made in the order [ps]. *)
Definition get_stats_in_order (ps : list pass) (s : Surface)
  : result (gmap string pyval) * Surface :=
  let '(r, st) :=
    (run_passes ps ;; read_stats) {| surface := s; stats := ∅ |} in
  (r, surface st).

End Orders.

(** ** Write logs

    What a computation does to the state, said once for all dictionaries it
    may start from: the surface is handed back as it was, and the
    dictionary receives a list of assignments that does not depend on
    what it held. *)

Definition writes : Type := list (string * pyval).

Definition apply_writes (w : writes) (d : gmap string pyval) : gmap string pyval :=
  fold_left (fun d kv => <[fst kv := snd kv]> d) w d.

Definition logged {A} (K : list string) (m : M A) : Prop :=
  forall s, exists (r : result A) (w : writes),
    (forall a, r = inr a -> map fst w = K) /\
    (forall k, In k (map fst w) -> In k K) /\
    forall d, m {| surface := s; stats := d |}
              = (r, {| surface := s; stats := apply_writes w d |}).

(** What a getter yields over the entities in order, or the first
    exception it raises. *)
Fixpoint collect {A} (f : Cell -> result A) (cs : list Cell) : result (list A) :=
  match cs with
  | [] => ok []
  | c :: rest =>
      match f c with
      | inl e => inl e
      | inr a => rbind (collect f rest) (fun l => ok (a :: l))
      end
  end.

(** ** Logs as maps *)

(** What a run of passes leaves in the dictionary, when it raises nothing. *)
Definition outcome (r : result unit * State) : option (gmap string pyval) :=
  match r with
  | (inr _, st) => Some (stats st)
  | (inl _, _) => None
  end.

Definition disjoint_keys (p q : pass) : Prop :=
  forall k, In k (pass_keys p) -> In k (pass_keys q) -> False.

(** ** The plot *)

(** The dictionary [output_plot] builds for a key, which becomes a trace. *)
Record Series : Type := {
  series_x : list Z;
  series_y : list pyval;
  series_mode : string;
  series_name : string
}.

Definition new_series (key : string) : Series :=
  {| series_x := []; series_y := [];
     series_mode := "lines+markers"; series_name := key |}.

(** [for key in data[0].keys(): plot_data[key] = {...}] *)
Definition init_plot_data (first : gmap string pyval) : gmap string Series :=
  fold_left (fun pd kv => <[fst kv := new_series (fst kv)]> pd)
            (map_to_list first) ∅.

(** [plot_data[k]['x'].append(i); plot_data[k]['y'].append(v)] *)
Definition add_point (i : Z) (pd : gmap string Series) (kv : string * pyval)
  : result (gmap string Series) :=
  match pd !! fst kv with
  | None => err KeyError
  | Some sr =>
      ok (<[fst kv := {| series_x := series_x sr ++ [i];
                         series_y := series_y sr ++ [snd kv];
                         series_mode := series_mode sr;
                         series_name := series_name sr |}]> pd)
  end.

(** [for k, v in d.items(): ...] *)
Fixpoint add_points (i : Z) (items : list (string * pyval))
    (pd : gmap string Series) : result (gmap string Series) :=
  match items with
  | [] => ok pd
  | kv :: rest => rbind (add_point i pd kv) (add_points i rest)
  end.

(** [for i, d in enumerate(data): ...], with [i] the index of the head. *)
Fixpoint add_records (i : Z) (data : list (gmap string pyval))
    (pd : gmap string Series) : result (gmap string Series) :=
  match data with
  | [] => ok pd
  | d :: rest =>
      rbind (add_points i (map_to_list d) pd) (add_records (i + 1) rest)
  end.

(** The order of [sorted] on strings. *)
Definition str_le (a b : string) : Prop := String.leb a b = true.

#[global] Instance str_le_dec : RelDecision str_le.
Proof. intros a b. unfold str_le. apply _. Defined.

(** [for k in sorted(plot_data.keys()): to_plot.append(go.Scatter(plot_data[k]))] *)
Fixpoint traces_of (pd : gmap string Series) (keys : list string)
  : result (list Series) :=
  match keys with
  | [] => ok []
  | k :: rest =>
      match pd !! k with
      | None => err KeyError
      | Some sr => rbind (traces_of pd rest) (fun l => ok (sr :: l))
      end
  end.

Definition sorted_keys (pd : gmap string Series) : list string :=
  merge_sort str_le (map fst (map_to_list pd)).

(** The files on disk: a path holds the traces of the chart written there. *)
Definition Charts : Type := gmap string (list Series).

(** [py.plot(to_plot, filename=path, auto_open=False)].  plotly is not part
    of the repository, so [output_plot] takes the call as a parameter: given
    the traces, the file name and the files, it returns or raises, and
    leaves the files as it will. *)
Definition Plot : Type :=
  list Series -> string -> Charts -> result unit * Charts.

Definition output_plot (py_plot : Plot) (path : string)
    (data : list (gmap string pyval)) (files : Charts)
  : result unit * Charts :=
  match data with
  | [] => (err IndexError, files)
  | first :: _ =>
      let plot_data := init_plot_data first in
      match add_records 0 data plot_data with
      | inl e => (inl e, files)
      | inr plot_data =>
          match traces_of plot_data (sorted_keys plot_data) with
          | inl e => (inl e, files)
          | inr to_plot => py_plot to_plot path files
          end
      end
  end.

(** [s.endswith(suffix)] *)
Definition ends_with (suffix s : string) : bool :=
  (String.length suffix <=? String.length s)%nat
  && String.eqb (String.substring (String.length s - String.length suffix)
                                  (String.length suffix) s) suffix.

(** The name plotly writes under: a file name that does not end with .html
    gets it appended. *)
Definition html_name (filename : string) : string :=
  if ends_with ".html" filename then filename
  else String.append filename ".html".

(** A stand-in for plotly's offline [plot], to run [output_plot] on concrete
    records: it refuses an empty list of traces with
    [PlotlyEmptyDataError] and writes nothing, and otherwise writes the
    traces under [html_name filename].  What is stated of [output_plot]
    with a [py_plot] holds for any such function. *)
Definition plot_example : Plot :=
  fun to_plot filename files =>
    match to_plot with
    | [] => (err PlotlyEmptyDataError, files)
    | _ :: _ => (ok tt, <[html_name filename := to_plot]> files)
    end.

(** ** A surface to run the passes on *)

(** A textbook mean and population standard deviation on floats, to run
    the passes on concrete surfaces.  The theorems hold for any choice of
    the two functions. *)
Fixpoint float_sum (l : list pyval) : result float :=
  match l with
  | [] => ok 0%float
  | v :: rest =>
      rbind (py_float v) (fun f =>
      rbind (float_sum rest) (fun t => ok (f + t)%float))
  end.

Definition mean_example (data : list pyval) : result pyval :=
  match data with
  | [] => err StatisticsError
  | _ =>
      rbind (float_sum data) (fun t =>
      rbind (float_div_int t (Z.of_nat (length data))) (fun m => ok (PFloat m)))
  end.

Definition square_dev (mu : float) (v : pyval) : result pyval :=
  rbind (py_float v) (fun f => ok (PFloat ((f - mu) * (f - mu))%float)).

Fixpoint square_devs (mu : float) (l : list pyval) : result (list pyval) :=
  match l with
  | [] => ok []
  | v :: rest =>
      rbind (square_dev mu v) (fun x =>
      rbind (square_devs mu rest) (fun xs => ok (x :: xs)))
  end.

Definition pstdev_example (data : list pyval) (mu : pyval) : result pyval :=
  rbind (py_float mu) (fun m =>
  rbind (square_devs m data) (fun sq =>
  rbind (mean_example sq) (fun var =>
  rbind (py_float var) (fun x => ok (PFloat (PrimFloat.sqrt x)))))).

(** An entity whose gene is written with string literals. *)
Definition cell_example (seq : list string) (tft t2t ftf alld allc : bool) : Cell :=
  {| get_gene := {| get_seq := map literal seq; get_defect_fraction := PFloat 0.5 |};
     get_score := PInt 7; get_age := PInt 2;
     is_tft := tft; is_t2t := t2t; is_ftf := ftf; is_alld := alld; is_allc := allc |}.

(** Five entities, one of each rule, on a 3 by 3 grid. *)
Definition surface_example : Surface :=
  {| width := 3; height := 3;
     cells := [ cell_example ["c"; "d"; "c"] true false false false false;
                cell_example ["c"; "c"; "d"] false true false false false;
                cell_example ["c"; "d"] false false true false false;
                cell_example ["d"; "d"; "d"] false false false true false;
                cell_example ["c"; "c"; "c"] false false false false true ] |}.

Definition surface_empty : Surface := {| width := 3; height := 3; cells := [] |}.

(** ** The record of [get_stats] *)

(** The keys of the record of [get_stats], in the order they are written. *)
Definition stats_keys : list string := concat (map pass_keys all_passes).

(** The state with its dictionary replaced. *)
Definition set_stats (st : State) (d : gmap string pyval) : State :=
  {| surface := surface st; stats := d |}.

(** ** The plot: what the two loops build *)

(** The points a key receives from the records, [i] being the index of the
    first one: a record without the key contributes none. *)
Fixpoint points_of (i : Z) (data : list (gmap string pyval)) (k : string)
  : list (Z * pyval) :=
  match data with
  | [] => []
  | d :: rest =>
      match d !! k with
      | Some v => (i, v) :: points_of (i + 1) rest k
      | None => points_of (i + 1) rest k
      end
  end.

Definition extend (sr : Series) (pts : list (Z * pyval)) : Series :=
  {| series_x := series_x sr ++ map fst pts;
     series_y := series_y sr ++ map snd pts;
     series_mode := series_mode sr;
     series_name := series_name sr |}.

Definition extend_all (pts : string -> list (Z * pyval))
    (pd : gmap string Series) : gmap string Series :=
  map_imap (fun k sr => Some (extend sr (pts k))) pd.

#[global] Instance str_le_total : Total str_le.
Proof. intros a b. apply String.leb_total. Qed.

(** The values of a key in the records that have it, in order. *)
Definition column (k : string) (data : list (gmap string pyval)) : list pyval :=
  omap (fun d => d !! k) data.

(** The trace of a key over records that all have it. *)
Definition series_of (data : list (gmap string pyval)) (k : string) : Series :=
  {| series_x := seqZ 0 (Z.of_nat (length data));
     series_y := column k data;
     series_mode := "lines+markers";
     series_name := k |}.

Definition rec_ab_1 : gmap string pyval := <["b" := PInt 2]> (<["a" := PInt 1]> ∅).
Definition rec_ab_2 : gmap string pyval := <["b" := PInt 4]> (<["a" := PInt 3]> ∅).
Definition rec_a : gmap string pyval := <["a" := PInt 3]> ∅.
Definition rec_ac : gmap string pyval := <["c" := PInt 4]> (<["a" := PInt 3]> ∅).

(** ** The initial moves *)

(** The choice [init_move_stats] reads from an entity. *)
Definition second_choice (c : Cell) : result pystr :=
  get_choice_at (get_gene c) 1.

Definition has_second_choice (c : Cell) : Prop :=
  (2 <= length (get_seq (get_gene c)))%nat.

(** One entity whose gene holds a single choice. *)
Definition surface_short_gene : Surface :=
  {| width := 3; height := 3;
     cells := [ cell_example ["c"; "d"] true false false false false;
                cell_example ["d"] false false false true false ] |}.

(** ** Binary64 rounding *)

(** The position of [a / b] between two integers, as the rounding
    functions record it. *)
Definition loc_of (a b : Z) : location :=
  if a mod b =? 0 then loc_Exact else loc_Inexact (2 * (a mod b) ?= b).

Definition rne (a b : Z) : Z := round_nearest_even (a / b) (loc_of a b).

(** The two shifts and the rounding of [binary_round_aux], on a quotient. *)
Definition shift1 (a b e : Z) : Z :=
  Z.max (fexp prec emax (Zdigits2 (a / b) + e) - e) 0.

Definition rounded (a b e : Z) : Z := rne a (b * 2 ^ shift1 a b e).

Definition shift2 (a b e : Z) : Z :=
  Z.max (fexp prec emax (Zdigits2 (rounded a b e) + (e + shift1 a b e))
         - (e + shift1 a b e)) 0.

(** ** Integers to binary64 *)

(** The exponent an integer is rounded at. *)
Definition round_exp (z : Z) : Z := Z.max (Zdigits2 z - 53) 0.

(** ** The fraction of defecting second choices *)

(** ['d' is c.get_gene().get_choice_at(1)] *)
Definition defects_second (c : Cell) : bool :=
  is_literal_d (nth 1 (get_seq (get_gene c)) (str_object "")).

(** The number of entities whose choice at index 1 is the object of the
    literal ['d']. *)
Definition defect_count (s : Surface) : Z :=
  Z.of_nat (length (List.filter defects_second (cells s))).

(** The number of entities whose choice at index 1 equals the defect
    symbol, whichever object it is. *)
Definition equal_defect_count (s : Surface) : Z :=
  Z.of_nat (length (List.filter
                      (fun c => equals_d (nth 1 (get_seq (get_gene c))
                                              (str_object "")))
                      (cells s))).

(** One entity whose second choice was built at run time: a str object
    that holds the character d and is not the object of the literal. *)
Definition surface_runtime_d : Surface :=
  {| width := 1; height := 1;
     cells := [ {| get_gene := {| get_seq := [literal "c"; str_object "d"];
                                  get_defect_fraction := PFloat 0.5 |};
                   get_score := PInt 7; get_age := PInt 2;
                   is_tft := true; is_t2t := false; is_ftf := false;
                   is_alld := false; is_allc := false |} ] |}.

(** Three entities that all defect at index 1, by literals. *)
Definition surface_defectors : Surface :=
  {| width := 2; height := 2;
     cells := [ cell_example ["c"; "d"] true false false false false;
                cell_example ["d"; "d"] false false false true false;
                cell_example ["c"; "d"; "c"] false false true false false ] |}.

(** Three entities that all cooperate at index 1. *)
Definition surface_cooperators : Surface :=
  {| width := 2; height := 2;
     cells := [ cell_example ["c"; "c"] false false false false true;
                cell_example ["d"; "c"] false false true false false;
                cell_example ["c"; "c"; "d"] false true false false false ] |}.

(** Two surfaces whose genes agree from index 1 on. *)
Definition same_after_first (s s' : Surface) : Prop :=
  Forall2 (fun c c' => tl (get_seq (get_gene c)) = tl (get_seq (get_gene c')))
          (cells s) (cells s').

(** ** The rule fractions *)

Inductive rule : Type :=
  | TitForTat
  | TwoTitsForTat
  | ForgivingTitForTat
  | AlwaysDefect
  | AlwaysCooperate.

#[global] Instance rule_eq_dec : EqDecision rule.
Proof. solve_decision. Defined.

(** The category of an entity by first match, in the order tit-for-tat,
    two-tits-for-tat, forgiving-tit-for-tat, always-defect,
    always-cooperate; an entity that matches none has no category. *)
Definition first_match (c : Cell) : option rule :=
  if is_tft c then Some TitForTat
  else if is_t2t c then Some TwoTitsForTat
  else if is_ftf c then Some ForgivingTitForTat
  else if is_alld c then Some AlwaysDefect
  else if is_allc c then Some AlwaysCooperate
  else None.

Definition in_rule (r : rule) (c : Cell) : bool :=
  bool_decide (first_match c = Some r).

(** The number of entities of a category. *)
Definition rule_count (r : rule) (cs : list Cell) : Z :=
  Z.of_nat (length (List.filter (in_rule r) cs)).

Definition first_match_counts (cs : list Cell) : rule_counts :=
  {| num_tfts := rule_count TitForTat cs;
     num_t2ts := rule_count TwoTitsForTat cs;
     num_ftfs := rule_count ForgivingTitForTat cs;
     num_alld := rule_count AlwaysDefect cs;
     num_allc := rule_count AlwaysCooperate cs |}.

Definition add_counts (n k : rule_counts) : rule_counts :=
  {| num_tfts := num_tfts n + num_tfts k;
     num_t2ts := num_t2ts n + num_t2ts k;
     num_ftfs := num_ftfs n + num_ftfs k;
     num_alld := num_alld n + num_alld k;
     num_allc := num_allc n + num_allc k |}.

(** [float(num) / N * 100.0] *)
Definition percentage (num n : Z) : float :=
  (float_of_Z num / float_of_Z n * hundred)%float.

(** Nine entities: seven tit-for-tat, one forgiving-tit-for-tat, one
    always-defect. *)
Definition surface_nine : Surface :=
  {| width := 3; height := 3;
     cells := [ cell_example ["c"; "d"] true false false false false;
                cell_example ["c"; "d"] true false false false false;
                cell_example ["c"; "d"] true false false false false;
                cell_example ["c"; "d"] true false false false false;
                cell_example ["c"; "d"] true false false false false;
                cell_example ["c"; "d"] true false false false false;
                cell_example ["c"; "d"] true false false false false;
                cell_example ["c"; "c"] false false true false false;
                cell_example ["d"; "d"] false false false true false ] |}.

(** The value of a finite non-negative float, times [2 ^ 1074]: an
    integer, since no binary64 exponent is below [-1074]. *)
Definition scaled_value (f : float) : Z :=
  match Prim2SF f with
  | S754_finite false m e => Z.pos m * 2 ^ (e + 1074)
  | _ => 0
  end.

Definition rule_frac (s : Surface) (key : string) : float :=
  match stats (snd (get_rule_stats {| surface := s; stats := ∅ |})) !! key with
  | Some (PFloat f) => f
  | _ => PrimFloat.nan
  end.

(** ** The population of the grid *)

(** Three entities on a 2 by 2 grid. *)
Definition surface_two_by_two : Surface :=
  {| width := 2; height := 2;
     cells := [ cell_example ["c"; "d"] true false false false false;
                cell_example ["c"; "c"] false false true false false;
                cell_example ["d"; "d"] false false false true false ] |}.

(** The first integer [float()] cannot convert: halfway between the largest
    binary64 number and [2 ^ 1024], where rounding to even goes up. *)
Definition float_limit : Z := 2 ^ 1024 - 2 ^ 970.

(** The three entities of [surface_two_by_two] on a grid too wide for
    [float()]. *)
Definition surface_huge : Surface :=
  {| width := 2 ^ 1024; height := 1; cells := cells surface_two_by_two |}.

(** ** The data the passes reduce *)

(** [len(c.get_gene().get_seq()) - 1] for every entity, in order. *)
Definition gene_lengths (s : Surface) : list pyval :=
  map (fun c => PInt (Z.of_nat (length (get_seq (get_gene c))) - 1)) (cells s).

Definition scores (s : Surface) : list pyval := map get_score (cells s).

Definition ages (s : Surface) : list pyval := map get_age (cells s).

Definition defect_fractions (s : Surface) : list pyval :=
  map (fun c => get_defect_fraction (get_gene c)) (cells s).

(** What a pass that stores a mean and a deviation unscaled comes to, given
    the data it collected: the exception of [mean] or of [pstdev] with
    nothing stored, or the two values stored. *)
Definition store_mean_stddev (s_mean : list pyval -> result pyval)
    (s_pstdev : list pyval -> pyval -> result pyval)
    (key_mean key_stddev : string) (data : list pyval)
    (st : State) : result unit * State :=
  match s_mean data with
  | inl e => (inl e, st)
  | inr mean =>
      match s_pstdev data mean with
      | inl e => (inl e, st)
      | inr stddev =>
          (inr tt,
           set_stats st (<[key_stddev := stddev]> (<[key_mean := mean]> (stats st))))
      end
  end.

(** What [fraction_def_stats] comes to, given the fractions it collected:
    both products are computed when they are stored, so a failing second
    product leaves the first key stored. *)
Definition store_scaled_mean_stddev (s_mean : list pyval -> result pyval)
    (s_pstdev : list pyval -> pyval -> result pyval) (data : list pyval)
    (st : State) : result unit * State :=
  match s_mean data with
  | inl e => (inl e, st)
  | inr mean =>
      match s_pstdev data mean with
      | inl e => (inl e, st)
      | inr stddev =>
          match times_hundred mean with
          | inl e => (inl e, st)
          | inr v1 =>
              match times_hundred stddev with
              | inl e =>
                  (inl e, set_stats st (<["def_frac_mean" := v1]> (stats st)))
              | inr v2 =>
                  (inr tt,
                   set_stats st (<["def_frac_stddev" := v2]>
                                 (<["def_frac_mean" := v1]> (stats st))))
              end
          end
      end
  end.

(** [float(num) / pop] with [pop] an integer. *)
Definition quotient (num pop : Z) : result float :=
  rbind (float_of_int num) (fun f => float_div_int f pop).

(** What [get_rule_stats] comes to on a positive population, given the
    counters: the five quotients are computed first, in the order of the
    source, then the five products are stored. *)
Definition store_rule_fractions (n : rule_counts) (pop : Z) (st : State)
  : result unit * State :=
  match quotient (num_tfts n) pop with
  | inl e => (inl e, st)
  | inr tfts =>
  match quotient (num_t2ts n) pop with
  | inl e => (inl e, st)
  | inr t2ts =>
  match quotient (num_ftfs n) pop with
  | inl e => (inl e, st)
  | inr ftfs =>
  match quotient (num_alld n) pop with
  | inl e => (inl e, st)
  | inr alld =>
  match quotient (num_allc n) pop with
  | inl e => (inl e, st)
  | inr allc =>
      (inr tt,
       set_stats st
         (<["rule_frac_allc" := PFloat (allc * hundred)%float]>
         (<["rule_frac_alld" := PFloat (alld * hundred)%float]>
         (<["rule_frac_ftfs" := PFloat (ftfs * hundred)%float]>
         (<["rule_frac_t2ts" := PFloat (t2ts * hundred)%float]>
         (<["rule_frac_tfts" := PFloat (tfts * hundred)%float]> (stats st)))))))
  end end end end end.

(** The trace [output_plot] builds for a key from the records. *)
Definition trace_of (data : list (gmap string pyval)) (k : string) : Series :=
  extend (new_series k) (points_of 0 data k).

(** What a pass alone, on the empty dictionary, returns and stores. *)
Definition alone (s_mean : list pyval -> result pyval)
    (s_pstdev : list pyval -> pyval -> result pyval)
    (p : pass) (s : Surface) : result unit * State :=
  run_pass s_mean s_pstdev p {| surface := s; stats := ∅ |}.

(** The key [get_rule_stats] stores the fraction of a category under. *)
Definition rule_key (r : rule) : string :=
  match r with
  | TitForTat => "rule_frac_tfts"
  | TwoTitsForTat => "rule_frac_t2ts"
  | ForgivingTitForTat => "rule_frac_ftfs"
  | AlwaysDefect => "rule_frac_alld"
  | AlwaysCooperate => "rule_frac_allc"
  end.

(** An entity that no branch of the [if]/[elif] chain takes. *)
Definition unclassified (c : Cell) : bool :=
  negb (is_tft c || is_t2t c || is_ftf c || is_alld c || is_allc c).

(** The entities of [surface_example], traversed the other way round. *)
Definition surface_reversed : Surface :=
  {| width := 3; height := 3; cells := rev (cells surface_example) |}.

(** A grid without a column. *)
Definition surface_no_grid : Surface := {| width := 0; height := 3; cells := [] |}.

(** * Its properties *)

(** ** Write logs: lemmas *)

Lemma apply_writes_app (w1 w2 : writes) (d : gmap string pyval) :
  apply_writes (w1 ++ w2) d = apply_writes w2 (apply_writes w1 d).
Proof. unfold apply_writes. apply fold_left_app. Qed.

Lemma logged_ret {A} (a : A) : logged [] (ret a).
Proof. intros s. exists (ok a), []. repeat split; auto. Qed.

Lemma logged_lift {A} (r : result A) : logged [] (lift r).
Proof. intros s. exists r, []. repeat split; auto. Qed.

Lemma logged_read_population : logged [] read_population.
Proof. intros s. exists (ok (population s)), []. repeat split; auto. Qed.

Lemma logged_read_map_size : logged [] read_map_size.
Proof. intros s. exists (ok (width s * height s)), []. repeat split; auto. Qed.

Lemma logged_get_all : logged [] get_all.
Proof. intros s. exists (ok (cells s)), []. repeat split; auto. Qed.

Lemma logged_stats_set (k : string) (v : pyval) : logged [k] (stats_set k v).
Proof. intros s. exists (ok tt), [(k, v)]. repeat split; auto. Qed.

Lemma logged_bind {A B} (K1 K2 : list string) (m : M A) (k : A -> M B) :
  logged K1 m -> (forall a, logged K2 (k a)) -> logged (K1 ++ K2) (bind m k).
Proof.
  intros Hm Hk s.
  destruct (Hm s) as (r1 & w1 & Hok1 & Hin1 & Hrun1).
  destruct r1 as [e | a].
  - exists (inl e), w1. split; [discriminate |]. split.
    + intros x Hx. apply in_or_app. left. auto.
    + intros d. unfold bind. rewrite Hrun1. reflexivity.
  - destruct (Hk a s) as (r2 & w2 & Hok2 & Hin2 & Hrun2).
    exists r2, (w1 ++ w2). split; [| split].
    + intros b Hb. rewrite map_app, (Hok1 a eq_refl), (Hok2 b Hb). reflexivity.
    + intros x. rewrite map_app, !in_app_iff. intros [Hx | Hx]; auto.
    + intros d. unfold bind. rewrite Hrun1, Hrun2, apply_writes_app. reflexivity.
Qed.

Lemma logged_bind_pure {A B} (K : list string) (m : M A) (k : A -> M B) :
  logged [] m -> (forall a, logged K (k a)) -> logged K (bind m k).
Proof. intros Hm Hk. apply (logged_bind [] K); assumption. Qed.

Lemma logged_bind_set {B} (key : string) (v : pyval) (K : list string)
    (k : unit -> M B) :
  logged K (k tt) -> logged (key :: K) (bind (stats_set key v) k).
Proof.
  intros Hk. apply (logged_bind [key] K).
  - apply logged_stats_set.
  - intros []. exact Hk.
Qed.

Lemma visit_appending {A} (f : Cell -> result A) (cs : list Cell) (acc : list A) :
  visit (appending f) cs acc
  = (rbind (collect f cs) (fun l => ok (acc ++ l)), cs).
Proof.
  revert acc. induction cs as [| c rest IH]; intros acc; simpl.
  - rewrite app_nil_r. reflexivity.
  - unfold appending at 1. destruct (f c) as [e | a]; [reflexivity |].
    simpl. rewrite IH. destruct (collect f rest) as [e | l]; simpl; [reflexivity |].
    rewrite <- app_assoc. reflexivity.
Qed.

Lemma my_map_appending {A} (f : Cell -> result A) (acc : list A) (st : State) :
  my_map (appending f) acc st
  = (rbind (collect f (cells (surface st))) (fun l => ok (acc ++ l)), st).
Proof.
  unfold my_map. rewrite visit_appending.
  destruct st as [[w h cs] d]. reflexivity.
Qed.

Lemma logged_my_map {A} (f : Cell -> result A) (acc : list A) :
  logged [] (my_map (appending f) acc).
Proof.
  intros s.
  exists (rbind (collect f (cells s)) (fun l => ok (acc ++ l))), [].
  repeat split; auto.
  intros d. rewrite my_map_appending. reflexivity.
Qed.

Lemma logged_if {A} (K : list string) (b : bool) (m1 m2 : M A) :
  logged K m1 -> logged K m2 -> logged K (if b then m1 else m2).
Proof. destruct b; auto. Qed.

Create HintDb logged.

#[local] Hint Resolve logged_ret logged_lift logged_read_population
  logged_read_map_size logged_get_all logged_stats_set logged_my_map : logged.

Ltac logged_step :=
  first
    [ apply logged_bind_set
    | apply logged_stats_set
    | apply logged_if
    | apply logged_bind_pure; [ | intros ? ]
    | solve [ auto with logged ] ].

Ltac logged_auto := repeat (logged_step; simpl).

Lemma logged_init_move_stats : logged ["init_move_frac"] init_move_stats.
Proof. unfold init_move_stats. logged_auto. Qed.

Lemma logged_rule_fraction (num : Z) : logged [] (rule_fraction num).
Proof. unfold rule_fraction. logged_auto. Qed.

#[local] Hint Resolve logged_rule_fraction : logged.

Lemma logged_get_rule_stats : logged (pass_keys RuleStats) get_rule_stats.
Proof.
  unfold get_rule_stats. simpl.
  apply logged_bind_pure; [auto with logged | intros pop].
  apply logged_bind_pure.
  - logged_auto.
  - intros [[[[a b] c] d] e]. logged_auto.
Qed.

Lemma logged_get_population_stats :
  logged ["pop_rel"; "pop_abs"] get_population_stats.
Proof. unfold get_population_stats. logged_auto. Qed.

Section StatisticsLogs.

Variable s_mean : list pyval -> result pyval.
Variable s_pstdev : list pyval -> pyval -> result pyval.

Lemma logged_mean_and_stddev (data : list pyval) :
  logged [] (mean_and_stddev s_mean s_pstdev data).
Proof. unfold mean_and_stddev. logged_auto. Qed.

Hint Resolve logged_mean_and_stddev : logged.

Lemma logged_fraction_def_stats :
  logged (pass_keys FractionDef) (fraction_def_stats s_mean s_pstdev).
Proof. unfold fraction_def_stats. simpl. logged_auto. Qed.

Lemma logged_gene_length_stats :
  logged (pass_keys GeneLength) (gene_length_stats s_mean s_pstdev).
Proof. unfold gene_length_stats. simpl. logged_auto. Qed.

Lemma logged_get_score_stats :
  logged (pass_keys ScoreStats) (get_score_stats s_mean s_pstdev).
Proof. unfold get_score_stats. simpl. logged_auto. Qed.

Lemma logged_get_age_stats :
  logged (pass_keys AgeStats) (get_age_stats s_mean s_pstdev).
Proof. unfold get_age_stats. simpl. logged_auto. Qed.

Lemma logged_run_pass (p : pass) :
  logged (pass_keys p) (run_pass s_mean s_pstdev p).
Proof.
  destruct p; simpl run_pass.
  - apply logged_init_move_stats.
  - apply logged_fraction_def_stats.
  - apply logged_gene_length_stats.
  - apply logged_get_score_stats.
  - apply logged_get_rule_stats.
  - apply logged_get_age_stats.
Qed.

Lemma logged_run_passes (ps : list pass) :
  logged (concat (map pass_keys ps)) (run_passes s_mean s_pstdev ps).
Proof.
  induction ps as [| p rest IH]; simpl.
  - apply logged_ret.
  - apply logged_bind; [apply logged_run_pass | intros _; exact IH].
Qed.

End StatisticsLogs.

(** ** Logs as maps *)

Lemma apply_writes_union (w : writes) (d : gmap string pyval) :
  apply_writes w d = apply_writes w ∅ ∪ d.
Proof.
  revert d. induction w as [| [k v] w IH]; intros d.
  - simpl. rewrite (left_id_L ∅ (∪)). reflexivity.
  - change (apply_writes w (<[k := v]> d) = apply_writes w (<[k := v]> ∅) ∪ d).
    rewrite (IH (<[k := v]> d)), (IH (<[k := v]> ∅)).
    rewrite <- (assoc_L (∪)). f_equal.
    rewrite insert_union_singleton_l, (insert_union_singleton_l ∅).
    rewrite (right_id_L ∅ (∪)). reflexivity.
Qed.

Lemma dom_apply_writes (w : writes) (d : gmap string pyval) :
  dom (apply_writes w d) = list_to_set (map fst w) ∪ dom d.
Proof.
  revert d. induction w as [| [k v] w IH]; intros d.
  - simpl. rewrite (left_id_L ∅ (∪)). reflexivity.
  - change (dom (apply_writes w (<[k := v]> d))
            = ({[k]} ∪ list_to_set (map fst w)) ∪ dom d).
    rewrite IH, dom_insert_L, (assoc_L (∪)).
    rewrite (comm_L (∪) (list_to_set (map fst w)) {[k]}). reflexivity.
Qed.

Lemma apply_writes_frame (w : writes) (d : gmap string pyval) (k : string) :
  ~ In k (map fst w) -> apply_writes w d !! k = d !! k.
Proof.
  revert d. induction w as [| [k' v] w IH]; intros d Hk; [reflexivity |].
  change (apply_writes w (<[k' := v]> d) !! k = d !! k).
  simpl in Hk. rewrite IH by tauto.
  apply lookup_insert_ne. tauto.
Qed.

Lemma apply_writes_swap (w1 w2 : writes) (d : gmap string pyval) :
  (forall k, In k (map fst w1) -> In k (map fst w2) -> False) ->
  apply_writes w2 (apply_writes w1 d) = apply_writes w1 (apply_writes w2 d).
Proof.
  intros Hdisj.
  rewrite (apply_writes_union w2 (apply_writes w1 d)), (apply_writes_union w1 d).
  rewrite (apply_writes_union w1 (apply_writes w2 d)), (apply_writes_union w2 d).
  rewrite !(assoc_L (∪)). f_equal.
  apply map_union_comm, map_disjoint_dom.
  rewrite !dom_apply_writes, !dom_empty_L, !(right_id_L ∅ (∪)).
  intros k H2 H1.
  apply elem_of_list_to_set, list_elem_of_In in H1, H2.
  eauto.
Qed.

Lemma pass_keys_disjoint (p q : pass) : p <> q -> disjoint_keys p q.
Proof.
  intros Hpq k Hp Hq.
  destruct p, q; try congruence; simpl in Hp, Hq;
    intuition (subst; discriminate).
Qed.

Lemma pass_keys_NoDup : NoDup (concat (map pass_keys all_passes)).
Proof. apply (bool_decide_unpack _). vm_compute. exact I. Qed.

Lemma all_passes_NoDup : NoDup all_passes.
Proof. apply (bool_decide_unpack _). vm_compute. exact I. Qed.

(** ** Frame and order of the passes *)

Lemma logged_surface {A} (K : list string) (m : M A) (st : State) :
  logged K m -> surface (snd (m st)) = surface st.
Proof.
  intros Hm. destruct st as [s d].
  destruct (Hm s) as (r & w & _ & _ & Hrun). rewrite Hrun. reflexivity.
Qed.

Lemma logged_frame {A} (K : list string) (m : M A) (st : State) (k : string) :
  logged K m -> ~ In k K -> stats (snd (m st)) !! k = stats st !! k.
Proof.
  intros Hm Hk. destruct st as [s d].
  destruct (Hm s) as (r & w & _ & Hin & Hrun). rewrite Hrun. simpl.
  apply apply_writes_frame. intros Hw. apply Hk, Hin, Hw.
Qed.

Section Order.

Variable s_mean : list pyval -> result pyval.
Variable s_pstdev : list pyval -> pyval -> result pyval.

Lemma get_stats_body_run_passes (st : State) :
  get_stats_body s_mean s_pstdev st
  = (run_passes s_mean s_pstdev all_passes ;; read_stats) st.
Proof.
  unfold get_stats_body, all_passes. simpl. unfold bind.
  destruct (init_move_stats st) as [[e | []] st1]; [reflexivity |].
  destruct (fraction_def_stats _ _ st1) as [[e | []] st2]; [reflexivity |].
  destruct (gene_length_stats _ _ st2) as [[e | []] st3]; [reflexivity |].
  destruct (get_score_stats _ _ st3) as [[e | []] st4]; [reflexivity |].
  destruct (get_rule_stats st4) as [[e | []] st5]; [reflexivity |].
  destruct (get_age_stats _ _ st5) as [[e | []] st6]; reflexivity.
Qed.

Lemma get_stats_in_order_all (s : Surface) :
  get_stats s_mean s_pstdev s = get_stats_in_order s_mean s_pstdev all_passes s.
Proof.
  unfold get_stats, get_stats_in_order.
  rewrite get_stats_body_run_passes. reflexivity.
Qed.

Lemma get_stats_in_order_outcome (ps : list pass) (s : Surface)
    (d : gmap string pyval) :
  fst (get_stats_in_order s_mean s_pstdev ps s) = inr d
  <-> outcome (run_passes s_mean s_pstdev ps {| surface := s; stats := ∅ |})
      = Some d.
Proof.
  unfold get_stats_in_order, bind.
  destruct (run_passes _ _ ps _) as [[e | []] st]; simpl.
  - split; discriminate.
  - split; intros H; inversion H; reflexivity.
Qed.

Lemma run_passes_perm (ps ps' : list pass) :
  Permutation ps ps' -> NoDup ps ->
  forall st, outcome (run_passes s_mean s_pstdev ps st)
             = outcome (run_passes s_mean s_pstdev ps' st).
Proof.
  induction 1 as [| x l l' Hperm IH | x y l | l l' l'' H1 IH1 H2 IH2];
    intros Hnd st.
  - reflexivity.
  - simpl. unfold bind.
    destruct (run_pass _ _ x st) as [[e | []] st1]; [reflexivity |].
    apply IH. inversion Hnd; assumption.
  - assert (Hxy : x <> y).
    { inversion Hnd as [| ? ? Hy _]; subst. intros ->. apply Hy. constructor. }
    destruct st as [s d].
    destruct (logged_run_pass s_mean s_pstdev x s) as (rx & wx & _ & Hinx & Hx).
    destruct (logged_run_pass s_mean s_pstdev y s) as (ry & wy & _ & Hiny & Hy).
    simpl. unfold bind. rewrite Hx, Hy.
    destruct ry as [ey | []]; destruct rx as [ex | []];
      rewrite ?Hx, ?Hy; try reflexivity.
    rewrite (apply_writes_swap wy wx d); [reflexivity |].
    intros k Hky Hkx.
    apply (pass_keys_disjoint x y Hxy k); auto.
  - rewrite IH1 by assumption. apply IH2.
    rewrite <- H1. assumption.
Qed.

End Order.

(** ** The record of [get_stats] *)

(** C9: [get_stats] and every pass, [get_population_stats] too, hand the
    surface back as they got it, whatever they return or raise: the
    dimensions, the population and every entity (gene, score, age,
    classifier answers) are the ones before the call. *)
Theorem get_stats_read_only (s_mean : list pyval -> result pyval)
    (s_pstdev : list pyval -> pyval -> result pyval) (s : Surface) :
  snd (get_stats s_mean s_pstdev s) = s /\
  (forall p d,
     surface (snd (run_pass s_mean s_pstdev p {| surface := s; stats := d |})) = s) /\
  (forall d,
     surface (snd (get_population_stats {| surface := s; stats := d |})) = s).
Proof.
  split; [| split].
  - rewrite get_stats_in_order_all. unfold get_stats_in_order.
    pose proof (logged_surface _ _ {| surface := s; stats := ∅ |}
                  (logged_run_passes s_mean s_pstdev all_passes)) as Hs.
    unfold bind.
    destruct (run_passes _ _ all_passes _) as [[e | []] st]; simpl in *; exact Hs.
  - intros p d.
    apply (logged_surface _ _ {| surface := s; stats := d |}
             (logged_run_pass s_mean s_pstdev p)).
  - intros d.
    apply (logged_surface _ _ {| surface := s; stats := d |}
             logged_get_population_stats).
Qed.

(** C8: the key sets of the six passes of [get_stats] are pairwise
    disjoint, a pass leaves every key outside its own set as it was, no key
    is written twice, and calling the six passes in any order returns the
    dictionary [get_stats] returns (and returns one exactly when [get_stats]
    does). *)
Theorem passes_order_independent (s_mean : list pyval -> result pyval)
    (s_pstdev : list pyval -> pyval -> result pyval)
    (s : Surface) (ps : list pass) :
  Permutation ps all_passes ->
  (forall p q, p <> q -> disjoint_keys p q) /\
  NoDup (concat (map pass_keys ps)) /\
  (forall p d k, ~ In k (pass_keys p) ->
     stats (snd (run_pass s_mean s_pstdev p {| surface := s; stats := d |})) !! k
     = d !! k) /\
  (forall d, fst (get_stats_in_order s_mean s_pstdev ps s) = inr d
             <-> fst (get_stats s_mean s_pstdev s) = inr d).
Proof.
  intros Hperm. split; [| split; [| split]].
  - apply pass_keys_disjoint.
  - assert (Hc : concat (map pass_keys ps) ≡ₚ concat (map pass_keys all_passes)).
    { rewrite <- !flat_map_concat_map. apply Permutation_flat_map, Hperm. }
    rewrite Hc. apply pass_keys_NoDup.
  - intros p d k Hk.
    apply (logged_frame _ _ {| surface := s; stats := d |} k
             (logged_run_pass s_mean s_pstdev p) Hk).
  - intros d. rewrite get_stats_in_order_all, !get_stats_in_order_outcome.
    rewrite (run_passes_perm s_mean s_pstdev ps all_passes Hperm); [reflexivity |].
    rewrite Hperm. apply all_passes_NoDup.
Qed.

Lemma passes_order_independent_witness :
  (forall p q, p <> q -> disjoint_keys p q) /\
  NoDup (concat (map pass_keys (rev all_passes))) /\
  (forall p d k, ~ In k (pass_keys p) ->
     stats (snd (run_pass mean_example pstdev_example p
                   {| surface := surface_example; stats := d |})) !! k
     = d !! k) /\
  (forall d,
     fst (get_stats_in_order mean_example pstdev_example (rev all_passes)
            surface_example) = inr d
     <-> fst (get_stats mean_example pstdev_example surface_example) = inr d).
Proof.
  apply (passes_order_independent mean_example pstdev_example surface_example
           (rev all_passes)).
  symmetry. apply Permutation_rev.
Defined.

Lemma get_stats_dom (s_mean : list pyval -> result pyval)
    (s_pstdev : list pyval -> pyval -> result pyval)
    (s : Surface) (d : gmap string pyval) :
  fst (get_stats s_mean s_pstdev s) = inr d -> dom d = list_to_set stats_keys.
Proof.
  rewrite get_stats_in_order_all, get_stats_in_order_outcome.
  destruct (logged_run_passes s_mean s_pstdev all_passes s)
    as (r & w & Hok & _ & Hrun).
  rewrite Hrun. destruct r as [e | []]; simpl; [discriminate |].
  intros [= <-]. rewrite dom_apply_writes, dom_empty_L, (right_id_L ∅ (∪)).
  rewrite (Hok tt eq_refl). reflexivity.
Qed.

(** C2: the record [get_stats] returns has exactly the fourteen keys of its
    six passes; [pop_rel] and [pop_abs] are not among them, and they are the
    two keys [get_population_stats], which [get_stats] does not call, writes
    when it returns. *)
Theorem get_stats_fourteen_keys (s_mean : list pyval -> result pyval)
    (s_pstdev : list pyval -> pyval -> result pyval)
    (s : Surface) (d : gmap string pyval) :
  fst (get_stats s_mean s_pstdev s) = inr d ->
  dom d = list_to_set
            ["init_move_frac"; "def_frac_mean"; "def_frac_stddev";
             "length_mean"; "length_stddev"; "scores_mean"; "scores_stddev";
             "age_mean"; "age_stddev"; "rule_frac_tfts"; "rule_frac_t2ts";
             "rule_frac_ftfs"; "rule_frac_alld"; "rule_frac_allc"] /\
  size d = 14%nat /\
  d !! "pop_rel" = None /\
  d !! "pop_abs" = None /\
  (forall d0 st,
     get_population_stats {| surface := s; stats := d0 |} = (inr tt, st) ->
     dom (stats st) = {["pop_rel"; "pop_abs"]} ∪ dom d0).
Proof.
  intros Hd. apply get_stats_dom in Hd.
  assert (Hkeys : dom d = list_to_set
            ["init_move_frac"; "def_frac_mean"; "def_frac_stddev";
             "length_mean"; "length_stddev"; "scores_mean"; "scores_stddev";
             "age_mean"; "age_stddev"; "rule_frac_tfts"; "rule_frac_t2ts";
             "rule_frac_ftfs"; "rule_frac_alld"; "rule_frac_allc"]).
  { rewrite Hd. apply (bool_decide_unpack _). vm_compute. exact I. }
  split; [exact Hkeys |]. split; [| split; [| split]].
  - rewrite <- size_dom, Hd. vm_compute. reflexivity.
  - apply not_elem_of_dom. rewrite Hd.
    apply (bool_decide_unpack _). vm_compute. exact I.
  - apply not_elem_of_dom. rewrite Hd.
    apply (bool_decide_unpack _). vm_compute. exact I.
  - intros d0 st Hrun.
    destruct (logged_get_population_stats s) as (r & w & Hok & _ & Hlog).
    rewrite Hlog in Hrun. inversion Hrun as [[Hr Hst]]. subst r.
    simpl. rewrite dom_apply_writes, (Hok tt eq_refl). simpl.
    rewrite (right_id_L ∅ (∪)). reflexivity.
Qed.

Lemma result_is_ok {A} (r : result A) :
  match r with inl _ => false | inr _ => true end = true ->
  exists a, r = inr a.
Proof. destruct r as [e | a]; [discriminate | intros _; exists a; reflexivity]. Qed.

Lemma get_stats_fourteen_keys_witness :
  exists d,
    fst (get_stats mean_example pstdev_example surface_example) = inr d /\
    dom d = list_to_set
              ["init_move_frac"; "def_frac_mean"; "def_frac_stddev";
               "length_mean"; "length_stddev"; "scores_mean"; "scores_stddev";
               "age_mean"; "age_stddev"; "rule_frac_tfts"; "rule_frac_t2ts";
               "rule_frac_ftfs"; "rule_frac_alld"; "rule_frac_allc"] /\
    size d = 14%nat /\
    d !! "pop_rel" = None /\
    d !! "pop_abs" = None /\
    (forall d0 st,
       get_population_stats {| surface := surface_example; stats := d0 |}
       = (inr tt, st) ->
       dom (stats st) = {["pop_rel"; "pop_abs"]} ∪ dom d0).
Proof.
  destruct (result_is_ok
              (fst (get_stats mean_example pstdev_example surface_example)))
    as [d Hd]; [vm_compute; reflexivity |].
  exists d. split; [exact Hd |].
  apply (get_stats_fourteen_keys mean_example pstdev_example surface_example d Hd).
Defined.

Lemma population_zero (s : Surface) : population s = 0 -> cells s = [].
Proof.
  unfold population. destruct (cells s); [reflexivity | simpl; lia].
Qed.

(** The passes on a state whose surface has no entity. *)
Lemma times_hundred_zero : times_hundred (PInt 0) = ok (PFloat 0%float).
Proof. vm_compute. reflexivity. Qed.

Lemma init_move_stats_empty (st : State) :
  cells (surface st) = [] ->
  init_move_stats st
  = (ok tt, set_stats st (<["init_move_frac" := PNone]> (stats st))).
Proof.
  intros H. unfold init_move_stats, bind, read_population, population.
  rewrite H. reflexivity.
Qed.

Lemma get_rule_stats_empty (st : State) :
  cells (surface st) = [] ->
  get_rule_stats st
  = (ok tt, set_stats st
      (<["rule_frac_allc" := PFloat 0%float]>
       (<["rule_frac_alld" := PFloat 0%float]>
        (<["rule_frac_ftfs" := PFloat 0%float]>
         (<["rule_frac_t2ts" := PFloat 0%float]>
          (<["rule_frac_tfts" := PFloat 0%float]> (stats st))))))).
Proof.
  intros H. unfold get_rule_stats, bind, read_population, population.
  rewrite H.
  cbv beta iota zeta delta [ret lift negb Z.eqb Z.of_nat length].
  rewrite times_hundred_zero. reflexivity.
Qed.

Section EmptyPopulation.

Variable s_mean : list pyval -> result pyval.
Variable s_pstdev : list pyval -> pyval -> result pyval.

Lemma fraction_def_stats_empty (st : State) :
  cells (surface st) = [] ->
  fraction_def_stats s_mean s_pstdev st
  = (ok tt, set_stats st
      (<["def_frac_stddev" := PFloat 0%float]>
       (<["def_frac_mean" := PFloat 0%float]> (stats st)))).
Proof.
  intros H. unfold fraction_def_stats, bind, read_population, population.
  rewrite H.
  cbv beta iota zeta delta [ret lift negb Z.eqb Z.of_nat length fst snd].
  rewrite times_hundred_zero. reflexivity.
Qed.

Lemma gene_length_stats_empty (st : State) :
  cells (surface st) = [] ->
  gene_length_stats s_mean s_pstdev st
  = (ok tt, set_stats st
      (<["length_stddev" := PNone]> (<["length_mean" := PNone]> (stats st)))).
Proof.
  intros H. unfold gene_length_stats, bind, read_population, population.
  rewrite H. reflexivity.
Qed.

Lemma get_score_stats_empty (st : State) :
  cells (surface st) = [] ->
  get_score_stats s_mean s_pstdev st
  = (ok tt, set_stats st
      (<["scores_stddev" := PNone]> (<["scores_mean" := PNone]> (stats st)))).
Proof.
  intros H. unfold get_score_stats, bind, read_population, population.
  rewrite H. reflexivity.
Qed.

Lemma get_age_stats_empty (st : State) :
  cells (surface st) = [] ->
  get_age_stats s_mean s_pstdev st
  = (ok tt, set_stats st
      (<["age_stddev" := PNone]> (<["age_mean" := PNone]> (stats st)))).
Proof.
  intros H. unfold get_age_stats, bind, read_population, population.
  rewrite H. reflexivity.
Qed.

End EmptyPopulation.

(** C1: on a surface with population 0, [get_stats] returns a record in
    which [init_move_frac], [length_mean], [length_stddev], [scores_mean],
    [scores_stddev], [age_mean] and [age_stddev] are [None], while
    [def_frac_mean], [def_frac_stddev] and the five [rule_frac_*] are the
    float 0.0. *)
Theorem get_stats_empty_population (s_mean : list pyval -> result pyval)
    (s_pstdev : list pyval -> pyval -> result pyval) (s : Surface) :
  population s = 0 ->
  exists d,
    fst (get_stats s_mean s_pstdev s) = inr d /\
    d !! "init_move_frac" = Some PNone /\
    d !! "length_mean" = Some PNone /\
    d !! "length_stddev" = Some PNone /\
    d !! "scores_mean" = Some PNone /\
    d !! "scores_stddev" = Some PNone /\
    d !! "age_mean" = Some PNone /\
    d !! "age_stddev" = Some PNone /\
    d !! "def_frac_mean" = Some (PFloat 0%float) /\
    d !! "def_frac_stddev" = Some (PFloat 0%float) /\
    d !! "rule_frac_tfts" = Some (PFloat 0%float) /\
    d !! "rule_frac_t2ts" = Some (PFloat 0%float) /\
    d !! "rule_frac_ftfs" = Some (PFloat 0%float) /\
    d !! "rule_frac_alld" = Some (PFloat 0%float) /\
    d !! "rule_frac_allc" = Some (PFloat 0%float).
Proof.
  intros Hpop. apply population_zero in Hpop.
  unfold get_stats, get_stats_body, bind.
  rewrite init_move_stats_empty by exact Hpop.
  rewrite fraction_def_stats_empty by exact Hpop.
  rewrite gene_length_stats_empty by exact Hpop.
  rewrite get_score_stats_empty by exact Hpop.
  rewrite get_rule_stats_empty by exact Hpop.
  rewrite get_age_stats_empty by exact Hpop.
  eexists. split; [reflexivity |].
  repeat split; vm_compute; reflexivity.
Qed.

Lemma get_stats_empty_population_witness :
  exists d,
    fst (get_stats mean_example pstdev_example surface_empty) = inr d /\
    d !! "init_move_frac" = Some PNone /\
    d !! "length_mean" = Some PNone /\
    d !! "length_stddev" = Some PNone /\
    d !! "scores_mean" = Some PNone /\
    d !! "scores_stddev" = Some PNone /\
    d !! "age_mean" = Some PNone /\
    d !! "age_stddev" = Some PNone /\
    d !! "def_frac_mean" = Some (PFloat 0%float) /\
    d !! "def_frac_stddev" = Some (PFloat 0%float) /\
    d !! "rule_frac_tfts" = Some (PFloat 0%float) /\
    d !! "rule_frac_t2ts" = Some (PFloat 0%float) /\
    d !! "rule_frac_ftfs" = Some (PFloat 0%float) /\
    d !! "rule_frac_alld" = Some (PFloat 0%float) /\
    d !! "rule_frac_allc" = Some (PFloat 0%float).
Proof.
  apply (get_stats_empty_population mean_example pstdev_example surface_empty).
  reflexivity.
Defined.

(** ** The plot: what the two loops build: lemmas *)

Lemma extend_nil (sr : Series) : extend sr [] = sr.
Proof. destruct sr. unfold extend. simpl. rewrite !app_nil_r. reflexivity. Qed.

Lemma extend_extend (sr : Series) (p q : list (Z * pyval)) :
  extend (extend sr p) q = extend sr (p ++ q).
Proof.
  unfold extend. simpl. rewrite !map_app, !app_assoc. reflexivity.
Qed.

Lemma lookup_extend_all (pts : string -> list (Z * pyval))
    (pd : gmap string Series) (k : string) :
  extend_all pts pd !! k = (fun sr => extend sr (pts k)) <$> pd !! k.
Proof.
  unfold extend_all. rewrite map_lookup_imap.
  destruct (pd !! k); reflexivity.
Qed.

Lemma dom_extend_all (pts : string -> list (Z * pyval)) (pd : gmap string Series) :
  dom (extend_all pts pd) = dom pd.
Proof.
  apply set_eq. intros k. rewrite !elem_of_dom, lookup_extend_all.
  destruct (pd !! k); simpl; split; intros [x Hx]; eauto; discriminate.
Qed.

Lemma add_points_spec (i : Z) (l : list (string * pyval)) (pd : gmap string Series) :
  NoDup (map fst l) ->
  (forall kv, kv ∈ l -> fst kv ∈ dom pd) ->
  add_points i l pd
  = ok (extend_all
          (fun k => match (list_to_map l : gmap string pyval) !! k with
                    | Some v => [(i, v)]
                    | None => []
                    end) pd).
Proof.
  revert pd. induction l as [| [k v] l IH]; intros pd Hnd Hin.
  - simpl. f_equal. apply map_eq. intros j.
    rewrite lookup_extend_all, lookup_empty.
    destruct (pd !! j); simpl; [rewrite extend_nil |]; reflexivity.
  - simpl in Hnd. apply NoDup_cons in Hnd as [Hk Hnd].
    assert (Hkd : k ∈ dom pd) by (apply (Hin (k, v)); constructor).
    apply elem_of_dom in Hkd as [sr Hsr].
    simpl. unfold add_point. simpl. rewrite Hsr. simpl.
    rewrite IH; [| exact Hnd |].
    + f_equal. apply map_eq. intros j. rewrite !lookup_extend_all.
      destruct (decide (j = k)) as [-> | Hjk].
      * rewrite lookup_insert_eq, Hsr. simpl.
        rewrite (not_elem_of_list_to_map_1 _ k) by exact Hk.
        rewrite lookup_insert_eq, extend_nil. reflexivity.
      * rewrite !lookup_insert_ne by congruence. reflexivity.
    + intros kv Hkv. rewrite dom_insert. apply elem_of_union_r.
      apply Hin. constructor. exact Hkv.
Qed.

Lemma add_points_items (i : Z) (d : gmap string pyval) (pd : gmap string Series) :
  dom d ⊆ dom pd ->
  add_points i (map_to_list d) pd
  = ok (extend_all (fun k => match d !! k with
                             | Some v => [(i, v)]
                             | None => []
                             end) pd).
Proof.
  intros Hsub. rewrite add_points_spec.
  - rewrite list_to_map_to_list. reflexivity.
  - apply NoDup_fst_map_to_list.
  - intros [k v] Hkv. apply elem_of_map_to_list in Hkv.
    apply Hsub, elem_of_dom. eauto.
Qed.

Lemma add_records_spec (i : Z) (data : list (gmap string pyval))
    (pd : gmap string Series) :
  (forall d, d ∈ data -> dom d ⊆ dom pd) ->
  add_records i data pd = ok (extend_all (points_of i data) pd).
Proof.
  revert i pd. induction data as [| d rest IH]; intros i pd Hsub.
  - simpl. f_equal. apply map_eq. intros j. rewrite lookup_extend_all.
    destruct (pd !! j); simpl; [rewrite extend_nil |]; reflexivity.
  - simpl. rewrite add_points_items by (apply Hsub; constructor). simpl.
    rewrite IH.
    + f_equal. apply map_eq. intros j. rewrite !lookup_extend_all.
      destruct (pd !! j) as [sr |]; simpl; [| reflexivity].
      rewrite extend_extend. destruct (d !! j); reflexivity.
    + intros d' Hd'. rewrite dom_extend_all. apply Hsub. constructor. exact Hd'.
Qed.

(** A key that [plot_data] lacks stops the loops with [KeyError]. *)
Lemma add_points_key_error (i : Z) (l : list (string * pyval))
    (pd : gmap string Series) (kv : string * pyval) :
  kv ∈ l -> fst kv ∉ dom pd -> add_points i l pd = inl KeyError.
Proof.
  revert pd. induction l as [| kv' l IH]; intros pd Hin Hk.
  - inversion Hin.
  - simpl. unfold add_point at 1.
    destruct (pd !! fst kv') as [sr |] eqn:Hsr; [| reflexivity]. simpl.
    apply elem_of_cons in Hin as [-> | Hin].
    + exfalso. apply Hk, elem_of_dom. eauto.
    + apply IH; [exact Hin |].
      rewrite dom_insert. intros [Hx | Hx]%elem_of_union; [| exact (Hk Hx)].
      apply elem_of_singleton in Hx. apply Hk. rewrite Hx.
      apply elem_of_dom. eauto.
Qed.

Lemma add_points_dom (i : Z) (l : list (string * pyval))
    (pd pd' : gmap string Series) :
  add_points i l pd = inr pd' -> dom pd' = dom pd.
Proof.
  revert pd. induction l as [| kv l IH]; intros pd.
  - simpl. intros [= ->]. reflexivity.
  - simpl. unfold add_point at 1.
    destruct (pd !! fst kv) as [sr |] eqn:Hsr; [| discriminate]. simpl.
    intros H. apply IH in H. rewrite H, dom_insert_L.
    apply elem_of_dom_2 in Hsr.
    apply subseteq_union_1_L, singleton_subseteq_l. exact Hsr.
Qed.

Lemma add_points_error (i : Z) (l : list (string * pyval))
    (pd : gmap string Series) (e : exn) :
  add_points i l pd = inl e -> e = KeyError.
Proof.
  revert pd. induction l as [| kv l IH]; intros pd.
  - discriminate.
  - simpl. unfold add_point at 1.
    destruct (pd !! fst kv) as [sr |]; simpl; [apply IH | congruence].
Qed.

Lemma add_records_key_error (i : Z) (data : list (gmap string pyval))
    (pd : gmap string Series) (d : gmap string pyval) (k : string) :
  d ∈ data -> k ∈ dom d -> k ∉ dom pd -> add_records i data pd = inl KeyError.
Proof.
  revert i pd. induction data as [| d' rest IH]; intros i pd Hin Hk Hpd.
  - inversion Hin.
  - simpl. destruct (add_points i (map_to_list d') pd) as [e | pd'] eqn:Hpts.
    + apply add_points_error in Hpts. subst e. reflexivity.
    + simpl. apply elem_of_cons in Hin as [-> | Hin].
      * apply elem_of_dom in Hk as [v Hv].
        rewrite (add_points_key_error i _ pd (k, v)) in Hpts; [discriminate | |].
        -- apply elem_of_map_to_list. exact Hv.
        -- exact Hpd.
      * apply IH; [exact Hin | exact Hk |].
        rewrite (add_points_dom _ _ _ _ Hpts). exact Hpd.
Qed.

Lemma init_fold_lookup (l : list (string * pyval)) (pd : gmap string Series)
    (k : string) :
  fold_left (fun pd kv => <[fst kv := new_series (fst kv)]> pd) l pd !! k
  = if decide (k ∈ map fst l) then Some (new_series k) else pd !! k.
Proof.
  revert pd. induction l as [| [k' v] l IH]; intros pd; [reflexivity |].
  simpl. rewrite IH.
  destruct (decide (k ∈ map fst l)) as [Hin | Hin].
  - rewrite decide_True by (apply elem_of_cons; auto). reflexivity.
  - destruct (decide (k = k')) as [-> | Hne].
    + rewrite decide_True by constructor. apply lookup_insert_eq.
    + rewrite decide_False.
      * apply lookup_insert_ne. congruence.
      * intros [? | ?]%elem_of_cons; contradiction.
Qed.

Lemma lookup_init_plot_data (first : gmap string pyval) (k : string) :
  init_plot_data first !! k = (fun _ => new_series k) <$> first !! k.
Proof.
  unfold init_plot_data. rewrite init_fold_lookup, lookup_empty.
  destruct (first !! k) as [v |] eqn:Hv; simpl.
  - apply decide_True. apply list_elem_of_fmap. exists (k, v). split; [reflexivity |].
    apply elem_of_map_to_list. exact Hv.
  - apply decide_False. intros Hin. apply list_elem_of_fmap in Hin as ([k' v] & -> & Hin).
    apply elem_of_map_to_list in Hin. simpl in Hv. congruence.
Qed.

Lemma dom_init_plot_data (first : gmap string pyval) :
  dom (init_plot_data first) = dom first.
Proof.
  apply set_eq. intros k. rewrite !elem_of_dom, lookup_init_plot_data.
  destruct (first !! k); simpl; split; intros [x Hx]; eauto; discriminate.
Qed.

Lemma traces_of_spec (pd : gmap string Series) (f : string -> Series)
    (keys : list string) :
  (forall k, k ∈ keys -> pd !! k = Some (f k)) ->
  traces_of pd keys = ok (map f keys).
Proof.
  induction keys as [| k keys IH]; intros H; [reflexivity |].
  simpl. rewrite (H k) by constructor.
  rewrite IH; [reflexivity |]. intros k' Hk'. apply H. constructor. exact Hk'.
Qed.

Lemma sorted_keys_Sorted (pd : gmap string Series) : Sorted str_le (sorted_keys pd).
Proof. apply (Sorted_merge_sort str_le). Qed.

Lemma sorted_keys_elem (pd : gmap string Series) (k : string) :
  k ∈ sorted_keys pd <-> k ∈ dom pd.
Proof.
  unfold sorted_keys. rewrite merge_sort_Permutation.
  rewrite elem_of_dom. split.
  - intros ([k' v] & -> & Hin)%list_elem_of_fmap.
    apply elem_of_map_to_list in Hin. eauto.
  - intros [v Hv]. apply list_elem_of_fmap. exists (k, v). split; [reflexivity |].
    apply elem_of_map_to_list. exact Hv.
Qed.

Lemma sorted_keys_NoDup (pd : gmap string Series) : NoDup (sorted_keys pd).
Proof.
  unfold sorted_keys. rewrite merge_sort_Permutation.
  apply NoDup_fst_map_to_list.
Qed.

Lemma points_of_same_keys (i : Z) (data : list (gmap string pyval)) (k : string) :
  (forall d, d ∈ data -> k ∈ dom d) ->
  map fst (points_of i data k) = seqZ i (Z.of_nat (length data)) /\
  map snd (points_of i data k) = column k data /\
  Forall2 (fun d v => d !! k = Some v) data (column k data).
Proof.
  revert i. induction data as [| d rest IH]; intros i Hk.
  - repeat split. constructor.
  - assert (Hd : k ∈ dom d) by (apply Hk; constructor).
    apply elem_of_dom in Hd as [v Hv].
    destruct (IH (i + 1)) as (Hx & Hy & Hall).
    { intros d' Hd'. apply Hk. constructor. exact Hd'. }
    unfold column in *. simpl. rewrite Hv. simpl. rewrite Hx, Hy.
    split; [| split].
    + rewrite (seqZ_cons i) by lia. f_equal. f_equal; lia.
    + reflexivity.
    + constructor; assumption.
Qed.

Lemma output_plot_cons (py_plot : Plot) (path : string)
    (first : gmap string pyval) (rest : list (gmap string pyval))
    (files : Charts) :
  output_plot py_plot path (first :: rest) files
  = match add_records 0 (first :: rest) (init_plot_data first) with
    | inl e => (inl e, files)
    | inr pd =>
        match traces_of pd (sorted_keys pd) with
        | inl e => (inl e, files)
        | inr to_plot => py_plot to_plot path files
        end
    end.
Proof. reflexivity. Qed.

(** The loops of [output_plot] on records that have only keys of the first:
    [py.plot] gets one trace per key of the first record, in sorted
    order. *)
Lemma output_plot_run (path : string) (first : gmap string pyval)
    (rest : list (gmap string pyval)) (files : Charts) :
  (forall d, d ∈ rest -> dom d ⊆ dom first) ->
  exists keys : list string,
    Sorted str_le keys /\ NoDup keys /\
    (forall k, k ∈ keys <-> k ∈ dom first) /\
    forall py_plot : Plot,
      output_plot py_plot path (first :: rest) files
      = py_plot (map (trace_of (first :: rest)) keys) path files.
Proof.
  intros Hsub.
  remember (first :: rest) as data eqn:Hdata.
  assert (Hdom : forall d, d ∈ data -> dom d ⊆ dom (init_plot_data first)).
  { intros d Hd. rewrite dom_init_plot_data. rewrite Hdata in Hd.
    apply elem_of_cons in Hd as [-> | Hd]; [reflexivity | auto]. }
  set (pd := extend_all (points_of 0 data) (init_plot_data first)).
  assert (Hpd : dom pd = dom first).
  { unfold pd. rewrite dom_extend_all. apply dom_init_plot_data. }
  exists (sorted_keys pd). split; [| split; [| split]].
  - apply sorted_keys_Sorted.
  - apply sorted_keys_NoDup.
  - intros k. rewrite sorted_keys_elem, Hpd. reflexivity.
  - intros py_plot. rewrite Hdata, output_plot_cons, <- Hdata.
    rewrite (add_records_spec 0 data _ Hdom). fold pd.
    rewrite (traces_of_spec pd (trace_of data)); [reflexivity |].
    intros k Hk. apply sorted_keys_elem in Hk. rewrite Hpd in Hk.
    apply elem_of_dom in Hk as [v Hv].
    unfold pd. rewrite lookup_extend_all, lookup_init_plot_data, Hv.
    reflexivity.
Qed.

Lemma keys_length (keys : list string) (X : gset string) :
  NoDup keys -> (forall k, k ∈ keys <-> k ∈ X) -> length keys = size X.
Proof.
  intros Hnd Hk. rewrite <- (size_list_to_set (C := gset string) keys Hnd).
  f_equal. apply set_eq. intros k. rewrite elem_of_list_to_set. apply Hk.
Qed.

Lemma keys_nonempty (keys : list string) (first : gmap string pyval) :
  (forall k, k ∈ keys <-> k ∈ dom first) -> first <> ∅ -> keys <> [].
Proof.
  intros Hk Hne ->. apply map_choose in Hne as (k & v & Hv).
  apply elem_of_dom_2, Hk in Hv. inversion Hv.
Qed.

Lemma plot_example_traces (to_plot : list Series) (path : string)
    (files : Charts) :
  to_plot <> [] ->
  plot_example to_plot path files
  = (inr tt, <[html_name path := to_plot]> files).
Proof. destruct to_plot; [congruence | reflexivity]. Qed.

Lemma trace_of_same_keys (data : list (gmap string pyval)) (k : string) :
  (forall d, d ∈ data -> k ∈ dom d) -> trace_of data k = series_of data k.
Proof.
  intros Hk. destruct (points_of_same_keys 0 data k Hk) as (Hx & Hy & _).
  unfold trace_of, extend, series_of, new_series.
  cbn [series_x series_y series_mode series_name app].
  rewrite Hx, Hy. reflexivity.
Qed.

Lemma rec_ab_1_nonempty : rec_ab_1 <> ∅.
Proof.
  intros E. assert (H : rec_ab_1 !! "a" = Some (PInt 1)) by (vm_compute; reflexivity).
  rewrite E, lookup_empty in H. discriminate.
Qed.

(** C6 as amended, for a sequence that has a first record: when every
    record has the key set of the first, [output_plot] builds one trace per
    key and hands them to [py.plot], with the path it was given, the keys
    in sorted order without repetition; the trace of a key has the
    x-values 0, 1, ..., len(data)-1 and at position i the value of the key
    in record i.  When the records have a key, plotly writes these traces
    as the chart, under the path with .html appended if it lacks it.  For
    the records {a:1, b:2} and {a:3, b:4} the chart holds the trace a with
    (0,1), (1,3), then b with (0,2), (1,4). *)
Theorem output_plot_same_keys (py_plot : Plot) (path : string)
    (first : gmap string pyval) (rest : list (gmap string pyval))
    (files : Charts) :
  (forall d, d ∈ rest -> dom d = dom first) ->
  exists keys : list string,
    Sorted str_le keys /\ NoDup keys /\
    (forall k, k ∈ keys <-> k ∈ dom first) /\
    output_plot py_plot path (first :: rest) files
    = py_plot (map (series_of (first :: rest)) keys) path files /\
    (forall k, k ∈ keys ->
       Forall2 (fun d v => d !! k = Some v) (first :: rest)
               (series_y (series_of (first :: rest) k))) /\
    (first <> ∅ ->
     output_plot plot_example path (first :: rest) files
     = (inr tt,
        <[html_name path := map (series_of (first :: rest)) keys]> files)) /\
    snd (output_plot plot_example "chart.html" [rec_ab_1; rec_ab_2] ∅)
      !! "chart.html"
    = Some [ {| series_x := [0; 1]; series_y := [PInt 1; PInt 3];
                series_mode := "lines+markers"; series_name := "a" |};
             {| series_x := [0; 1]; series_y := [PInt 2; PInt 4];
                series_mode := "lines+markers"; series_name := "b" |} ].
Proof.
  intros Hsame.
  destruct (output_plot_run path first rest files) as (keys & Hs & Hnd & Hk & Hrun).
  { intros d Hd. rewrite (Hsame d Hd). reflexivity. }
  assert (Hhas : forall k, k ∈ keys -> forall d, d ∈ first :: rest -> k ∈ dom d).
  { intros k Hin d Hd. apply Hk in Hin.
    apply elem_of_cons in Hd as [-> | Hd]; [exact Hin |].
    rewrite (Hsame d Hd). exact Hin. }
  assert (Hmap : map (trace_of (first :: rest)) keys
                 = map (series_of (first :: rest)) keys).
  { apply map_ext_in. intros k Hin. apply trace_of_same_keys, Hhas.
    apply list_elem_of_In, Hin. }
  exists keys. split; [exact Hs |]. split; [exact Hnd |]. split; [exact Hk |].
  split; [rewrite Hrun, Hmap; reflexivity |].
  split; [| split].
  - intros k Hin. apply (points_of_same_keys 0 (first :: rest) k), Hhas, Hin.
  - intros Hne. rewrite Hrun, Hmap. apply plot_example_traces.
    pose proof (keys_nonempty keys first Hk Hne) as Hkeys.
    destruct keys; [congruence | discriminate].
  - vm_compute. reflexivity.
Qed.

Lemma output_plot_same_keys_witness :
  exists keys : list string,
    Sorted str_le keys /\ NoDup keys /\
    (forall k, k ∈ keys <-> k ∈ dom rec_ab_1) /\
    output_plot plot_example "chart.html" [rec_ab_1; rec_ab_2] ∅
    = plot_example (map (series_of [rec_ab_1; rec_ab_2]) keys) "chart.html" ∅ /\
    (forall k, k ∈ keys ->
       Forall2 (fun d v => d !! k = Some v) [rec_ab_1; rec_ab_2]
               (series_y (series_of [rec_ab_1; rec_ab_2] k))) /\
    output_plot plot_example "chart.html" [rec_ab_1; rec_ab_2] ∅
    = (inr tt,
       <["chart.html" := map (series_of [rec_ab_1; rec_ab_2]) keys]> ∅) /\
    snd (output_plot plot_example "chart.html" [rec_ab_1; rec_ab_2] ∅)
      !! "chart.html"
    = Some [ {| series_x := [0; 1]; series_y := [PInt 1; PInt 3];
                series_mode := "lines+markers"; series_name := "a" |};
             {| series_x := [0; 1]; series_y := [PInt 2; PInt 4];
                series_mode := "lines+markers"; series_name := "b" |} ].
Proof.
  destruct (output_plot_same_keys plot_example "chart.html" rec_ab_1 [rec_ab_2] ∅)
    as (keys & Hs & Hnd & Hk & Hrun & Hval & Hwritten & Hchart).
  { intros d Hd. apply list_elem_of_singleton in Hd. subst d.
    apply (bool_decide_unpack _). vm_compute. exact I. }
  exists keys. split; [exact Hs |]. split; [exact Hnd |]. split; [exact Hk |].
  split; [exact Hrun |]. split; [exact Hval |].
  split; [exact (Hwritten rec_ab_1_nonempty) | exact Hchart].
Defined.

(** C6 as stated fails on the empty sequence, which has no first record:
    [data[0]] raises [IndexError], no trace is built and [py.plot] is not
    called, so no chart is written whatever plotly does. *)
Lemma output_plot_empty_sequence :
  (forall d, d ∈ ([] : list (gmap string pyval)) -> dom d = (∅ : gset string)) /\
  (forall py_plot : Plot,
     output_plot py_plot "chart.html" [] ∅ = (inl IndexError, ∅)) /\
  output_plot plot_example "chart.html" [] ∅ = (inl IndexError, ∅).
Proof.
  split; [| split; reflexivity]. intros d Hd. inversion Hd.
Qed.

(** C3 as amended: when some record after the first has a key that the
    first record lacks, [output_plot] raises [KeyError] before it calls
    [py.plot], and leaves the files as they were. *)
Theorem output_plot_extra_key (py_plot : Plot) (path : string)
    (first : gmap string pyval) (rest : list (gmap string pyval))
    (files : Charts) (d : gmap string pyval) (k : string) :
  d ∈ rest -> k ∈ dom d -> k ∉ dom first ->
  output_plot py_plot path (first :: rest) files = (inl KeyError, files).
Proof.
  intros Hd Hk Hfirst. unfold output_plot.
  rewrite (add_records_key_error 0 (first :: rest) _ d k); [reflexivity | | |].
  - apply elem_of_cons. right. exact Hd.
  - exact Hk.
  - rewrite dom_init_plot_data. exact Hfirst.
Qed.

Lemma output_plot_extra_key_witness :
  output_plot plot_example "chart.html" [rec_ab_1; rec_ac] ∅
  = (inl KeyError, ∅).
Proof.
  apply (output_plot_extra_key plot_example "chart.html" rec_ab_1 [rec_ac] ∅
           rec_ac "c").
  - constructor.
  - apply (bool_decide_unpack _). vm_compute. exact I.
  - apply (bool_decide_unpack _). vm_compute. exact I.
Defined.

(** C3 as stated fails: a later record whose key set differs from the
    first by lacking a key raises nothing in [output_plot], which calls
    [py.plot] on two traces, the one of the lacking key being one point
    short; plotly writes them as the chart. *)
Lemma output_plot_missing_key_counterexample :
  dom rec_a <> dom rec_ab_1 /\
  (forall (py_plot : Plot) (files : Charts),
     output_plot py_plot "chart.html" [rec_ab_1; rec_a] files
     = py_plot [ {| series_x := [0; 1]; series_y := [PInt 1; PInt 3];
                    series_mode := "lines+markers"; series_name := "a" |};
                 {| series_x := [0]; series_y := [PInt 2];
                    series_mode := "lines+markers"; series_name := "b" |} ]
               "chart.html" files) /\
  fst (output_plot plot_example "chart.html" [rec_ab_1; rec_a] ∅) = inr tt /\
  snd (output_plot plot_example "chart.html" [rec_ab_1; rec_a] ∅)
    !! "chart.html"
  = Some [ {| series_x := [0; 1]; series_y := [PInt 1; PInt 3];
              series_mode := "lines+markers"; series_name := "a" |};
           {| series_x := [0]; series_y := [PInt 2];
              series_mode := "lines+markers"; series_name := "b" |} ].
Proof.
  split; [| split; [| split]].
  - apply (bool_decide_unpack _). vm_compute. exact I.
  - intros py_plot files. rewrite output_plot_cons.
    destruct (add_records 0 [rec_ab_1; rec_a] (init_plot_data rec_ab_1))
      as [e | pd] eqn:Hrec; [vm_compute in Hrec; discriminate |].
    assert (Htr : traces_of pd (sorted_keys pd)
                  = inr [ {| series_x := [0; 1]; series_y := [PInt 1; PInt 3];
                             series_mode := "lines+markers";
                             series_name := "a" |};
                          {| series_x := [0]; series_y := [PInt 2];
                             series_mode := "lines+markers";
                             series_name := "b" |} ]).
    { assert (Hpd : inr pd
                    = add_records 0 [rec_ab_1; rec_a] (init_plot_data rec_ab_1))
        by (symmetry; exact Hrec).
      vm_compute in Hpd. injection Hpd as ->. vm_compute. reflexivity. }
    rewrite Htr. reflexivity.
  - vm_compute. reflexivity.
  - vm_compute. reflexivity.
Qed.

(** ** The initial moves: lemmas *)

Lemma second_choice_ok (c : Cell) :
  has_second_choice c ->
  second_choice c = ok (nth 1 (get_seq (get_gene c)) (str_object "")).
Proof.
  unfold has_second_choice, second_choice, get_choice_at. intros H.
  destruct (get_seq (get_gene c)) as [| a [| b l]]; simpl in *; try lia.
  reflexivity.
Qed.

Lemma second_choice_error (c : Cell) :
  ~ has_second_choice c -> second_choice c = inl IndexError.
Proof.
  unfold has_second_choice, second_choice, get_choice_at. intros H.
  destruct (get_seq (get_gene c)) as [| a [| b l]]; simpl in *;
    try reflexivity.
  exfalso. apply H. lia.
Qed.

Lemma has_second_choice_dec (c : Cell) :
  has_second_choice c \/ ~ has_second_choice c.
Proof. unfold has_second_choice. lia. Qed.

Lemma collect_second_choice_ok (cs : list Cell) :
  Forall has_second_choice cs ->
  collect second_choice cs
  = ok (map (fun c => nth 1 (get_seq (get_gene c)) (str_object "")) cs).
Proof.
  induction 1 as [| c cs Hc _ IH]; [reflexivity |].
  simpl. rewrite (second_choice_ok c Hc). simpl. rewrite IH. reflexivity.
Qed.

Lemma collect_second_choice_error (cs : list Cell) :
  Exists (fun c => ~ has_second_choice c) cs ->
  collect second_choice cs = inl IndexError.
Proof.
  induction 1 as [c cs Hc | c cs _ IH]; simpl.
  - rewrite (second_choice_error c Hc). reflexivity.
  - destruct (has_second_choice_dec c) as [Hc | Hc].
    + rewrite (second_choice_ok c Hc). simpl. rewrite IH. reflexivity.
    + rewrite (second_choice_error c Hc). reflexivity.
Qed.

Lemma init_move_stats_run (st : State) :
  cells (surface st) <> [] ->
  init_move_stats st
  = match collect second_choice (cells (surface st)) with
    | inl e => (inl e, st)
    | inr moves =>
        match float_of_int (count_defect moves) with
        | inl e => (inl e, st)
        | inr f =>
            match float_div_int f (Z.of_nat (length moves)) with
            | inl e => (inl e, st)
            | inr q =>
                (ok tt,
                 set_stats st
                   (<["init_move_frac" := PFloat (q * hundred)%float]> (stats st)))
            end
        end
    end.
Proof.
  intros Hne. unfold init_move_stats, bind, read_population, population.
  destruct (cells (surface st)) as [| c cs] eqn:Hcs; [congruence |].
  replace (negb (0 =? Z.of_nat (length (c :: cs)))) with true
    by (symmetry; apply negb_true_iff, Z.eqb_neq; simpl; lia).
  cbv beta iota.
  rewrite my_map_appending, Hcs.
  fold second_choice.
  destruct (collect second_choice (c :: cs)) as [e | moves]; [reflexivity |].
  simpl. unfold lift.
  destruct (float_of_int (count_defect moves)) as [e | f]; [reflexivity |].
  destruct (float_div_int f (Z.of_nat (length moves))) as [e | q]; reflexivity.
Qed.

Lemma float_of_int_error (z : Z) (e : exn) :
  float_of_int z = inl e -> e = OverflowError.
Proof.
  unfold float_of_int. destruct (PrimFloat.is_infinity _); congruence.
Qed.

Lemma float_div_int_error (f : float) (z : Z) (e : exn) :
  float_div_int f z = inl e -> e = OverflowError \/ e = ZeroDivisionError.
Proof.
  unfold float_div_int.
  destruct (float_of_int z) as [e' | g] eqn:Hz; simpl.
  - intros [= <-]. left. exact (float_of_int_error z e' Hz).
  - unfold float_truediv. destruct (PrimFloat.is_zero g); [| discriminate].
    intros [= <-]. right. reflexivity.
Qed.

(** C10: [init_move_stats] looks up index 1 of every gene without a guard.
    When some entity's gene has fewer than two choices the population is
    positive, the lookup raises [IndexError] and nothing is stored; when
    every gene has at least two choices [IndexError] is not what the pass
    returns. *)
Theorem init_move_stats_index_error (s : Surface) (d : gmap string pyval) :
  (Exists (fun c => ~ has_second_choice c) (cells s) ->
     0 < population s /\
     init_move_stats {| surface := s; stats := d |}
     = (inl IndexError, {| surface := s; stats := d |})) /\
  (Forall has_second_choice (cells s) ->
     fst (init_move_stats {| surface := s; stats := d |}) <> inl IndexError).
Proof.
  split.
  - intros Hex.
    assert (Hne : cells s <> []) by (intros E; rewrite E in Hex; inversion Hex).
    split.
    + unfold population. destruct (cells s); [congruence | simpl; lia].
    + rewrite init_move_stats_run by exact Hne. simpl.
      rewrite (collect_second_choice_error _ Hex). reflexivity.
  - intros Hall.
    destruct (cells s) as [| c cs] eqn:Hcs.
    + rewrite init_move_stats_empty by exact Hcs. discriminate.
    + rewrite init_move_stats_run by (simpl; congruence). simpl. rewrite Hcs.
      rewrite (collect_second_choice_ok _ Hall).
      destruct (float_of_int _) as [e | f] eqn:Hf.
      * apply float_of_int_error in Hf. subst e. discriminate.
      * destruct (float_div_int f _) as [e | q] eqn:Hq; [| discriminate].
        apply float_div_int_error in Hq as [-> | ->]; discriminate.
Qed.

Lemma init_move_stats_index_error_witness :
  (0 < population surface_short_gene /\
   init_move_stats {| surface := surface_short_gene; stats := ∅ |}
   = (inl IndexError, {| surface := surface_short_gene; stats := ∅ |})) /\
  fst (init_move_stats {| surface := surface_example; stats := ∅ |})
  <> inl IndexError.
Proof.
  split.
  - apply (proj1 (init_move_stats_index_error surface_short_gene ∅)).
    apply Exists_cons_tl, Exists_cons_hd.
    unfold has_second_choice. simpl. lia.
  - apply (proj2 (init_move_stats_index_error surface_example ∅)).
    unfold surface_example. simpl.
    repeat (constructor; [unfold has_second_choice; simpl; lia |]). constructor.
Defined.

(** ** Binary64 rounding *)

Lemma digits2_pos_size (p : positive) : digits2_pos p = Pos.size p.
Proof. induction p as [p IH | p IH |]; simpl; congruence. Qed.

Lemma Zdigits2_log2 (m : Z) : 0 < m -> Zdigits2 m = Z.log2 m + 1.
Proof.
  destruct m as [| p | p]; try lia. intros _.
  unfold Zdigits2. rewrite digits2_pos_size.
  destruct p as [p | p |]; simpl; lia.
Qed.

Lemma Zdigits2_nonneg (m : Z) : 0 <= m -> 0 <= Zdigits2 m.
Proof. destruct m; simpl; lia. Qed.

Lemma Zdigits2_lt_pow2 (m k : Z) : 0 <= m -> 0 <= k -> m < 2 ^ k -> Zdigits2 m <= k.
Proof.
  intros Hm Hk Hlt. destruct (Z.eq_dec m 0) as [-> | Hne]; [simpl; lia |].
  rewrite Zdigits2_log2 by lia.
  apply Z.log2_lt_pow2 in Hlt; lia.
Qed.

Lemma Zdigits2_bounds (m : Z) :
  0 < m -> 2 ^ (Zdigits2 m - 1) <= m < 2 ^ Zdigits2 m.
Proof.
  intros Hm. rewrite Zdigits2_log2 by lia.
  replace (Z.log2 m + 1 - 1) with (Z.log2 m) by lia.
  pose proof (Z.log2_spec m Hm). replace (Z.log2 m + 1) with (Z.succ (Z.log2 m)) by lia.
  lia.
Qed.

Lemma Zdigits2_mul_pow2 (m k : Z) :
  0 < m -> 0 <= k -> Zdigits2 (m * 2 ^ k) = Zdigits2 m + k.
Proof.
  intros Hm Hk.
  assert (0 < 2 ^ k) by (apply Z.pow_pos_nonneg; lia).
  rewrite !Zdigits2_log2 by nia.
  rewrite Z.log2_mul_pow2 by lia. lia.
Qed.

Lemma Zdigits2_le (m n : Z) : 0 <= m <= n -> Zdigits2 m <= Zdigits2 n.
Proof.
  intros [Hm Hmn]. destruct (Z.eq_dec m 0) as [-> | Hne].
  - simpl. apply Zdigits2_nonneg. lia.
  - rewrite !Zdigits2_log2 by lia.
    pose proof (Z.log2_le_mono m n Hmn). lia.
Qed.

Lemma rne_ge (a b : Z) : 0 < b -> a / b <= rne a b.
Proof.
  intros Hb. unfold rne, round_nearest_even, loc_of.
  destruct (a mod b =? 0); [lia |].
  destruct (2 * (a mod b) ?= b); try lia.
  destruct (Z.even (a / b)); lia.
Qed.

Lemma rne_le_succ (a b : Z) : rne a b <= a / b + 1.
Proof.
  unfold rne, round_nearest_even, loc_of.
  destruct (a mod b =? 0); [lia |].
  destruct (2 * (a mod b) ?= b); try lia.
  destruct (Z.even (a / b)); lia.
Qed.

Lemma rne_exact (a b : Z) : a mod b = 0 -> rne a b = a / b.
Proof.
  intros H. unfold rne, loc_of. rewrite H. reflexivity.
Qed.

Lemma rne_le_bound (a b M : Z) : 0 < b -> a <= b * M -> rne a b <= M.
Proof.
  intros Hb Hle.
  pose proof (Z.div_mod a b ltac:(lia)) as Hdm.
  pose proof (Z.mod_pos_bound a b Hb) as Hmod.
  destruct (Z.eq_dec (a mod b) 0) as [H0 | Hne].
  - rewrite rne_exact by exact H0. nia.
  - pose proof (rne_le_succ a b). nia.
Qed.

Lemma rne_mono (a a' b : Z) : 0 < b -> a <= a' -> rne a b <= rne a' b.
Proof.
  intros Hb Hle.
  pose proof (Z.div_le_mono a a' b Hb Hle) as Hq.
  destruct (Z.eq_dec (a / b) (a' / b)) as [Heq | Hne].
  - pose proof (Z.div_mod a b ltac:(lia)) as Hdm.
    pose proof (Z.div_mod a' b ltac:(lia)) as Hdm'.
    pose proof (Z.mod_pos_bound a b Hb) as Hmod.
    pose proof (Z.mod_pos_bound a' b Hb) as Hmod'.
    assert (Hr : a mod b <= a' mod b) by nia.
    unfold rne, round_nearest_even, loc_of. rewrite <- Heq.
    destruct (Z.eqb_spec (a mod b) 0) as [E | E];
      destruct (Z.eqb_spec (a' mod b) 0) as [E' | E'];
      destruct (Z.compare_spec (2 * (a mod b)) b);
      destruct (Z.compare_spec (2 * (a' mod b)) b);
      destruct (Z.even (a / b)); lia.
  - pose proof (rne_le_succ a b). pose proof (rne_ge a' b Hb). lia.
Qed.

Lemma shr_1_spec (m : Z) (r s : bool) :
  0 <= m ->
  shr_1 {| shr_m := m; shr_r := r; shr_s := s |}
  = {| shr_m := m / 2; shr_r := Z.odd m; shr_s := r || s |}.
Proof.
  intros Hm. rewrite <- Z.div2_div.
  destruct m as [| [p | p |] | p]; try lia; reflexivity.
Qed.

Lemma loc_step (a b : Z) :
  0 <= a -> 0 < b ->
  shr_1 (shr_record_of_loc (a / b) (loc_of a b))
  = shr_record_of_loc (a / (b * 2)) (loc_of a (b * 2)).
Proof.
  intros Ha Hb.
  assert (Hm : 0 <= a / b) by (apply Z.div_pos; lia).
  pose proof (Z.mod_pos_bound a b Hb) as Hr.
  unfold loc_of. rewrite Z.rem_mul_r by lia. rewrite <- Z.div_div by lia.
  rewrite Zmod_odd.
  set (r0 := a mod b) in *. set (m := a / b) in *.
  destruct (Z.odd m) eqn:Hodd; cbv iota;
    destruct (Z.eqb_spec r0 0) as [E | E];
    destruct (Z.compare_spec (2 * r0) b) as [C | C | C];
    try lia.
  all: try (destruct (Z.eqb_spec (r0 + b * 1) 0) as [E1 | E1];
            destruct (Z.compare_spec (2 * (r0 + b * 1)) (b * 2)) as [C1 | C1 | C1];
            try lia).
  all: try (destruct (Z.eqb_spec (r0 + b * 0) 0) as [E0 | E0];
            destruct (Z.compare_spec (2 * (r0 + b * 0)) (b * 2)) as [C0 | C0 | C0];
            try lia).
  all: cbn [shr_record_of_loc]; rewrite shr_1_spec by exact Hm;
    rewrite Hodd; reflexivity.
Qed.

Lemma iter_pos_shr (p : positive) (a b : Z) :
  0 <= a -> 0 < b ->
  SpecFloat.iter_pos shr_1 p (shr_record_of_loc (a / b) (loc_of a b))
  = shr_record_of_loc (a / (b * 2 ^ Z.pos p)) (loc_of a (b * 2 ^ Z.pos p)).
Proof.
  intros Ha. revert b.
  induction p as [p IH | p IH |]; intros b Hb; simpl SpecFloat.iter_pos.
  - assert (Hp : 0 < 2 ^ Z.pos p) by (apply Z.pow_pos_nonneg; lia).
    rewrite loc_step, IH, IH by nia.
    assert (Hpow : 2 ^ Z.pos p~1 = 2 * (2 ^ Z.pos p * 2 ^ Z.pos p)).
    { rewrite <- Z.pow_add_r, <- Z.pow_succ_r by lia. f_equal. lia. }
    rewrite Hpow. f_equal; f_equal; ring.
  - assert (Hp : 0 < 2 ^ Z.pos p) by (apply Z.pow_pos_nonneg; lia).
    rewrite IH, IH by nia.
    assert (Hpow : 2 ^ Z.pos p~0 = 2 ^ Z.pos p * 2 ^ Z.pos p).
    { rewrite <- Z.pow_add_r by lia. f_equal. lia. }
    rewrite Hpow. f_equal; f_equal; ring.
  - rewrite loc_step by assumption. reflexivity.
Qed.

Lemma shr_spec (a b e n : Z) :
  0 <= a -> 0 < b ->
  shr (shr_record_of_loc (a / b) (loc_of a b)) e n
  = (shr_record_of_loc (a / (b * 2 ^ Z.max n 0)) (loc_of a (b * 2 ^ Z.max n 0)),
     e + Z.max n 0).
Proof.
  intros Ha Hb. destruct n as [| p | p]; simpl shr.
  - rewrite Z.max_id. rewrite Z.pow_0_r.
    rewrite Z.mul_1_r, Z.add_0_r. reflexivity.
  - rewrite iter_pos_shr by assumption.
    rewrite Z.max_l by lia. reflexivity.
  - rewrite Z.max_r by lia. rewrite Z.pow_0_r.
    rewrite Z.mul_1_r, Z.add_0_r. reflexivity.
Qed.

Lemma shr_m_of_loc (m : Z) (l : location) : shr_m (shr_record_of_loc m l) = m.
Proof. destruct l as [| []]; reflexivity. Qed.

Lemma loc_of_shr_record_of_loc (m : Z) (l : location) :
  loc_of_shr_record (shr_record_of_loc m l) = l.
Proof. destruct l as [| []]; reflexivity. Qed.

Lemma loc_of_one (a : Z) : loc_of a 1 = loc_Exact.
Proof. unfold loc_of. rewrite Z.mod_1_r. reflexivity. Qed.

Lemma binary_round_aux_spec (sx : bool) (a b e : Z) :
  0 <= a -> 0 < b ->
  binary_round_aux prec emax sx (a / b) e (loc_of a b)
  = match rounded a b e / 2 ^ shift2 a b e with
    | 0 => S754_zero sx
    | Z.pos m =>
        if e + shift1 a b e + shift2 a b e <=? emax - prec
        then S754_finite sx m (e + shift1 a b e + shift2 a b e)
        else S754_infinity sx
    | Z.neg _ => S754_nan
    end.
Proof.
  intros Ha Hb.
  assert (H1 : 0 < b * 2 ^ shift1 a b e).
  { apply Z.mul_pos_pos; [lia |]. apply Z.pow_pos_nonneg; unfold shift1; lia. }
  assert (Hr : 0 <= rounded a b e).
  { unfold rounded. pose proof (rne_ge a _ H1).
    assert (0 <= a / (b * 2 ^ shift1 a b e)) by (apply Z.div_pos; lia). lia. }
  unfold binary_round_aux, shr_fexp.
  rewrite shr_spec by assumption. fold (shift1 a b e).
  rewrite shr_m_of_loc, loc_of_shr_record_of_loc.
  fold (rne a (b * 2 ^ shift1 a b e)). fold (rounded a b e).
  replace (shr_record_of_loc (rounded a b e) loc_Exact)
    with (shr_record_of_loc (rounded a b e / 1) (loc_of (rounded a b e) 1))
    by (rewrite Z.div_1_r, loc_of_one; reflexivity).
  rewrite shr_spec by lia. fold (shift2 a b e).
  rewrite shr_m_of_loc, Z.mul_1_l. reflexivity.
Qed.

Lemma fexp_eq (x : Z) : fexp prec emax x = Z.max (x - 53) (-1074).
Proof. reflexivity. Qed.

Lemma pow2_pos (k : Z) : 0 <= k -> 0 < 2 ^ k.
Proof. intros. apply Z.pow_pos_nonneg; lia. Qed.

Lemma pow2_split (x y : Z) : 0 <= x -> 0 <= y -> 2 ^ (x + y) = 2 ^ x * 2 ^ y.
Proof. intros. apply Z.pow_add_r; lia. Qed.

Lemma fexp_shift_le (m e Mb Eb : Z) :
  0 <= m -> 0 < Mb < 2 ^ 53 -> -1074 <= Eb -> e <= Eb ->
  m <= Mb * 2 ^ (Eb - e) ->
  e + Z.max (fexp prec emax (Zdigits2 m + e) - e) 0 <= Eb.
Proof.
  intros Hm HMb HEb He Hle.
  assert (Hd : Zdigits2 m <= 53 + (Eb - e)).
  { apply Zdigits2_lt_pow2; [lia | lia |].
    rewrite pow2_split by lia.
    pose proof (pow2_pos (Eb - e) ltac:(lia)). nia. }
  rewrite fexp_eq. lia.
Qed.

(** A quotient below a binary64 number rounds to at most that number. *)
Lemma binary_round_aux_le (a b e Mb Eb : Z) :
  0 <= a -> 0 < b ->
  0 < Mb < 2 ^ 53 -> -1074 <= Eb <= 971 -> e <= Eb ->
  a <= b * (Mb * 2 ^ (Eb - e)) ->
  binary_round_aux prec emax false (a / b) e (loc_of a b) = S754_zero false \/
  exists m2 e2,
    binary_round_aux prec emax false (a / b) e (loc_of a b)
    = S754_finite false m2 e2 /\
    e2 <= Eb /\ Z.pos m2 <= Mb * 2 ^ (Eb - e2).
Proof.
  intros Ha Hb HMb HEb He Hle.
  rewrite binary_round_aux_spec by assumption.
  set (n1 := shift1 a b e). set (mr := rounded a b e). set (n2 := shift2 a b e).
  assert (Hn1 : 0 <= n1) by (unfold n1, shift1; lia).
  assert (Hn2 : 0 <= n2) by (unfold n2, shift2; lia).
  assert (Hq : a / b <= Mb * 2 ^ (Eb - e)).
  { apply Z.div_le_upper_bound; lia. }
  assert (Hq0 : 0 <= a / b) by (apply Z.div_pos; lia).
  assert (He1 : e + n1 <= Eb).
  { unfold n1, shift1. apply (fexp_shift_le (a / b) e Mb Eb); lia. }
  assert (Hb1 : 0 < b * 2 ^ n1).
  { pose proof (pow2_pos n1 Hn1). nia. }
  assert (Hmr : mr <= Mb * 2 ^ (Eb - (e + n1))).
  { unfold mr, rounded. fold n1. apply rne_le_bound; [exact Hb1 |].
    replace (Eb - e) with (n1 + (Eb - (e + n1))) in Hle by lia.
    rewrite pow2_split in Hle by lia. nia. }
  assert (Hmr0 : 0 <= mr).
  { unfold mr, rounded. fold n1. pose proof (rne_ge a _ Hb1).
    assert (0 <= a / (b * 2 ^ n1)) by (apply Z.div_pos; lia). lia. }
  assert (He2 : e + n1 + n2 <= Eb).
  { unfold n2, shift2. fold n1. fold mr.
    apply (fexp_shift_le mr (e + n1) Mb Eb); lia. }
  assert (Hm2 : mr / 2 ^ n2 <= Mb * 2 ^ (Eb - (e + n1 + n2))).
  { apply Z.div_le_upper_bound; [apply pow2_pos; lia |].
    replace (Eb - (e + n1)) with (n2 + (Eb - (e + n1 + n2))) in Hmr by lia.
    rewrite pow2_split in Hmr by lia. nia. }
  assert (Hm20 : 0 <= mr / 2 ^ n2).
  { apply Z.div_pos; [lia | apply pow2_pos; lia]. }
  destruct (mr / 2 ^ n2) as [| m2 | m2] eqn:Hm2eq.
  - left. reflexivity.
  - right. exists m2, (e + n1 + n2).
    replace (e + n1 + n2 <=? emax - prec) with true
      by (symmetry; apply Z.leb_le; change (emax - prec) with 971; lia).
    repeat split; assumption.
  - lia.
Qed.

Lemma new_location_spec (nb k : Z) :
  0 < nb -> 0 <= k < nb ->
  new_location nb k
  = if k =? 0 then loc_Exact else loc_Inexact (2 * k ?= nb).
Proof.
  intros Hnb Hk. unfold new_location, new_location_even, new_location_odd.
  destruct (Z.even nb) eqn:Hev; [reflexivity |].
  destruct (k =? 0); [reflexivity |]. f_equal.
  assert (Hodd : Z.odd nb = true) by (rewrite <- Z.negb_even, Hev; reflexivity).
  apply Z.odd_spec in Hodd as [c Hc].
  destruct (Z.compare_spec (2 * k + 1) nb);
    destruct (Z.compare_spec (2 * k) nb); try lia; reflexivity.
Qed.

Lemma SFdiv_core_binary_spec (mx my : positive) (ex ey : Z) :
  let e' := Z.min (fexp prec emax (Zdigits2 (Z.pos mx) + ex
                                   - (Zdigits2 (Z.pos my) + ey))) (ex - ey) in
  let a := Z.pos mx * 2 ^ (ex - ey - e') in
  SFdiv_core_binary prec emax (Z.pos mx) ex (Z.pos my) ey
  = (a / Z.pos my, e', loc_of a (Z.pos my)).
Proof.
  intros e' a. unfold SFdiv_core_binary. fold e'.
  assert (Hs : 0 <= ex - ey - e') by (unfold e'; lia).
  assert (Hm' : match ex - ey - e' with
                | 0 => Z.pos mx
                | Z.pos _ => Z.shiftl (Z.pos mx) (ex - ey - e')
                | Z.neg _ => 0
                end = a).
  { unfold a. destruct (ex - ey - e') as [| s | s] eqn:Es.
    - simpl. lia.
    - rewrite Z.shiftl_mul_pow2 by lia. reflexivity.
    - lia. }
  rewrite Hm'.
  assert (Ha : 0 <= a).
  { unfold a. pose proof (pow2_pos _ Hs). nia. }
  pose proof (Z.mod_pos_bound a (Z.pos my) ltac:(lia)) as Hmod.
  unfold loc_of. rewrite <- new_location_spec by lia.
  unfold Z.div, Z.modulo. destruct (Z.div_eucl a (Z.pos my)). reflexivity.
Qed.

(** [x / y] for two positive binary64 numbers with [x <= y], both given
    with their exponents above [-K], is at most 1. *)
Lemma SFdiv_le_one (mx my : positive) (ex ey K : Z) :
  0 <= ex + K -> 0 <= ey + K ->
  Z.pos mx * 2 ^ (ex + K) <= Z.pos my * 2 ^ (ey + K) ->
  SFdiv prec emax (S754_finite false mx ex) (S754_finite false my ey)
  = S754_zero false \/
  exists m e,
    SFdiv prec emax (S754_finite false mx ex) (S754_finite false my ey)
    = S754_finite false m e /\
    e <= -52 /\ Z.pos m <= 2 ^ (- e).
Proof.
  intros Hex Hey Hle. unfold SFdiv.
  rewrite SFdiv_core_binary_spec.
  set (e' := Z.min _ _). set (a := Z.pos mx * 2 ^ (ex - ey - e')).
  simpl xorb.
  assert (Hd : Zdigits2 (Z.pos mx) + ex <= Zdigits2 (Z.pos my) + ey).
  { pose proof (pow2_pos _ Hex). pose proof (pow2_pos _ Hey).
    assert (Hl : Z.log2 (Z.pos mx * 2 ^ (ex + K))
                 <= Z.log2 (Z.pos my * 2 ^ (ey + K)))
      by (apply Z.log2_le_mono; exact Hle).
    rewrite !Z.log2_mul_pow2 in Hl by lia.
    rewrite !Zdigits2_log2 by lia. lia. }
  assert (He' : e' <= -53).
  { unfold e'. rewrite fexp_eq. lia. }
  assert (Hs : 0 <= ex - ey - e') by (unfold e'; lia).
  assert (Ha : 0 <= a).
  { unfold a. pose proof (pow2_pos _ Hs). nia. }
  assert (Hab : a <= Z.pos my * 2 ^ (- e')).
  { unfold a.
    pose proof (pow2_pos (- e') ltac:(lia)) as Hp.
    pose proof (pow2_pos _ Hey) as Hpy.
    assert (H1 : Z.pos mx * 2 ^ (ex + K) * 2 ^ (- e')
                 <= Z.pos my * 2 ^ (ey + K) * 2 ^ (- e')) by nia.
    replace (Z.pos mx * 2 ^ (ex + K) * 2 ^ (- e'))
      with (Z.pos mx * 2 ^ (ex - ey - e') * 2 ^ (ey + K)) in H1.
    - nia.
    - rewrite <- !Z.mul_assoc, <- !pow2_split by lia. do 2 f_equal. lia. }
  destruct (binary_round_aux_le a (Z.pos my) e' (2 ^ 52) (-52))
    as [Hz | (m & e & Hr & He & Hm)]; try lia.
  - rewrite <- pow2_split by lia.
    replace (52 + (-52 - e')) with (- e') by lia. exact Hab.
  - left. exact Hz.
  - right. exists m, e. split; [exact Hr |]. split; [exact He |].
    rewrite <- pow2_split in Hm by lia.
    replace (52 + (-52 - e)) with (- e) in Hm by lia. exact Hm.
Qed.

(** A binary64 number at most 1 times a binary64 number [c] is at most [c]. *)
Lemma SFmul_le (mq mc : positive) (eq ec : Z) :
  Z.pos mc < 2 ^ 53 -> -1074 <= ec <= 971 ->
  eq <= 0 -> Z.pos mq <= 2 ^ (- eq) ->
  SFmul prec emax (S754_finite false mq eq) (S754_finite false mc ec)
  = S754_zero false \/
  exists m e,
    SFmul prec emax (S754_finite false mq eq) (S754_finite false mc ec)
    = S754_finite false m e /\
    e <= ec /\ Z.pos m <= Z.pos mc * 2 ^ (ec - e).
Proof.
  intros Hmc Hec Heq Hmq. unfold SFmul. simpl xorb.
  replace (binary_round_aux prec emax false (Z.pos (mq * mc)) (eq + ec) loc_Exact)
    with (binary_round_aux prec emax false (Z.pos (mq * mc) / 1) (eq + ec)
            (loc_of (Z.pos (mq * mc)) 1))
    by (rewrite Z.div_1_r, loc_of_one; reflexivity).
  apply binary_round_aux_le; try lia.
  replace (ec - (eq + ec)) with (- eq) by lia.
  rewrite Pos2Z.inj_mul. nia.
Qed.

Lemma SFleb_finite (m Mb : positive) (e Eb : Z) :
  e <= Eb -> Z.pos m <= Z.pos Mb * 2 ^ (Eb - e) ->
  SFleb (S754_finite false m e) (S754_finite false Mb Eb) = true.
Proof.
  intros He Hm. unfold SFleb, SFcompare.
  destruct (Z.compare_spec e Eb) as [E | E | E].
  - subst Eb. rewrite Z.sub_diag, Z.pow_0_r, Z.mul_1_r in Hm.
    change (Pos.compare_cont Eq m Mb) with (m ?= Mb)%positive.
    destruct (Pos.compare_spec m Mb); try reflexivity. lia.
  - reflexivity.
  - lia.
Qed.

(** ** Integers to binary64 *)

Lemma iter_xO_pow2 (p d : positive) :
  Z.pos (Pos.iter xO p d) = Z.pos p * 2 ^ Z.pos d.
Proof.
  induction d as [| d IH] using Pos.peano_ind.
  - simpl. lia.
  - rewrite Pos.iter_succ, Pos2Z.inj_xO, IH, Pos2Z.inj_succ, Z.pow_succ_r by lia.
    ring.
Qed.

Lemma binary_round_aux_canonical (a e : Z) :
  0 < a -> Zdigits2 a = 53 -> -1074 <= e <= 971 ->
  binary_round_aux prec emax false a e loc_Exact
  = S754_finite false (Z.to_pos a) e.
Proof.
  intros Ha Hd He.
  replace (binary_round_aux prec emax false a e loc_Exact)
    with (binary_round_aux prec emax false (a / 1) e (loc_of a 1))
    by (rewrite Z.div_1_r, loc_of_one; reflexivity).
  rewrite binary_round_aux_spec by lia.
  assert (H1 : shift1 a 1 e = 0).
  { unfold shift1. rewrite Z.div_1_r, Hd, fexp_eq. lia. }
  assert (Hr : rounded a 1 e = a).
  { unfold rounded. rewrite H1. rewrite Z.pow_0_r, Z.mul_1_l.
    rewrite rne_exact by apply Z.mod_1_r. apply Z.div_1_r. }
  assert (H2 : shift2 a 1 e = 0).
  { unfold shift2. rewrite Hr, H1, Hd, fexp_eq. lia. }
  rewrite Hr, H1, H2. rewrite Z.pow_0_r. rewrite Z.div_1_r, !Z.add_0_r.
  destruct a as [| p | p]; try lia.
  replace (e <=? emax - prec) with true
    by (symmetry; apply Z.leb_le; change (emax - prec) with 971; lia).
  reflexivity.
Qed.

Lemma binary_normalize_int (z : Z) :
  0 < z < 2 ^ 63 ->
  exists m e,
    binary_normalize prec emax z 0 false = S754_finite false m e /\
    -52 <= e <= 11 /\
    Z.pos m * 2 ^ (e + 52)
    = rne z (2 ^ round_exp z) * 2 ^ (round_exp z + 52).
Proof.
  intros [Hz Hz63].
  destruct z as [| p | p]; try lia.
  unfold binary_normalize, binary_round, shl_align.
  change (Z.pos (digits2_pos p)) with (Zdigits2 (Z.pos p)).
  pose proof (Zdigits2_bounds (Z.pos p) Hz) as Hdb.
  assert (Hd63 : Zdigits2 (Z.pos p) <= 63)
    by (apply Zdigits2_lt_pow2; lia).
  assert (Hd1 : 1 <= Zdigits2 (Z.pos p)) by (simpl; lia).
  set (d := Zdigits2 (Z.pos p)) in *.
  replace (fexp prec emax (d + 0)) with (d - 53) by (rewrite fexp_eq; lia).
  unfold round_exp. fold d.
  destruct (Z_le_gt_dec d 53) as [Hle | Hgt].
  - (* no rounding: the integer is shifted left to 53 digits *)
    rewrite (Z.max_r (d - 53) 0) by lia. rewrite Z.pow_0_r.
    rewrite (rne_exact (Z.pos p) 1) by apply Z.mod_1_r. rewrite Z.div_1_r.
    destruct (d - 53 - 0) as [| q | q] eqn:Hq; try lia.
    + rewrite binary_round_aux_canonical by (fold d; lia).
      exists p, 0. repeat split; try lia.
    + rewrite binary_round_aux_canonical.
      * exists (Pos.iter xO p q), (d - 53). simpl Z.to_pos.
        repeat split; try lia.
        rewrite iter_xO_pow2, <- Z.mul_assoc, <- pow2_split by lia.
        do 2 f_equal. lia.
      * lia.
      * rewrite iter_xO_pow2, Zdigits2_mul_pow2 by lia. fold d. lia.
      * lia.
  - (* rounding at exponent d - 53 *)
    rewrite (Z.max_l (d - 53) 0) by lia.
    destruct (d - 53 - 0) as [| q | q] eqn:Hq; try lia.
    set (t := d - 53) in *.
    replace (binary_round_aux prec emax false (Z.pos p) 0 loc_Exact)
      with (binary_round_aux prec emax false (Z.pos p / 1) 0 (loc_of (Z.pos p) 1))
      by (rewrite Z.div_1_r, loc_of_one; reflexivity).
    rewrite binary_round_aux_spec by lia.
    assert (H1 : shift1 (Z.pos p) 1 0 = t).
    { unfold shift1. rewrite Z.div_1_r. fold d. rewrite fexp_eq. lia. }
    assert (Hpt : 0 < 2 ^ t) by (apply pow2_pos; lia).
    assert (Hr : rounded (Z.pos p) 1 0 = rne (Z.pos p) (2 ^ t)).
    { unfold rounded. rewrite H1, Z.mul_1_l. reflexivity. }
    set (mr := rne (Z.pos p) (2 ^ t)) in *.
    assert (Hq52 : 2 ^ 52 <= Z.pos p / 2 ^ t).
    { apply Z.div_le_lower_bound; [exact Hpt |].
      rewrite <- pow2_split by lia.
      replace (t + 52) with (d - 1) by lia. lia. }
    assert (Hq53 : Z.pos p / 2 ^ t < 2 ^ 53).
    { apply Z.div_lt_upper_bound; [exact Hpt |].
      rewrite <- pow2_split by lia.
      replace (t + 53) with d by lia. lia. }
    assert (Hmr : 2 ^ 52 <= mr <= 2 ^ 53).
    { unfold mr. pose proof (rne_ge (Z.pos p) (2 ^ t) Hpt).
      pose proof (rne_le_succ (Z.pos p) (2 ^ t)). lia. }
    assert (Hdm : Zdigits2 mr = 53 /\ mr < 2 ^ 53 \/ Zdigits2 mr = 54 /\ mr = 2 ^ 53).
    { destruct (Z.eq_dec mr (2 ^ 53)) as [E | E].
      - right. rewrite E. split; reflexivity.
      - left. split; [| lia].
        assert (Zdigits2 mr <= 53) by (apply Zdigits2_lt_pow2; lia).
        assert (Zdigits2 (2 ^ 52) <= Zdigits2 mr) by (apply Zdigits2_le; lia).
        change (Zdigits2 (2 ^ 52)) with 53 in *. lia. }
    rewrite Hr, H1.
    destruct Hdm as [[Hd53 Hlt] | [Hd54 Heq]].
    + assert (H2 : shift2 (Z.pos p) 1 0 = 0).
      { unfold shift2. rewrite Hr, H1, Hd53, fexp_eq. lia. }
      rewrite H2. rewrite Z.pow_0_r. rewrite Z.div_1_r, !Z.add_0_r, Z.add_0_l.
      destruct mr as [| m | m] eqn:Em; try lia.
      replace (t <=? emax - prec) with true
        by (symmetry; apply Z.leb_le; change (emax - prec) with 971; lia).
      exists m, t. repeat split; lia.
    + assert (H2 : shift2 (Z.pos p) 1 0 = 1).
      { unfold shift2. rewrite Hr, H1, Hd54, fexp_eq. lia. }
      rewrite H2, Heq. change (2 ^ 53 / 2 ^ 1) with (Z.pos (Z.to_pos (2 ^ 52))).
      cbv iota.
      replace (0 + t + 1 <=? emax - prec) with true
        by (symmetry; apply Z.leb_le; change (emax - prec) with 971; lia).
      exists (Z.to_pos (2 ^ 52)), (0 + t + 1). repeat split; try lia.
      change (Z.pos (Z.to_pos (2 ^ 52))) with (2 ^ 52).
      replace (0 + t + 1 + 52) with (1 + (t + 52)) by lia.
      rewrite (pow2_split 1) by lia. change (2 ^ 53) with (2 ^ 52 * 2 ^ 1). ring.
Qed.

Lemma int_value_mono (k n : Z) :
  0 < k <= n ->
  rne k (2 ^ round_exp k) * 2 ^ (round_exp k + 52)
  <= rne n (2 ^ round_exp n) * 2 ^ (round_exp n + 52).
Proof.
  intros [Hk Hkn].
  pose proof (Zdigits2_le k n ltac:(lia)) as Hd.
  pose proof (Zdigits2_bounds k Hk) as Hbk.
  pose proof (Zdigits2_bounds n ltac:(lia)) as Hbn.
  assert (Hdk : 1 <= Zdigits2 k) by (destruct k; simpl; lia).
  unfold round_exp.
  set (dk := Zdigits2 k) in *. set (dn := Zdigits2 n) in *.
  set (tk := Z.max (dk - 53) 0). set (tn := Z.max (dn - 53) 0).
  assert (Htk : 0 <= tk) by (unfold tk; lia).
  assert (Htn : 0 <= tn) by (unfold tn; lia).
  pose proof (pow2_pos tk Htk) as Hpk. pose proof (pow2_pos tn Htn) as Hpn.
  destruct (Z.eq_dec tk tn) as [E | E].
  - rewrite E.
    pose proof (rne_mono k n (2 ^ tn) Hpn Hkn).
    pose proof (pow2_pos (tn + 52) ltac:(lia)). nia.
  - assert (Hlt : dk < dn /\ tn = dn - 53 /\ 0 < tn) by (unfold tk, tn in *; lia).
    destruct Hlt as (Hlt & Etn & Htn0).
    assert (Hup : rne k (2 ^ tk) <= 2 ^ (dk - tk)).
    { apply rne_le_bound; [exact Hpk |].
      rewrite <- pow2_split by (unfold tk; lia).
      replace (tk + (dk - tk)) with dk by lia. lia. }
    assert (Hlow : 2 ^ 52 <= rne n (2 ^ tn)).
    { pose proof (rne_ge n (2 ^ tn) Hpn).
      assert (2 ^ 52 <= n / 2 ^ tn); [| lia].
      apply Z.div_le_lower_bound; [exact Hpn |].
      rewrite <- pow2_split by lia.
      replace (tn + 52) with (dn - 1) by lia. lia. }
    apply Z.le_trans with (2 ^ (dk + 52)).
    + replace (dk + 52) with ((dk - tk) + (tk + 52)) by lia.
      rewrite (pow2_split (dk - tk)) by (unfold tk; lia).
      pose proof (pow2_pos (tk + 52) ltac:(lia)). nia.
    + apply Z.le_trans with (2 ^ 52 * 2 ^ (tn + 52)).
      * rewrite <- pow2_split by lia. apply Z.pow_le_mono_r; lia.
      * pose proof (pow2_pos (tn + 52) ltac:(lia)). nia.
Qed.

(** ** The primitive operations *)

Lemma Prim2SF_float_of_Z (z : Z) :
  0 <= z < 2 ^ 63 ->
  Prim2SF (float_of_Z z) = binary_normalize prec emax z 0 false.
Proof.
  intros Hz. unfold float_of_Z.
  pose proof (FloatAxioms.of_uint63_spec (Uint63.of_Z z)) as H.
  rewrite Uint63.of_Z_spec, Z.mod_small in H by (change wB with (2 ^ 63); lia).
  rewrite <- H, SF2Prim_Prim2SF. reflexivity.
Qed.

Lemma Prim2SF_float_of_Z_pos (z : Z) :
  0 < z < 2 ^ 63 ->
  exists m e,
    Prim2SF (float_of_Z z) = S754_finite false m e /\
    -52 <= e <= 11 /\
    Z.pos m * 2 ^ (e + 52)
    = rne z (2 ^ round_exp z) * 2 ^ (round_exp z + 52).
Proof.
  intros Hz. rewrite Prim2SF_float_of_Z by lia.
  apply binary_normalize_int. exact Hz.
Qed.

Lemma Prim2SF_hundred :
  Prim2SF hundred = S754_finite false 7036874417766400 (-46).
Proof. vm_compute. reflexivity. Qed.

Lemma is_infinity_finite (f : float) (s : bool) (m : positive) (e : Z) :
  Prim2SF f = S754_finite s m e -> PrimFloat.is_infinity f = false.
Proof.
  intros H. unfold PrimFloat.is_infinity.
  rewrite FloatAxioms.eqb_spec, FloatAxioms.abs_spec, H. reflexivity.
Qed.

Lemma is_zero_finite (f : float) (s : bool) (m : positive) (e : Z) :
  Prim2SF f = S754_finite s m e -> PrimFloat.is_zero f = false.
Proof.
  intros H. unfold PrimFloat.is_zero.
  rewrite FloatAxioms.eqb_spec, H. destruct s; reflexivity.
Qed.

(** [float(k) / float(n) * 100.0] lies between 0.0 and 100.0 when
    [0 <= k <= n] and [n] is a positive container size. *)
Lemma percentage_range (k n : Z) :
  0 <= k <= n -> 0 < n < 2 ^ 63 ->
  (0 <=? float_of_Z k / float_of_Z n * hundred)%float = true /\
  (float_of_Z k / float_of_Z n * hundred <=? hundred)%float = true.
Proof.
  intros Hk Hn.
  destruct (Prim2SF_float_of_Z_pos n Hn) as (mn & en & Hfn & Hen & Hvn).
  rewrite !FloatAxioms.leb_spec, FloatAxioms.mul_spec, FloatAxioms.div_spec, Hfn,
    Prim2SF_hundred.
  unfold SF64mul, SF64div.
  destruct (Z.eq_dec k 0) as [-> | Hk0].
  - change (Prim2SF (float_of_Z 0)) with (S754_zero false).
    split; reflexivity.
  - destruct (Prim2SF_float_of_Z_pos k ltac:(lia)) as (mk & ek & Hfk & Hek & Hvk).
    rewrite Hfk.
    pose proof (int_value_mono k n ltac:(lia)) as Hmono.
    rewrite <- Hvk, <- Hvn in Hmono.
    destruct (SFdiv_le_one mk mn ek en 52) as [Hq | (mq & eq & Hq & Heq & Hmq)];
      try lia; rewrite Hq.
    + split; reflexivity.
    + destruct (SFmul_le mq 7036874417766400 eq (-46))
        as [Hr | (m & e & Hr & He & Hm)]; try lia; rewrite Hr.
      * split; reflexivity.
      * split; [reflexivity |]. apply SFleb_finite; assumption.
Qed.

Lemma sys_maxsize_eq : sys_maxsize = 2 ^ 63 - 1.
Proof. reflexivity. Qed.

Lemma float_of_int_ok (z : Z) :
  0 <= z <= sys_maxsize -> float_of_int z = inr (float_of_Z z).
Proof.
  rewrite sys_maxsize_eq. intros Hz. unfold float_of_int.
  destruct (Z.eq_dec z 0) as [-> | Hz0]; [reflexivity |].
  destruct (Prim2SF_float_of_Z_pos z ltac:(lia)) as (m & e & Hf & _).
  rewrite (is_infinity_finite _ _ _ _ Hf). reflexivity.
Qed.

Lemma float_div_int_ok (f : float) (n : Z) :
  0 < n <= sys_maxsize ->
  float_div_int f n = inr (f / float_of_Z n)%float.
Proof.
  intros Hn. unfold float_div_int. rewrite float_of_int_ok by lia.
  simpl. unfold float_truediv.
  rewrite sys_maxsize_eq in Hn.
  destruct (Prim2SF_float_of_Z_pos n ltac:(lia)) as (m & e & Hf & _).
  rewrite (is_zero_finite _ _ _ _ Hf). reflexivity.
Qed.

Lemma float_truediv_ok (f : float) (n : Z) :
  0 < n <= sys_maxsize ->
  float_truediv f (float_of_Z n) = inr (f / float_of_Z n)%float.
Proof.
  intros Hn. unfold float_truediv. rewrite sys_maxsize_eq in Hn.
  destruct (Prim2SF_float_of_Z_pos n ltac:(lia)) as (m & e & Hf & _).
  rewrite (is_zero_finite _ _ _ _ Hf). reflexivity.
Qed.

(** ** The fraction of defecting second choices: lemmas *)

Lemma count_defect_acc (moves : list pystr) (acc : Z) :
  fold_left (fun n move => if is_literal_d move then n + 1 else n) moves acc
  = acc + Z.of_nat (length (List.filter is_literal_d moves)).
Proof.
  revert acc. induction moves as [| mv moves IH]; intros acc.
  - simpl. lia.
  - cbn [fold_left List.filter]. rewrite IH.
    destruct (is_literal_d mv); cbn [length]; lia.
Qed.

Lemma count_defect_cells (cs : list Cell) :
  count_defect (map (fun c => nth 1 (get_seq (get_gene c)) (str_object "")) cs)
  = Z.of_nat (length (List.filter defects_second cs)).
Proof.
  unfold count_defect. rewrite count_defect_acc, Z.add_0_l. f_equal.
  induction cs as [| c cs IH]; [reflexivity |].
  cbn [map List.filter]. unfold defects_second at 1.
  destruct (is_literal_d (nth 1 (get_seq (get_gene c)) (str_object "")));
    cbn [length]; lia.
Qed.

Lemma defect_count_range (s : Surface) : 0 <= defect_count s <= population s.
Proof.
  unfold defect_count, population.
  pose proof (List.filter_length_le defects_second (cells s)). lia.
Qed.

Lemma nth_1_tl {A} (l : list A) (x : A) : nth 1 l x = nth 0 (tl l) x.
Proof. destruct l as [| a [| b l]]; reflexivity. Qed.

Lemma defects_second_tl (c : Cell) :
  defects_second c
  = is_literal_d (nth 0 (tl (get_seq (get_gene c))) (str_object "")).
Proof. unfold defects_second. rewrite nth_1_tl. reflexivity. Qed.

Lemma has_second_choice_tl (c : Cell) :
  has_second_choice c <-> (1 <= length (tl (get_seq (get_gene c))))%nat.
Proof.
  unfold has_second_choice. destruct (get_seq (get_gene c)); simpl; lia.
Qed.

Lemma same_after_first_facts (s s' : Surface) :
  same_after_first s s' ->
  population s' = population s /\
  defect_count s' = defect_count s /\
  (Forall has_second_choice (cells s) -> Forall has_second_choice (cells s')).
Proof.
  unfold same_after_first, population, defect_count.
  induction 1 as [| c c' cs cs' Hc _ IH]; [repeat split; auto |].
  destruct IH as (Hp & Hd & Hf). split; [| split].
  - cbn [length]. lia.
  - cbn [List.filter].
    rewrite (defects_second_tl c), (defects_second_tl c'), Hc.
    destruct (is_literal_d (nth 0 (tl (get_seq (get_gene c'))) (str_object "")));
      cbn [length]; lia.
  - intros Hall. apply Forall_cons in Hall as [Hc1 Hall]. constructor.
    + apply has_second_choice_tl. rewrite <- Hc. apply has_second_choice_tl, Hc1.
    + apply Hf, Hall.
Qed.

Lemma init_move_stats_value (s : Surface) (d : gmap string pyval) :
  0 < population s <= sys_maxsize ->
  Forall has_second_choice (cells s) ->
  init_move_stats {| surface := s; stats := d |}
  = (inr tt,
     {| surface := s;
        stats := <["init_move_frac" :=
                    PFloat (float_of_Z (defect_count s)
                            / float_of_Z (population s) * hundred)%float]> d |}).
Proof.
  intros Hpop Hall.
  assert (Hne : cells s <> []).
  { intros E. unfold population in Hpop. rewrite E in Hpop. simpl in Hpop. lia. }
  rewrite init_move_stats_run by exact Hne. simpl surface.
  rewrite (collect_second_choice_ok _ Hall).
  rewrite count_defect_cells. fold (defect_count s).
  pose proof (defect_count_range s) as Hdc.
  rewrite float_of_int_ok by lia.
  rewrite length_map. fold (population s).
  rewrite float_div_int_ok by lia. reflexivity.
Qed.

(** X16: on a surface with a positive population (a container size, so at
    most [sys.maxsize]) whose genes all have a choice at index 1,
    [init_move_stats] stores under [init_move_frac] the float
    [float(k) / N * 100.0], [k] being the number of entities whose choice at
    index 1 is the object of the literal 'd' (the test is [is]) and [N] the
    population; that float lies between 0.0 and 100.0; and the choices at
    index 0 play no part: a surface whose genes agree with these from
    index 1 on gets the same value. *)
Theorem init_move_frac_value (s : Surface) (d : gmap string pyval) :
  0 < population s <= sys_maxsize ->
  Forall has_second_choice (cells s) ->
  init_move_stats {| surface := s; stats := d |}
  = (inr tt,
     {| surface := s;
        stats := <["init_move_frac" :=
                    PFloat (float_of_Z (defect_count s)
                            / float_of_Z (population s) * hundred)%float]> d |}) /\
  (0 <=? float_of_Z (defect_count s) / float_of_Z (population s) * hundred)%float
  = true /\
  (float_of_Z (defect_count s) / float_of_Z (population s) * hundred <=? 100)%float
  = true /\
  (forall s', same_after_first s s' ->
     stats (snd (init_move_stats {| surface := s'; stats := d |}))
       !! "init_move_frac"
     = stats (snd (init_move_stats {| surface := s; stats := d |}))
         !! "init_move_frac").
Proof.
  intros Hpop Hall.
  pose proof (defect_count_range s) as Hdc.
  rewrite sys_maxsize_eq in Hpop.
  destruct (percentage_range (defect_count s) (population s)) as [H0 H100];
    try lia.
  split; [apply init_move_stats_value; [rewrite sys_maxsize_eq; lia | exact Hall] |].
  split; [exact H0 |]. split; [exact H100 |].
  intros s' Hsame.
  destruct (same_after_first_facts s s' Hsame) as (Hp & Hd & Hf).
  rewrite !init_move_stats_value;
    try (rewrite sys_maxsize_eq; lia); auto.
  simpl. rewrite Hp, Hd. reflexivity.
Qed.

Lemma init_move_frac_value_witness :
  init_move_stats {| surface := surface_example; stats := ∅ |}
  = (inr tt,
     {| surface := surface_example;
        stats := <["init_move_frac" :=
                    PFloat (float_of_Z (defect_count surface_example)
                            / float_of_Z (population surface_example)
                            * hundred)%float]> ∅ |}) /\
  (0 <=? float_of_Z (defect_count surface_example)
         / float_of_Z (population surface_example) * hundred)%float = true /\
  (float_of_Z (defect_count surface_example)
   / float_of_Z (population surface_example) * hundred <=? 100)%float = true /\
  (forall s', same_after_first surface_example s' ->
     stats (snd (init_move_stats {| surface := s'; stats := ∅ |}))
       !! "init_move_frac"
     = stats (snd (init_move_stats {| surface := surface_example; stats := ∅ |}))
         !! "init_move_frac").
Proof.
  apply (init_move_frac_value surface_example ∅).
  - vm_compute. split; [reflexivity | discriminate].
  - unfold surface_example. simpl.
    repeat (constructor; [unfold has_second_choice; simpl; lia |]). constructor.
Defined.

(** C5: the claim counts the entities whose choice at index 1 equals the
    defect symbol; [init_move_stats] counts by the identity test
    ['d' is move].  On one entity whose gene holds at index 1 a str object
    that equals 'd' without being the object of the literal, one entity of
    one has a choice equal to the defect symbol, which makes 100.0 by the
    claim, and the pass stores 0.0. *)
Theorem init_move_stats_identity_test :
  0 < population surface_runtime_d /\
  Forall has_second_choice (cells surface_runtime_d) /\
  equal_defect_count surface_runtime_d = population surface_runtime_d /\
  percentage (equal_defect_count surface_runtime_d)
             (population surface_runtime_d) = 100%float /\
  init_move_stats {| surface := surface_runtime_d; stats := ∅ |}
  = (inr tt,
     {| surface := surface_runtime_d;
        stats := <["init_move_frac" := PFloat 0]> ∅ |}).
Proof.
  assert (Hall : Forall has_second_choice (cells surface_runtime_d)).
  { repeat constructor. }
  split; [reflexivity |]. split; [exact Hall |].
  split; [reflexivity |]. split; [vm_compute; reflexivity |].
  rewrite init_move_stats_value;
    [| vm_compute; split; [reflexivity | discriminate] | exact Hall].
  replace (float_of_Z (defect_count surface_runtime_d)
           / float_of_Z (population surface_runtime_d) * hundred)%float
    with 0%float by (vm_compute; reflexivity).
  reflexivity.
Qed.

(** ** The rule fractions: lemmas *)

Lemma rule_counts_eq (n k : rule_counts) :
  num_tfts n = num_tfts k -> num_t2ts n = num_t2ts k ->
  num_ftfs n = num_ftfs k -> num_alld n = num_alld k ->
  num_allc n = num_allc k -> n = k.
Proof. destruct n, k. simpl. intros. subst. reflexivity. Qed.

Lemma rule_count_cons (r : rule) (c : Cell) (cs : list Cell) :
  rule_count r (c :: cs)
  = (if in_rule r c then 1 else 0) + rule_count r cs.
Proof.
  unfold rule_count. cbn [List.filter].
  destruct (in_rule r c); cbn [length]; lia.
Qed.

Lemma count_rule_fold (cs : list Cell) (n : rule_counts) :
  fold_left count_rule cs n = add_counts n (first_match_counts cs).
Proof.
  revert n. induction cs as [| c cs IH]; intros n.
  - destruct n. unfold add_counts, first_match_counts, rule_count. simpl.
    f_equal; lia.
  - cbn [fold_left]. rewrite IH.
    apply rule_counts_eq; unfold add_counts, first_match_counts;
      cbn [num_tfts num_t2ts num_ftfs num_alld num_allc];
      rewrite rule_count_cons; unfold count_rule, in_rule, first_match;
      destruct (is_tft c), (is_t2t c), (is_ftf c), (is_alld c), (is_allc c);
      cbn [num_tfts num_t2ts num_ftfs num_alld num_allc];
      repeat case_bool_decide; try congruence; lia.
Qed.

Lemma count_rules_first_match (cs : list Cell) :
  count_rules cs = first_match_counts cs.
Proof.
  unfold count_rules. rewrite count_rule_fold.
  apply rule_counts_eq; unfold add_counts, no_counts; simpl; lia.
Qed.

Lemma rule_count_nonneg (r : rule) (cs : list Cell) : 0 <= rule_count r cs.
Proof. unfold rule_count. lia. Qed.

Lemma rule_count_sum (cs : list Cell) :
  rule_count TitForTat cs + rule_count TwoTitsForTat cs
  + rule_count ForgivingTitForTat cs + rule_count AlwaysDefect cs
  + rule_count AlwaysCooperate cs <= Z.of_nat (length cs).
Proof.
  induction cs as [| c cs IH]; [unfold rule_count; simpl; lia |].
  rewrite !rule_count_cons. unfold in_rule.
  destruct (first_match c) as [[] |];
    repeat case_bool_decide; try congruence; cbn [length]; lia.
Qed.

Lemma rule_count_le (r : rule) (cs : list Cell) :
  rule_count r cs <= Z.of_nat (length cs).
Proof.
  pose proof (rule_count_sum cs).
  pose proof (rule_count_nonneg TitForTat cs).
  pose proof (rule_count_nonneg TwoTitsForTat cs).
  pose proof (rule_count_nonneg ForgivingTitForTat cs).
  pose proof (rule_count_nonneg AlwaysDefect cs).
  pose proof (rule_count_nonneg AlwaysCooperate cs).
  destruct r; lia.
Qed.

Lemma rule_fraction_run (num : Z) (st : State) :
  0 <= num <= sys_maxsize ->
  0 < population (surface st) <= sys_maxsize ->
  rule_fraction num st
  = (inr (PFloat (float_of_Z num / float_of_Z (population (surface st)))%float),
     st).
Proof.
  intros Hnum Hpop. unfold rule_fraction, bind, lift, read_population, ret.
  rewrite float_of_int_ok by exact Hnum.
  rewrite float_div_int_ok by exact Hpop. reflexivity.
Qed.

Lemma get_rule_stats_value (s : Surface) (d : gmap string pyval) :
  0 < population s <= sys_maxsize ->
  get_rule_stats {| surface := s; stats := d |}
  = (inr tt,
     {| surface := s;
        stats :=
          <["rule_frac_allc" :=
              PFloat (percentage (rule_count AlwaysCooperate (cells s))
                                 (population s))]>
          (<["rule_frac_alld" :=
              PFloat (percentage (rule_count AlwaysDefect (cells s))
                                 (population s))]>
          (<["rule_frac_ftfs" :=
              PFloat (percentage (rule_count ForgivingTitForTat (cells s))
                                 (population s))]>
          (<["rule_frac_t2ts" :=
              PFloat (percentage (rule_count TwoTitsForTat (cells s))
                                 (population s))]>
          (<["rule_frac_tfts" :=
              PFloat (percentage (rule_count TitForTat (cells s))
                                 (population s))]> d)))) |}).
Proof.
  intros Hpop.
  assert (Hb : forall r, 0 <= rule_count r (cells s) <= sys_maxsize).
  { intros r. pose proof (rule_count_nonneg r (cells s)).
    pose proof (rule_count_le r (cells s)). unfold population in Hpop. lia. }
  unfold get_rule_stats.
  unfold bind at 1. unfold read_population at 1. cbn [surface].
  replace (negb (0 =? population s)) with true
    by (symmetry; apply negb_true_iff, Z.eqb_neq; lia).
  unfold bind at 1. unfold bind at 1. unfold get_all. cbn [surface].
  rewrite count_rules_first_match.
  unfold first_match_counts. cbn [num_tfts num_t2ts num_ftfs num_alld num_allc].
  unfold bind.
  rewrite !rule_fraction_run by (cbn [surface]; auto).
  cbn [surface]. unfold ret, lift, stats_set. cbn [times_hundred py_float rbind].
  reflexivity.
Qed.

(** C4 as amended: on a surface with a positive population [N] (a container
    size), the counters of [get_rule_stats] are the first-match counts, so
    an entity is counted under at most one category and the five counts
    sum to at most [N]; each [rule_frac_*] is the float
    [float(count) / N * 100.0] and lies between 0.0 and 100.0; and for the
    five entities of [surface_example], one of each category, every
    [rule_frac_*] is 20.0.  (The sum of the five floats is not bounded by
    100.0: rounding can carry it above.) *)
Theorem rule_fractions (s : Surface) (d : gmap string pyval) :
  0 < population s <= sys_maxsize ->
  count_rules (cells s) = first_match_counts (cells s) /\
  get_rule_stats {| surface := s; stats := d |}
  = (inr tt,
     {| surface := s;
        stats :=
          <["rule_frac_allc" :=
              PFloat (percentage (rule_count AlwaysCooperate (cells s))
                                 (population s))]>
          (<["rule_frac_alld" :=
              PFloat (percentage (rule_count AlwaysDefect (cells s))
                                 (population s))]>
          (<["rule_frac_ftfs" :=
              PFloat (percentage (rule_count ForgivingTitForTat (cells s))
                                 (population s))]>
          (<["rule_frac_t2ts" :=
              PFloat (percentage (rule_count TwoTitsForTat (cells s))
                                 (population s))]>
          (<["rule_frac_tfts" :=
              PFloat (percentage (rule_count TitForTat (cells s))
                                 (population s))]> d)))) |}) /\
  rule_count TitForTat (cells s) + rule_count TwoTitsForTat (cells s)
  + rule_count ForgivingTitForTat (cells s) + rule_count AlwaysDefect (cells s)
  + rule_count AlwaysCooperate (cells s) <= population s /\
  (forall r,
     (0 <=? percentage (rule_count r (cells s)) (population s))%float = true /\
     (percentage (rule_count r (cells s)) (population s) <=? 100)%float = true) /\
  map (rule_frac surface_example) (pass_keys RuleStats)
  = [20%float; 20%float; 20%float; 20%float; 20%float].
Proof.
  intros Hpop. split; [apply count_rules_first_match |].
  split; [apply get_rule_stats_value; exact Hpop |].
  split; [apply rule_count_sum |].
  split; [| vm_compute; reflexivity].
  intros r. unfold percentage.
  pose proof (rule_count_nonneg r (cells s)).
  pose proof (rule_count_le r (cells s)).
  rewrite sys_maxsize_eq in Hpop. unfold population in *.
  apply percentage_range; lia.
Qed.

Lemma rule_fractions_witness :
  count_rules (cells surface_nine) = first_match_counts (cells surface_nine) /\
  get_rule_stats {| surface := surface_nine; stats := ∅ |}
  = (inr tt,
     {| surface := surface_nine;
        stats :=
          <["rule_frac_allc" :=
              PFloat (percentage (rule_count AlwaysCooperate (cells surface_nine))
                                 (population surface_nine))]>
          (<["rule_frac_alld" :=
              PFloat (percentage (rule_count AlwaysDefect (cells surface_nine))
                                 (population surface_nine))]>
          (<["rule_frac_ftfs" :=
              PFloat (percentage (rule_count ForgivingTitForTat (cells surface_nine))
                                 (population surface_nine))]>
          (<["rule_frac_t2ts" :=
              PFloat (percentage (rule_count TwoTitsForTat (cells surface_nine))
                                 (population surface_nine))]>
          (<["rule_frac_tfts" :=
              PFloat (percentage (rule_count TitForTat (cells surface_nine))
                                 (population surface_nine))]> ∅)))) |}) /\
  rule_count TitForTat (cells surface_nine)
  + rule_count TwoTitsForTat (cells surface_nine)
  + rule_count ForgivingTitForTat (cells surface_nine)
  + rule_count AlwaysDefect (cells surface_nine)
  + rule_count AlwaysCooperate (cells surface_nine) <= population surface_nine /\
  (forall r,
     (0 <=? percentage (rule_count r (cells surface_nine))
                       (population surface_nine))%float = true /\
     (percentage (rule_count r (cells surface_nine))
                 (population surface_nine) <=? 100)%float = true) /\
  map (rule_frac surface_example) (pass_keys RuleStats)
  = [20%float; 20%float; 20%float; 20%float; 20%float].
Proof.
  apply (rule_fractions surface_nine ∅).
  vm_compute. split; [reflexivity | discriminate].
Defined.

(** C4 as stated fails on the sum: with nine entities, seven tit-for-tat,
    one forgiving-tit-for-tat and one always-defect, the five values are
    77.777777777777786, 0.0, 11.111111111111111, 11.111111111111111 and
    0.0; their float sum is 100.00000000000001, and their exact sum is
    above 100 as well. *)
Lemma rule_fractions_sum_counterexample :
  0 < population surface_nine /\
  map (rule_frac surface_nine) (pass_keys RuleStats)
  = [0x1.371c71c71c71dp+6%float; 0%float; 0x1.638e38e38e38ep+3%float;
     0x1.638e38e38e38ep+3%float; 0%float] /\
  (rule_frac surface_nine "rule_frac_tfts"
   + rule_frac surface_nine "rule_frac_t2ts"
   + rule_frac surface_nine "rule_frac_ftfs"
   + rule_frac surface_nine "rule_frac_alld"
   + rule_frac surface_nine "rule_frac_allc" <=? 100)%float = false /\
  scaled_value 100
  < scaled_value (rule_frac surface_nine "rule_frac_tfts")
    + scaled_value (rule_frac surface_nine "rule_frac_t2ts")
    + scaled_value (rule_frac surface_nine "rule_frac_ftfs")
    + scaled_value (rule_frac surface_nine "rule_frac_alld")
    + scaled_value (rule_frac surface_nine "rule_frac_allc").
Proof.
  split; [vm_compute; reflexivity |].
  split; [vm_compute; reflexivity |].
  split; [vm_compute; reflexivity |].
  vm_compute. reflexivity.
Qed.

(** ** Integers of any size to binary64 *)

Lemma rne_down (a b : Z) : 0 < b -> 2 * (a mod b) < b -> rne a b = a / b.
Proof.
  intros Hb Hlt. unfold rne, loc_of.
  destruct (a mod b =? 0); [reflexivity |].
  replace (2 * (a mod b) ?= b) with Lt by (symmetry; apply Z.compare_lt_iff, Hlt).
  reflexivity.
Qed.

(** The conversion of a positive integer: a mantissa of 53 digits at the
    exponent the rounding leaves, or infinity when that exponent is past
    the largest one. *)
Lemma binary_normalize_pos (z : Z) :
  0 < z ->
  exists m e,
    binary_normalize prec emax z 0 false
    = (if e <=? 971 then S754_finite false m e else S754_infinity false) /\
    Zdigits2 (Z.pos m) = 53 /\ -52 <= e /\
    Z.pos m * 2 ^ (e + 52)
    = rne z (2 ^ round_exp z) * 2 ^ (round_exp z + 52).
Proof.
  intros Hz.
  destruct z as [| p | p]; try lia.
  unfold binary_normalize, binary_round, shl_align.
  change (Z.pos (digits2_pos p)) with (Zdigits2 (Z.pos p)).
  pose proof (Zdigits2_bounds (Z.pos p) Hz) as Hdb.
  assert (Hd1 : 1 <= Zdigits2 (Z.pos p)) by (simpl; lia).
  set (d := Zdigits2 (Z.pos p)) in *.
  replace (fexp prec emax (d + 0)) with (Z.max (d - 53) (-1074))
    by (rewrite fexp_eq; f_equal; lia).
  rewrite (Z.max_l (d - 53) (-1074)) by lia.
  unfold round_exp. fold d.
  destruct (Z_le_gt_dec d 53) as [Hle | Hgt].
  - rewrite (Z.max_r (d - 53) 0) by lia. rewrite Z.pow_0_r.
    rewrite (rne_exact (Z.pos p) 1) by apply Z.mod_1_r. rewrite Z.div_1_r.
    destruct (d - 53 - 0) as [| q | q] eqn:Hq; try lia.
    + rewrite binary_round_aux_canonical by (fold d; lia).
      exists p, 0. repeat split; try lia; fold d; lia.
    + rewrite binary_round_aux_canonical.
      * exists (Pos.iter xO p q), (d - 53). simpl Z.to_pos.
        replace (d - 53 <=? 971) with true by (symmetry; apply Z.leb_le; lia).
        repeat split; try lia.
        -- rewrite iter_xO_pow2, Zdigits2_mul_pow2 by lia. fold d. lia.
        -- rewrite iter_xO_pow2, <- Z.mul_assoc, <- pow2_split by lia.
           do 2 f_equal. lia.
      * lia.
      * rewrite iter_xO_pow2, Zdigits2_mul_pow2 by lia. fold d. lia.
      * lia.
  - rewrite (Z.max_l (d - 53) 0) by lia.
    destruct (d - 53 - 0) as [| q | q] eqn:Hq; try lia.
    set (t := d - 53) in *.
    replace (binary_round_aux prec emax false (Z.pos p) 0 loc_Exact)
      with (binary_round_aux prec emax false (Z.pos p / 1) 0 (loc_of (Z.pos p) 1))
      by (rewrite Z.div_1_r, loc_of_one; reflexivity).
    rewrite binary_round_aux_spec by lia.
    assert (H1 : shift1 (Z.pos p) 1 0 = t).
    { unfold shift1. rewrite Z.div_1_r. fold d. rewrite fexp_eq. lia. }
    assert (Hpt : 0 < 2 ^ t) by (apply pow2_pos; lia).
    assert (Hr : rounded (Z.pos p) 1 0 = rne (Z.pos p) (2 ^ t)).
    { unfold rounded. rewrite H1, Z.mul_1_l. reflexivity. }
    set (mr := rne (Z.pos p) (2 ^ t)) in *.
    assert (Hq52 : 2 ^ 52 <= Z.pos p / 2 ^ t).
    { apply Z.div_le_lower_bound; [exact Hpt |].
      rewrite <- pow2_split by lia.
      replace (t + 52) with (d - 1) by lia. lia. }
    assert (Hq53 : Z.pos p / 2 ^ t < 2 ^ 53).
    { apply Z.div_lt_upper_bound; [exact Hpt |].
      rewrite <- pow2_split by lia.
      replace (t + 53) with d by lia. lia. }
    assert (Hmr : 2 ^ 52 <= mr <= 2 ^ 53).
    { unfold mr. pose proof (rne_ge (Z.pos p) (2 ^ t) Hpt).
      pose proof (rne_le_succ (Z.pos p) (2 ^ t)). lia. }
    assert (Hdm : Zdigits2 mr = 53 /\ mr < 2 ^ 53 \/ Zdigits2 mr = 54 /\ mr = 2 ^ 53).
    { destruct (Z.eq_dec mr (2 ^ 53)) as [E | E].
      - right. rewrite E. split; reflexivity.
      - left. split; [| lia].
        assert (Zdigits2 mr <= 53) by (apply Zdigits2_lt_pow2; lia).
        assert (Zdigits2 (2 ^ 52) <= Zdigits2 mr) by (apply Zdigits2_le; lia).
        change (Zdigits2 (2 ^ 52)) with 53 in *. lia. }
    rewrite Hr, H1. change (emax - prec) with 971.
    destruct Hdm as [[Hd53 Hlt] | [Hd54 Heq]].
    + assert (H2 : shift2 (Z.pos p) 1 0 = 0).
      { unfold shift2. rewrite Hr, H1, Hd53, fexp_eq. lia. }
      rewrite H2. rewrite Z.pow_0_r. rewrite Z.div_1_r, !Z.add_0_r, Z.add_0_l.
      destruct mr as [| m | m] eqn:Em; try lia.
      exists m, t. repeat split; try lia; exact Hd53.
    + assert (H2 : shift2 (Z.pos p) 1 0 = 1).
      { unfold shift2. rewrite Hr, H1, Hd54, fexp_eq. lia. }
      rewrite H2, Heq. change (2 ^ 53 / 2 ^ 1) with (Z.pos (Z.to_pos (2 ^ 52))).
      cbv iota.
      exists (Z.to_pos (2 ^ 52)), (0 + t + 1). repeat split; try lia.
      change (Z.pos (Z.to_pos (2 ^ 52))) with (2 ^ 52).
      replace (0 + t + 1 + 52) with (1 + (t + 52)) by lia.
      rewrite (pow2_split 1) by lia. change (2 ^ 53) with (2 ^ 52 * 2 ^ 1). ring.
Qed.

Lemma digits53_bounds (m : positive) :
  Zdigits2 (Z.pos m) = 53 -> 2 ^ 52 <= Z.pos m < 2 ^ 53.
Proof.
  intros Hd. pose proof (Zdigits2_bounds (Z.pos m) ltac:(lia)) as H.
  rewrite Hd in H. exact H.
Qed.

Lemma value_at_float_limit :
  rne float_limit (2 ^ round_exp float_limit) * 2 ^ (round_exp float_limit + 52)
  = 2 ^ 1076.
Proof. vm_compute. reflexivity. Qed.

Lemma value_below_float_limit :
  rne (float_limit - 1) (2 ^ round_exp (float_limit - 1))
  * 2 ^ (round_exp (float_limit - 1) + 52) < 2 ^ 1076.
Proof. vm_compute. reflexivity. Qed.

Lemma binary_normalize_finite (z : Z) :
  0 < z < float_limit ->
  exists m e,
    binary_normalize prec emax z 0 false = S754_finite false m e /\
    Zdigits2 (Z.pos m) = 53 /\ -52 <= e <= 971.
Proof.
  intros [Hz Hlim].
  destruct (binary_normalize_pos z Hz) as (m & e & Hn & Hd & He & Hv).
  destruct (Z.leb_spec e 971) as [Hle | Hgt].
  - exists m, e. repeat split; assumption.
  - exfalso.
    pose proof (int_value_mono z (float_limit - 1) ltac:(lia)) as Hmono.
    pose proof value_below_float_limit as Hb.
    pose proof (digits53_bounds m Hd) as Hm.
    assert (Hp : 2 ^ 1024 <= 2 ^ (e + 52)) by (apply Z.pow_le_mono_r; lia).
    assert (H76 : 2 ^ 1076 = 2 ^ 52 * 2 ^ 1024) by (rewrite <- pow2_split; [reflexivity | lia | lia]).
    rewrite <- Hv in Hmono.
    assert (2 ^ 52 * 2 ^ 1024 <= Z.pos m * 2 ^ (e + 52)).
    { apply Z.mul_le_mono_nonneg; lia. }
    lia.
Qed.

Lemma binary_normalize_overflow (z : Z) :
  float_limit <= z ->
  binary_normalize prec emax z 0 false = S754_infinity false.
Proof.
  intros Hlim.
  assert (Hz : 0 < z) by (unfold float_limit in Hlim; lia).
  destruct (binary_normalize_pos z Hz) as (m & e & Hn & Hd & He & Hv).
  destruct (Z.leb_spec e 971) as [Hle | Hgt]; [exfalso | exact Hn].
  pose proof (int_value_mono float_limit z ltac:(unfold float_limit in *; lia)) as Hmono.
  rewrite value_at_float_limit, <- Hv in Hmono.
  pose proof (digits53_bounds m Hd) as Hm.
  assert (Hp : 2 ^ (e + 52) <= 2 ^ 1023) by (apply Z.pow_le_mono_r; lia).
  assert (H76 : 2 ^ 1076 = 2 ^ 53 * 2 ^ 1023) by (rewrite <- pow2_split; [reflexivity | lia | lia]).
  assert (Hpos : 0 < 2 ^ (e + 52)) by (apply pow2_pos; lia).
  assert (Z.pos m * 2 ^ (e + 52) < 2 ^ 53 * 2 ^ 1023).
  { apply Z.le_lt_trans with (Z.pos m * 2 ^ 1023).
    - apply Z.mul_le_mono_nonneg_l; lia.
    - apply Z.mul_lt_mono_pos_r; [apply pow2_pos; lia | lia]. }
  lia.
Qed.

Lemma valid_binary_digits53 (m : positive) (e : Z) :
  Zdigits2 (Z.pos m) = 53 -> -1074 <= e <= 971 ->
  valid_binary (S754_finite false m e) = true.
Proof.
  intros Hd He. unfold SpecFloat.valid_binary, bounded, canonical_mantissa.
  change (Z.pos (digits2_pos m)) with (Zdigits2 (Z.pos m)).
  rewrite Hd, fexp_eq.
  apply andb_true_iff. split; [apply Z.eqb_eq | apply Z.leb_le];
    change (emax - prec) with 971; lia.
Qed.

(** [float(z)] below the limit is the finite rounding of [z], not zero. *)
Lemma Prim2SF_float_of_Z_finite (z : Z) :
  0 < z < float_limit ->
  exists m e, Prim2SF (float_of_Z z) = S754_finite false m e.
Proof.
  intros Hz. destruct (binary_normalize_finite z Hz) as (m & e & Hn & Hd & He).
  exists m, e. unfold float_of_Z. rewrite Hn.
  apply Prim2SF_SF2Prim, valid_binary_digits53; [exact Hd | lia].
Qed.

Lemma float_of_int_finite (z : Z) :
  0 <= z < float_limit -> float_of_int z = inr (float_of_Z z).
Proof.
  intros Hz. unfold float_of_int.
  destruct (Z.eq_dec z 0) as [-> | Hz0]; [reflexivity |].
  destruct (Prim2SF_float_of_Z_finite z ltac:(lia)) as (m & e & Hf).
  rewrite (is_infinity_finite _ _ _ _ Hf). reflexivity.
Qed.

Lemma float_of_Z_nonzero (z : Z) :
  0 < z < float_limit -> PrimFloat.is_zero (float_of_Z z) = false.
Proof.
  intros Hz. destruct (Prim2SF_float_of_Z_finite z Hz) as (m & e & Hf).
  exact (is_zero_finite _ _ _ _ Hf).
Qed.

(** [float(z)] from the limit on raises [OverflowError]. *)
Lemma float_of_int_overflow (z : Z) :
  float_limit <= z -> float_of_int z = inl OverflowError.
Proof.
  intros Hz. unfold float_of_int, float_of_Z.
  rewrite (binary_normalize_overflow z Hz). reflexivity.
Qed.

(** ** The population of the grid *)

Lemma get_population_stats_value (s : Surface) (d : gmap string pyval) :
  0 < width s * height s <= sys_maxsize ->
  population s <= sys_maxsize ->
  get_population_stats {| surface := s; stats := d |}
  = (inr tt,
     {| surface := s;
        stats :=
          <["pop_abs" := PInt (population s)]>
          (<["pop_rel" :=
              PFloat (percentage (population s) (width s * height s))]> d) |}).
Proof.
  intros Hmap Hpop.
  assert (Hp0 : 0 <= population s) by (unfold population; lia).
  unfold get_population_stats, bind, read_map_size, read_population, lift.
  cbn [surface].
  rewrite !float_of_int_ok by lia.
  rewrite float_truediv_ok by lia. reflexivity.
Qed.

Lemma get_population_stats_finite (s : Surface) (d : gmap string pyval) :
  0 < width s * height s < float_limit ->
  population s < float_limit ->
  get_population_stats {| surface := s; stats := d |}
  = (inr tt,
     {| surface := s;
        stats :=
          <["pop_abs" := PInt (population s)]>
          (<["pop_rel" :=
              PFloat (percentage (population s) (width s * height s))]> d) |}).
Proof.
  intros Hmap Hpop.
  assert (Hp0 : 0 <= population s) by (unfold population; lia).
  unfold get_population_stats, bind, read_map_size, read_population, lift.
  cbn [surface].
  rewrite !float_of_int_finite by lia.
  unfold float_truediv. rewrite float_of_Z_nonzero by exact Hmap. reflexivity.
Qed.

Lemma get_population_stats_overflow (s : Surface) (d : gmap string pyval) :
  float_limit <= width s * height s ->
  population s < float_limit ->
  get_population_stats {| surface := s; stats := d |}
  = (inl OverflowError, {| surface := s; stats := d |}).
Proof.
  intros Hmap Hpop.
  assert (Hp0 : 0 <= population s) by (unfold population; lia).
  unfold get_population_stats, bind, read_map_size, read_population, lift.
  cbn [surface].
  rewrite (float_of_int_finite (population s)) by lia.
  rewrite float_of_int_overflow by exact Hmap. reflexivity.
Qed.

(** C7 as amended: on a surface whose map size [width * height] is positive,
    [get_population_stats] converts the population and the map size to
    binary64.  When the map size is below [2 ^ 1024 - 2 ^ 970], the first
    integer [float()] refuses, it stores under [pop_rel] the float
    [float(population) / float(width * height) * 100.0] and under [pop_abs]
    the integer population; from that size on [float(map_size)] raises
    [OverflowError] and nothing is stored.  For a population of 3 on a 2 by 2
    grid, [pop_rel] is 75.0 and [pop_abs] is 3. *)
Theorem population_stats_value (s : Surface) (d : gmap string pyval) :
  0 < width s * height s ->
  population s < float_limit ->
  (width s * height s < float_limit ->
   get_population_stats {| surface := s; stats := d |}
   = (inr tt,
      {| surface := s;
         stats :=
           <["pop_abs" := PInt (population s)]>
           (<["pop_rel" :=
               PFloat (float_of_Z (population s)
                       / float_of_Z (width s * height s) * 100)%float]> d) |})) /\
  (float_limit <= width s * height s ->
   get_population_stats {| surface := s; stats := d |}
   = (inl OverflowError, {| surface := s; stats := d |})) /\
  stats (snd (get_population_stats
                {| surface := surface_two_by_two; stats := ∅ |})) !! "pop_rel"
  = Some (PFloat 75%float) /\
  stats (snd (get_population_stats
                {| surface := surface_two_by_two; stats := ∅ |})) !! "pop_abs"
  = Some (PInt 3).
Proof.
  intros Hmap Hpop. split; [| split].
  - intros Hlim. apply get_population_stats_finite; [lia | exact Hpop].
  - intros Hlim. apply get_population_stats_overflow; assumption.
  - split; vm_compute; reflexivity.
Qed.

Lemma population_stats_value_witness :
  get_population_stats {| surface := surface_two_by_two; stats := ∅ |}
  = (inr tt,
     {| surface := surface_two_by_two;
        stats :=
          <["pop_abs" := PInt (population surface_two_by_two)]>
          (<["pop_rel" :=
              PFloat (float_of_Z (population surface_two_by_two)
                      / float_of_Z (width surface_two_by_two
                                    * height surface_two_by_two) * 100)%float]>
             ∅) |}) /\
  get_population_stats {| surface := surface_huge; stats := ∅ |}
  = (inl OverflowError, {| surface := surface_huge; stats := ∅ |}).
Proof.
  split.
  - apply (proj1 (population_stats_value surface_two_by_two ∅
                    ltac:(reflexivity) ltac:(reflexivity))).
    reflexivity.
  - apply (proj1 (proj2 (population_stats_value surface_huge ∅
                           ltac:(reflexivity) ltac:(reflexivity)))).
    vm_compute. discriminate.
Defined.

(** C7 as stated fails on a grid of positive size that [float()] cannot
    convert: on three entities and a grid [2 ^ 1024] wide,
    [float(map_size)] raises [OverflowError] and neither [pop_rel] nor
    [pop_abs] is set. *)
Lemma population_stats_overflow_counterexample :
  0 < width surface_huge * height surface_huge /\
  get_population_stats {| surface := surface_huge; stats := ∅ |}
  = (inl OverflowError, {| surface := surface_huge; stats := ∅ |}) /\
  stats (snd (get_population_stats {| surface := surface_huge; stats := ∅ |}))
    !! "pop_rel" = None /\
  stats (snd (get_population_stats {| surface := surface_huge; stats := ∅ |}))
    !! "pop_abs" = None.
Proof.
  assert (H : get_population_stats {| surface := surface_huge; stats := ∅ |}
              = (inl OverflowError, {| surface := surface_huge; stats := ∅ |})).
  { apply get_population_stats_overflow.
    - vm_compute. discriminate.
    - reflexivity. }
  split; [reflexivity |]. split; [exact H |].
  rewrite H. split; reflexivity.
Qed.

(** * More about the passes *)

(** ** What the statistics passes store *)

Lemma collect_total {A} (f : Cell -> A) (cs : list Cell) :
  collect (fun c => ok (f c)) cs = ok (map f cs).
Proof.
  induction cs as [| c cs IH]; [reflexivity |].
  simpl. rewrite IH. reflexivity.
Qed.

Lemma population_test (st : State) :
  cells (surface st) <> [] -> negb (0 =? population (surface st)) = true.
Proof.
  intros Hne. apply negb_true_iff, Z.eqb_neq. unfold population.
  destruct (cells (surface st)); [congruence | simpl; lia].
Qed.

Section StatisticsValues.

Variable s_mean : list pyval -> result pyval.
Variable s_pstdev : list pyval -> pyval -> result pyval.

Lemma mean_and_stddev_run (data : list pyval) (st : State) :
  mean_and_stddev s_mean s_pstdev data st
  = match s_mean data with
    | inl e => (inl e, st)
    | inr mean =>
        match s_pstdev data mean with
        | inl e => (inl e, st)
        | inr stddev => (inr (mean, stddev), st)
        end
    end.
Proof.
  unfold mean_and_stddev, bind, lift, ret.
  destruct (s_mean data) as [e | mean]; [reflexivity |].
  destruct (s_pstdev data mean) as [e | stddev]; reflexivity.
Qed.

Lemma gene_length_stats_run (st : State) :
  cells (surface st) <> [] ->
  gene_length_stats s_mean s_pstdev st
  = store_mean_stddev s_mean s_pstdev "length_mean" "length_stddev" (gene_lengths (surface st)) st.
Proof.
  intros Hne. unfold gene_length_stats, store_mean_stddev.
  unfold bind at 1. unfold read_population at 1.
  rewrite (population_test st Hne).
  unfold bind at 1. unfold bind at 1.
  rewrite my_map_appending, collect_total. cbn [rbind app].
  fold (gene_lengths (surface st)).
  rewrite mean_and_stddev_run.
  destruct (s_mean _) as [e | mean]; [reflexivity |].
  destruct (s_pstdev _ mean) as [e | stddev]; reflexivity.
Qed.

Lemma get_score_stats_run (st : State) :
  cells (surface st) <> [] ->
  get_score_stats s_mean s_pstdev st
  = store_mean_stddev s_mean s_pstdev "scores_mean" "scores_stddev" (scores (surface st)) st.
Proof.
  intros Hne. unfold get_score_stats, store_mean_stddev.
  unfold bind at 1. unfold read_population at 1.
  rewrite (population_test st Hne).
  unfold bind at 1. unfold bind at 1.
  rewrite my_map_appending, collect_total. cbn [rbind app].
  fold (scores (surface st)).
  rewrite mean_and_stddev_run.
  destruct (s_mean _) as [e | mean]; [reflexivity |].
  destruct (s_pstdev _ mean) as [e | stddev]; reflexivity.
Qed.

Lemma get_age_stats_run (st : State) :
  cells (surface st) <> [] ->
  get_age_stats s_mean s_pstdev st
  = store_mean_stddev s_mean s_pstdev "age_mean" "age_stddev" (ages (surface st)) st.
Proof.
  intros Hne. unfold get_age_stats, store_mean_stddev.
  unfold bind at 1. unfold read_population at 1.
  rewrite (population_test st Hne).
  unfold bind at 1. unfold bind at 1.
  rewrite my_map_appending, collect_total. cbn [rbind app].
  fold (ages (surface st)).
  rewrite mean_and_stddev_run.
  destruct (s_mean _) as [e | mean]; [reflexivity |].
  destruct (s_pstdev _ mean) as [e | stddev]; reflexivity.
Qed.

End StatisticsValues.

Section FractionDefValue.

Variable s_mean : list pyval -> result pyval.
Variable s_pstdev : list pyval -> pyval -> result pyval.

Lemma fraction_def_stats_run (st : State) :
  cells (surface st) <> [] ->
  fraction_def_stats s_mean s_pstdev st
  = store_scaled_mean_stddev s_mean s_pstdev (defect_fractions (surface st)) st.
Proof.
  intros Hne. unfold fraction_def_stats, store_scaled_mean_stddev.
  unfold bind at 1. unfold read_population at 1.
  rewrite (population_test st Hne).
  unfold bind at 1. unfold bind at 1.
  rewrite my_map_appending, collect_total. cbn [rbind app].
  fold (defect_fractions (surface st)).
  rewrite mean_and_stddev_run.
  destruct (s_mean _) as [e | mean]; [reflexivity |].
  destruct (s_pstdev _ mean) as [e | stddev]; [reflexivity |].
  unfold bind, lift. cbn [fst snd].
  destruct (times_hundred mean) as [e | v1]; [reflexivity |].
  cbn [stats_set stats surface].
  destruct (times_hundred stddev) as [e | v2]; reflexivity.
Qed.

End FractionDefValue.

Lemma rule_fraction_quotient (num : Z) (st : State) :
  rule_fraction num st
  = (match quotient num (population (surface st)) with
     | inl e => inl e
     | inr q => inr (PFloat q)
     end, st).
Proof.
  unfold rule_fraction, quotient, bind, lift, read_population, ret.
  destruct (float_of_int num) as [e | f]; [reflexivity |]. cbn [rbind].
  destruct (float_div_int f _) as [e | q]; reflexivity.
Qed.

Lemma get_rule_stats_run (st : State) :
  cells (surface st) <> [] ->
  get_rule_stats st
  = store_rule_fractions (count_rules (cells (surface st)))
      (population (surface st)) st.
Proof.
  intros Hne. unfold get_rule_stats, store_rule_fractions.
  unfold bind at 1. unfold read_population at 1.
  rewrite (population_test st Hne).
  unfold bind at 1. unfold bind at 1. unfold get_all at 1.
  set (n := count_rules (cells (surface st))).
  unfold bind. rewrite rule_fraction_quotient.
  destruct (quotient (num_tfts n) _) as [e | q1]; [reflexivity |].
  cbv beta iota. rewrite rule_fraction_quotient.
  destruct (quotient (num_t2ts n) _) as [e | q2]; [reflexivity |].
  cbv beta iota. rewrite rule_fraction_quotient.
  destruct (quotient (num_ftfs n) _) as [e | q3]; [reflexivity |].
  cbv beta iota. rewrite rule_fraction_quotient.
  destruct (quotient (num_alld n) _) as [e | q4]; [reflexivity |].
  cbv beta iota. rewrite rule_fraction_quotient.
  destruct (quotient (num_allc n) _) as [e | q5]; reflexivity.
Qed.

Lemma get_population_stats_run (st : State) :
  get_population_stats st
  = match float_of_int (population (surface st)) with
    | inl e => (inl e, st)
    | inr fp =>
        match float_of_int (width (surface st) * height (surface st)) with
        | inl e => (inl e, st)
        | inr fm =>
            match float_truediv fp fm with
            | inl e => (inl e, st)
            | inr rel =>
                (inr tt,
                 set_stats st
                   (<["pop_abs" := PInt (population (surface st))]>
                    (<["pop_rel" := PFloat (rel * hundred)%float]> (stats st))))
            end
        end
    end.
Proof.
  unfold get_population_stats, bind, read_map_size, read_population, lift.
  destruct (float_of_int (population _)) as [e | fp]; [reflexivity |].
  destruct (float_of_int (_ * _)) as [e | fm]; [reflexivity |].
  destruct (float_truediv fp fm) as [e | rel]; reflexivity.
Qed.

Lemma population_positive (s : Surface) : 0 < population s -> cells s <> [].
Proof. unfold population. intros H E. rewrite E in H. simpl in H. lia. Qed.

(** X1: on a positive population, [gene_length_stats], [get_score_stats] and
    [get_age_stats] hand [mean] the list of [len(seq) - 1], of the scores
    and of the ages, in traversal order, and hand [pstdev] that list with
    that mean; an exception of either is raised with nothing stored,
    otherwise the two results are stored as they are. *)
Theorem statistics_passes_store (s_mean : list pyval -> result pyval)
    (s_pstdev : list pyval -> pyval -> result pyval)
    (s : Surface) (d : gmap string pyval) :
  0 < population s ->
  gene_length_stats s_mean s_pstdev {| surface := s; stats := d |}
  = store_mean_stddev s_mean s_pstdev "length_mean" "length_stddev"
      (gene_lengths s) {| surface := s; stats := d |} /\
  get_score_stats s_mean s_pstdev {| surface := s; stats := d |}
  = store_mean_stddev s_mean s_pstdev "scores_mean" "scores_stddev"
      (scores s) {| surface := s; stats := d |} /\
  get_age_stats s_mean s_pstdev {| surface := s; stats := d |}
  = store_mean_stddev s_mean s_pstdev "age_mean" "age_stddev"
      (ages s) {| surface := s; stats := d |}.
Proof.
  intros Hpop. apply population_positive in Hpop.
  split; [| split].
  - apply (gene_length_stats_run s_mean s_pstdev {| surface := s; stats := d |} Hpop).
  - apply (get_score_stats_run s_mean s_pstdev {| surface := s; stats := d |} Hpop).
  - apply (get_age_stats_run s_mean s_pstdev {| surface := s; stats := d |} Hpop).
Qed.

Lemma statistics_passes_store_witness :
  gene_length_stats mean_example pstdev_example
    {| surface := surface_example; stats := ∅ |}
  = store_mean_stddev mean_example pstdev_example "length_mean" "length_stddev"
      (gene_lengths surface_example) {| surface := surface_example; stats := ∅ |} /\
  get_score_stats mean_example pstdev_example
    {| surface := surface_example; stats := ∅ |}
  = store_mean_stddev mean_example pstdev_example "scores_mean" "scores_stddev"
      (scores surface_example) {| surface := surface_example; stats := ∅ |} /\
  get_age_stats mean_example pstdev_example
    {| surface := surface_example; stats := ∅ |}
  = store_mean_stddev mean_example pstdev_example "age_mean" "age_stddev"
      (ages surface_example) {| surface := surface_example; stats := ∅ |}.
Proof.
  apply (statistics_passes_store mean_example pstdev_example surface_example ∅).
  reflexivity.
Defined.

(** X2: on a positive population, [fraction_def_stats] hands [mean] the
    defect fractions in traversal order and [pstdev] that list with that
    mean, and stores the two results times 100.0; an exception of [mean],
    of [pstdev] or of the first product is raised with nothing stored, and
    one of the second product is raised with [def_frac_mean] stored.  When
    both results are floats [m] and [sd], [m * 100.0] and [sd * 100.0] are
    stored. *)
Theorem fraction_def_stats_store (s_mean : list pyval -> result pyval)
    (s_pstdev : list pyval -> pyval -> result pyval)
    (s : Surface) (d : gmap string pyval) :
  0 < population s ->
  fraction_def_stats s_mean s_pstdev {| surface := s; stats := d |}
  = store_scaled_mean_stddev s_mean s_pstdev (defect_fractions s)
      {| surface := s; stats := d |} /\
  (forall m sd,
     s_mean (defect_fractions s) = inr (PFloat m) ->
     s_pstdev (defect_fractions s) (PFloat m) = inr (PFloat sd) ->
     fraction_def_stats s_mean s_pstdev {| surface := s; stats := d |}
     = (inr tt,
        {| surface := s;
           stats := <["def_frac_stddev" := PFloat (sd * 100)%float]>
                    (<["def_frac_mean" := PFloat (m * 100)%float]> d) |})).
Proof.
  intros Hpop. apply population_positive in Hpop.
  pose proof (fraction_def_stats_run s_mean s_pstdev
                {| surface := s; stats := d |} Hpop) as Hrun.
  split; [exact Hrun |].
  intros m sd Hm Hsd. rewrite Hrun. unfold store_scaled_mean_stddev.
  cbn [surface]. rewrite Hm, Hsd. reflexivity.
Qed.

Lemma fraction_def_stats_store_witness :
  fraction_def_stats mean_example pstdev_example
    {| surface := surface_example; stats := ∅ |}
  = store_scaled_mean_stddev mean_example pstdev_example
      (defect_fractions surface_example)
      {| surface := surface_example; stats := ∅ |} /\
  (forall m sd,
     mean_example (defect_fractions surface_example) = inr (PFloat m) ->
     pstdev_example (defect_fractions surface_example) (PFloat m)
     = inr (PFloat sd) ->
     fraction_def_stats mean_example pstdev_example
       {| surface := surface_example; stats := ∅ |}
     = (inr tt,
        {| surface := surface_example;
           stats := <["def_frac_stddev" := PFloat (sd * 100)%float]>
                    (<["def_frac_mean" := PFloat (m * 100)%float]> ∅) |})).
Proof.
  apply (fraction_def_stats_store mean_example pstdev_example surface_example ∅).
  reflexivity.
Defined.

(** ** A pass that raises *)

Lemma store_mean_stddev_raises (s_mean : list pyval -> result pyval)
    (s_pstdev : list pyval -> pyval -> result pyval)
    (k1 k2 : string) (data : list pyval) (st st' : State) (e : exn) :
  store_mean_stddev s_mean s_pstdev k1 k2 data st = (inl e, st') -> st' = st.
Proof.
  unfold store_mean_stddev.
  destruct (s_mean data) as [e1 | m]; [congruence |].
  destruct (s_pstdev data m) as [e2 | sd]; congruence.
Qed.

Lemma store_rule_fractions_raises (n : rule_counts) (pop : Z)
    (st st' : State) (e : exn) :
  store_rule_fractions n pop st = (inl e, st') -> st' = st.
Proof.
  unfold store_rule_fractions.
  destruct (quotient (num_tfts n) pop); [congruence |].
  destruct (quotient (num_t2ts n) pop); [congruence |].
  destruct (quotient (num_ftfs n) pop); [congruence |].
  destruct (quotient (num_alld n) pop); [congruence |].
  destruct (quotient (num_allc n) pop); congruence.
Qed.

(** X3: a pass that raises has stored nothing: after an exception of
    [init_move_stats], [gene_length_stats], [get_score_stats],
    [get_rule_stats], [get_age_stats] or [get_population_stats] the
    dictionary and the surface are the ones before the call.
    [fraction_def_stats] is the exception: it may have stored
    [def_frac_mean], and nothing else, before it raises. *)
Theorem failed_pass_stores_nothing (s_mean : list pyval -> result pyval)
    (s_pstdev : list pyval -> pyval -> result pyval)
    (st st' : State) (e : exn) :
  (forall p, p <> FractionDef ->
     run_pass s_mean s_pstdev p st = (inl e, st') -> st' = st) /\
  (get_population_stats st = (inl e, st') -> st' = st) /\
  (fraction_def_stats s_mean s_pstdev st = (inl e, st') ->
   st' = st \/
   exists v, st' = set_stats st (<["def_frac_mean" := v]> (stats st))).
Proof.
  split; [| split].
  - intros p Hp. destruct (cells (surface st)) as [| c cs] eqn:Hcs.
    + destruct p; simpl run_pass; try congruence.
      * rewrite init_move_stats_empty by exact Hcs. discriminate.
      * rewrite gene_length_stats_empty by exact Hcs. discriminate.
      * rewrite get_score_stats_empty by exact Hcs. discriminate.
      * rewrite get_rule_stats_empty by exact Hcs. discriminate.
      * rewrite get_age_stats_empty by exact Hcs. discriminate.
    + assert (Hne : cells (surface st) <> []) by (rewrite Hcs; discriminate).
      destruct p; simpl run_pass; try congruence.
      * rewrite init_move_stats_run by exact Hne.
        destruct (collect second_choice _); [congruence |].
        destruct (float_of_int _); [congruence |].
        destruct (float_div_int _ _); congruence.
      * rewrite gene_length_stats_run by exact Hne.
        apply store_mean_stddev_raises.
      * rewrite get_score_stats_run by exact Hne.
        apply store_mean_stddev_raises.
      * rewrite get_rule_stats_run by exact Hne.
        apply store_rule_fractions_raises.
      * rewrite get_age_stats_run by exact Hne.
        apply store_mean_stddev_raises.
  - rewrite get_population_stats_run.
    destruct (float_of_int (population _)); [congruence |].
    destruct (float_of_int (_ * _)); [congruence |].
    destruct (float_truediv _ _); congruence.
  - destruct (cells (surface st)) as [| c cs] eqn:Hcs.
    + rewrite fraction_def_stats_empty by exact Hcs. discriminate.
    + rewrite fraction_def_stats_run by (rewrite Hcs; discriminate).
      unfold store_scaled_mean_stddev.
      destruct (s_mean _) as [e1 | m]; [left; congruence |].
      destruct (s_pstdev _ m) as [e2 | sd]; [left; congruence |].
      destruct (times_hundred m) as [e3 | v1]; [left; congruence |].
      destruct (times_hundred sd) as [e4 | v2]; [| discriminate].
      intros [= _ <-]. right. exists v1. reflexivity.
Qed.

(** ** A pass called again *)

Lemma apply_writes_idem (w : writes) (d : gmap string pyval) :
  apply_writes w (apply_writes w d) = apply_writes w d.
Proof.
  rewrite (apply_writes_union w (apply_writes w d)), (apply_writes_union w d).
  rewrite (assoc_L (∪)). f_equal. apply (idemp_L (∪)).
Qed.

Lemma logged_twice (K : list string) (m : M unit) (st : State) :
  logged K m -> (m ;; m) st = m st.
Proof.
  intros Hm. destruct st as [s d].
  destruct (Hm s) as (r & w & _ & _ & Hrun).
  unfold bind. rewrite Hrun.
  destruct r as [e | []]; [reflexivity |].
  rewrite Hrun, apply_writes_idem. reflexivity.
Qed.

(** X4: every pass is idempotent: called twice in a row on the same surface
    and dictionary, it returns or raises what one call does and leaves the
    state one call leaves; so is [get_population_stats]. *)
Theorem pass_idempotent (s_mean : list pyval -> result pyval)
    (s_pstdev : list pyval -> pyval -> result pyval)
    (p : pass) (st : State) :
  (run_pass s_mean s_pstdev p ;; run_pass s_mean s_pstdev p) st
  = run_pass s_mean s_pstdev p st /\
  (get_population_stats ;; get_population_stats) st = get_population_stats st.
Proof.
  split.
  - apply (logged_twice (pass_keys p)), logged_run_pass.
  - apply (logged_twice ["pop_rel"; "pop_abs"]), logged_get_population_stats.
Qed.

(** ** The record of [get_stats], pass by pass *)

Lemma apply_writes_lookup_in (w : writes) (d d' : gmap string pyval) (k : string) :
  In k (map fst w) -> apply_writes w d !! k = apply_writes w d' !! k.
Proof.
  intros Hk.
  assert (Hs : is_Some (apply_writes w ∅ !! k)).
  { apply elem_of_dom. rewrite dom_apply_writes.
    apply elem_of_union_l, elem_of_list_to_set, list_elem_of_In, Hk. }
  rewrite (apply_writes_union w d), (apply_writes_union w d').
  rewrite !lookup_union_l' by exact Hs. reflexivity.
Qed.

Section Composition.

Variable s_mean : list pyval -> result pyval.
Variable s_pstdev : list pyval -> pyval -> result pyval.

Lemma run_pass_alone (p : pass) (s : Surface) (d : gmap string pyval) :
  fst (run_pass s_mean s_pstdev p {| surface := s; stats := d |})
  = fst (alone s_mean s_pstdev p s) /\
  (fst (alone s_mean s_pstdev p s) = inr tt ->
   forall k, In k (pass_keys p) ->
     stats (snd (run_pass s_mean s_pstdev p {| surface := s; stats := d |})) !! k
     = stats (snd (alone s_mean s_pstdev p s)) !! k).
Proof.
  unfold alone.
  destruct (logged_run_pass s_mean s_pstdev p s) as (r & w & Hok & _ & Hrun).
  rewrite !Hrun. split; [reflexivity |].
  simpl. intros Hr k Hk. apply apply_writes_lookup_in.
  rewrite (Hok tt Hr). exact Hk.
Qed.

Lemma run_passes_result (ps : list pass) (s : Surface) (d : gmap string pyval) :
  NoDup ps ->
  match run_passes s_mean s_pstdev ps {| surface := s; stats := d |} with
  | (inr _, st) =>
      (forall p, p ∈ ps -> fst (alone s_mean s_pstdev p s) = inr tt) /\
      (forall p k, p ∈ ps -> In k (pass_keys p) ->
         stats st !! k = stats (snd (alone s_mean s_pstdev p s)) !! k) /\
      (forall k, ~ In k (concat (map pass_keys ps)) -> stats st !! k = d !! k)
  | (inl e, _) => exists p, p ∈ ps /\ fst (alone s_mean s_pstdev p s) = inl e
  end.
Proof.
  revert d. induction ps as [| p ps IH]; intros d Hnd.
  - simpl. split; [| split]; [intros p H | intros p k H | reflexivity];
      inversion H.
  - apply NoDup_cons in Hnd as [Hp Hnd].
    destruct (run_pass_alone p s d) as [Hfst Hkeys].
    pose proof (logged_frame (pass_keys p) (run_pass s_mean s_pstdev p)
                  {| surface := s; stats := d |}) as Hframe.
    pose proof (logged_surface (pass_keys p) (run_pass s_mean s_pstdev p)
                  {| surface := s; stats := d |}
                  (logged_run_pass s_mean s_pstdev p)) as Hsurf.
    simpl run_passes. unfold bind.
    destruct (run_pass s_mean s_pstdev p {| surface := s; stats := d |})
      as [[e | []] [s1 d1]] eqn:Hrun; simpl in Hfst, Hkeys, Hframe, Hsurf.
    + exists p. split; [constructor | congruence].
    + subst s1. specialize (IH d1 Hnd).
      destruct (run_passes s_mean s_pstdev ps {| surface := s; stats := d1 |})
        as [[e | []] st].
      * destruct IH as (q & Hq & He). exists q. split; [constructor 2 |]; assumption.
      * destruct IH as (Hall & Hval & Hrest). split; [| split].
        -- intros q [-> | Hq]%elem_of_cons; [congruence | auto].
        -- intros q k [-> | Hq]%elem_of_cons Hk; [| auto].
           rewrite Hrest.
           ++ apply Hkeys; [congruence | exact Hk].
           ++ intros Hin. apply in_concat in Hin as (ks & Hks & Hkk).
              apply in_map_iff in Hks as (q & <- & Hq).
              apply list_elem_of_In in Hq.
              apply (pass_keys_disjoint p q) with k; [congruence | |]; assumption.
        -- intros k Hk. simpl in Hk. rewrite in_app_iff in Hk.
           rewrite Hrest by tauto.
           apply Hframe; [apply logged_run_pass | tauto].
Qed.

(** X5: [get_stats] returns a record exactly when each of its six passes,
    called alone on the surface, returns; the record then holds, under the
    keys of each pass, what that pass alone stores; and an exception of
    [get_stats] is the exception of one of its passes called alone. *)
Theorem get_stats_by_pass (s : Surface) :
  ((exists d, fst (get_stats s_mean s_pstdev s) = inr d)
   <-> forall p, fst (alone s_mean s_pstdev p s) = inr tt) /\
  (forall d p k,
     fst (get_stats s_mean s_pstdev s) = inr d -> In k (pass_keys p) ->
     d !! k = stats (snd (alone s_mean s_pstdev p s)) !! k) /\
  (forall e,
     fst (get_stats s_mean s_pstdev s) = inl e ->
     exists p, fst (alone s_mean s_pstdev p s) = inl e).
Proof.
  assert (Hall : forall p : pass, p ∈ all_passes)
    by (intros []; apply (bool_decide_unpack _); vm_compute; exact I).
  pose proof (run_passes_result all_passes s ∅ all_passes_NoDup) as Hres.
  rewrite get_stats_in_order_all. unfold get_stats_in_order, bind.
  destruct (run_passes s_mean s_pstdev all_passes {| surface := s; stats := ∅ |})
    as [[e | []] st]; simpl.
  - destruct Hres as (p & _ & Hp). split; [| split].
    + split; [intros [d Hd]; discriminate |].
      intros H. specialize (H p). congruence.
    + intros d q k Hd. discriminate.
    + intros e' [= <-]. exists p. exact Hp.
  - destruct Hres as (Hok & Hval & _). split; [| split].
    + split; [intros _ p; apply Hok, Hall | intros _; eauto].
    + intros d p k [= <-] Hk. apply Hval; [apply Hall | exact Hk].
    + intros e' H. discriminate.
Qed.

End Composition.

(** ** The chart of [output_plot] *)

Lemma points_of_spec (data : list (gmap string pyval)) (k : string)
    (i j : Z) (v : pyval) :
  In (j, v) (points_of i data k)
  <-> exists d, i <= j /\ data !! Z.to_nat (j - i) = Some d /\ d !! k = Some v.
Proof.
  revert i. induction data as [| d rest IH]; intros i.
  - simpl. split; [tauto | intros (d & _ & H & _); discriminate].
  - assert (Hrest : In (j, v) (points_of (i + 1) rest k)
                    <-> exists d', i < j /\ rest !! Z.to_nat (j - (i + 1)) = Some d'
                                   /\ d' !! k = Some v).
    { rewrite IH. split; intros (d' & H1 & H2 & H3); exists d';
        (split; [lia | split; assumption]). }
    assert (Hhere : (exists d', i <= j /\ (d :: rest) !! Z.to_nat (j - i) = Some d'
                                /\ d' !! k = Some v)
                    <-> (j = i /\ d !! k = Some v)
                        \/ exists d', i < j
                             /\ rest !! Z.to_nat (j - (i + 1)) = Some d'
                             /\ d' !! k = Some v).
    { split.
      - intros (d' & Hij & Hd' & Hv).
        destruct (Z.eq_dec j i) as [-> | Hne].
        + left. rewrite Z.sub_diag in Hd'. simpl in Hd'. injection Hd' as ->.
          split; [reflexivity | exact Hv].
        + right. exists d'. split; [lia |]. split; [| exact Hv].
          replace (Z.to_nat (j - i)) with (S (Z.to_nat (j - (i + 1)))) in Hd' by lia.
          exact Hd'.
      - intros [[-> Hv] | (d' & Hij & Hd' & Hv)].
        + exists d. rewrite Z.sub_diag. split; [lia |]. split; [reflexivity | exact Hv].
        + exists d'. split; [lia |]. split; [| exact Hv].
          replace (Z.to_nat (j - i)) with (S (Z.to_nat (j - (i + 1)))) by lia.
          exact Hd'. }
    rewrite Hhere, <- Hrest. simpl.
    destruct (d !! k) as [w |] eqn:Hw; simpl.
    + split.
      * intros [[= <- <-] | H]; [left; split; reflexivity | right; exact H].
      * intros [[-> [= ->]] | H]; [left; reflexivity | right; exact H].
    + split; [intros H; right; exact H |].
      intros [[_ H] | H]; [discriminate | exact H].
Qed.

Lemma points_of_increasing (data : list (gmap string pyval)) (k : string) (i : Z) :
  StronglySorted Z.lt (map fst (points_of i data k)) /\
  Forall (fun j => i <= j) (map fst (points_of i data k)).
Proof.
  revert i. induction data as [| d rest IH]; intros i.
  - simpl. split; constructor.
  - destruct (IH (i + 1)) as [Hs Hge].
    assert (Hge' : Forall (fun j => i < j) (map fst (points_of (i + 1) rest k))).
    { eapply Forall_impl; [exact Hge |]. simpl. intros j Hj. lia. }
    simpl. destruct (d !! k); simpl.
    + split; constructor; try assumption; [lia |].
      eapply Forall_impl; [exact Hge' |]. simpl. intros j Hj. lia.
    + split; [exact Hs |].
      eapply Forall_impl; [exact Hge' |]. simpl. intros j Hj. lia.
Qed.

Lemma combine_fst_snd {A B} (l : list (A * B)) :
  combine (map fst l) (map snd l) = l.
Proof.
  induction l as [| [a b] l IH]; simpl; [| rewrite IH]; reflexivity.
Qed.

Lemma traces_of_total (pd : gmap string Series) (keys : list string) :
  (forall k, k ∈ keys -> k ∈ dom pd) ->
  exists l, traces_of pd keys = inr l.
Proof.
  induction keys as [| k keys IH]; intros H; [exists []; reflexivity |].
  assert (Hk : k ∈ dom pd) by (apply H; constructor).
  apply elem_of_dom in Hk as [sr Hsr].
  destruct IH as [l Hl]; [intros k' Hk'; apply H; constructor; exact Hk' |].
  exists (sr :: l). simpl. rewrite Hsr, Hl. reflexivity.
Qed.

Lemma add_records_dom (i : Z) (data : list (gmap string pyval))
    (pd pd' : gmap string Series) :
  add_records i data pd = inr pd' -> dom pd' = dom pd.
Proof.
  revert i pd. induction data as [| d rest IH]; intros i pd.
  - simpl. intros [= ->]. reflexivity.
  - simpl. destruct (add_points i (map_to_list d) pd) as [e | pd1] eqn:Hpts;
      [discriminate |]. simpl.
    intros H. apply IH in H. rewrite H. apply (add_points_dom _ _ _ _ Hpts).
Qed.

Lemma add_records_error (i : Z) (data : list (gmap string pyval))
    (pd : gmap string Series) (e : exn) :
  add_records i data pd = inl e -> e = KeyError.
Proof.
  revert i pd. induction data as [| d rest IH]; intros i pd; [discriminate |].
  simpl. destruct (add_points i (map_to_list d) pd) as [e' | pd1] eqn:Hpts; simpl.
  - intros [= <-]. apply (add_points_error _ _ _ _ Hpts).
  - apply IH.
Qed.

Lemma not_subseteq_elem (X Y : gset string) :
  ~ X ⊆ Y -> exists k, k ∈ X /\ k ∉ Y.
Proof.
  intros Hn.
  destruct (decide (Forall (fun k => k ∈ Y) (elements X))) as [Hall | Hex].
  - exfalso. apply Hn. intros k Hk.
    rewrite Forall_forall in Hall. apply Hall, elem_of_elements, Hk.
  - apply (not_Forall_Exists _), Exists_exists in Hex as (k & Hk & Hnk).
    exists k. split; [apply elem_of_elements, Hk | exact Hnk].
Qed.

Lemma add_records_raises (i : Z) (data : list (gmap string pyval))
    (pd : gmap string Series) (e : exn) :
  add_records i data pd = inl e ->
  exists d k, d ∈ data /\ k ∈ dom d /\ k ∉ dom pd.
Proof.
  intros Herr.
  destruct (decide (Forall (fun d : gmap string pyval => dom d ⊆ dom pd) data))
    as [Hall | Hex].
  - rewrite Forall_forall in Hall.
    rewrite (add_records_spec i data pd Hall) in Herr. discriminate.
  - apply (not_Forall_Exists _), Exists_exists in Hex as (d & Hd & Hn).
    apply not_subseteq_elem in Hn as (k & Hk & Hnk).
    exists d, k. auto.
Qed.

(** X6: when every record after the first has only keys of the first,
    [output_plot] hands [py.plot], with the path it was given, one trace per
    key of the first record, the keys sorted and without repetition; when
    the first record has a key, plotly writes them as the chart, under the
    path with .html appended if it lacks it, and leaves the other files.
    The trace of a key is named by it, has the mode lines+markers, as many
    x as y values, its x values increasing, and holds the point (i, v)
    exactly when record i has the key with value v: a record that lacks
    the key leaves a gap, not a shift. *)
Theorem output_plot_chart (py_plot : Plot) (path : string)
    (first : gmap string pyval) (rest : list (gmap string pyval))
    (files : Charts) :
  (forall d, d ∈ rest -> dom d ⊆ dom first) ->
  exists keys : list string,
    Sorted str_le keys /\ NoDup keys /\
    (forall k, k ∈ keys <-> k ∈ dom first) /\
    output_plot py_plot path (first :: rest) files
    = py_plot (map (trace_of (first :: rest)) keys) path files /\
    (first <> ∅ ->
     output_plot plot_example path (first :: rest) files
     = (inr tt,
        <[html_name path := map (trace_of (first :: rest)) keys]> files)) /\
    forall k,
      series_name (trace_of (first :: rest) k) = k /\
      series_mode (trace_of (first :: rest) k) = "lines+markers" /\
      length (series_x (trace_of (first :: rest) k))
      = length (series_y (trace_of (first :: rest) k)) /\
      StronglySorted Z.lt (series_x (trace_of (first :: rest) k)) /\
      forall i v,
        In (i, v) (combine (series_x (trace_of (first :: rest) k))
                           (series_y (trace_of (first :: rest) k)))
        <-> exists d, 0 <= i /\ (first :: rest) !! Z.to_nat i = Some d
                      /\ d !! k = Some v.
Proof.
  intros Hsub.
  destruct (output_plot_run path first rest files Hsub)
    as (keys & Hs & Hnd & Hk & Hrun).
  exists keys. split; [exact Hs |]. split; [exact Hnd |]. split; [exact Hk |].
  split; [apply Hrun |]. split.
  - intros Hne. rewrite Hrun. apply plot_example_traces.
    pose proof (keys_nonempty keys first Hk Hne) as Hkeys.
    destruct keys; [congruence | discriminate].
  - intros k. unfold trace_of, extend, new_series.
    cbn [series_x series_y series_mode series_name app].
    split; [reflexivity |]. split; [reflexivity |].
    split; [rewrite !length_map; reflexivity |].
    split; [apply points_of_increasing |].
    intros i v. rewrite combine_fst_snd, points_of_spec.
    rewrite Z.sub_0_r. reflexivity.
Qed.

Lemma output_plot_chart_witness :
  exists keys : list string,
    Sorted str_le keys /\ NoDup keys /\
    (forall k, k ∈ keys <-> k ∈ dom rec_ab_1) /\
    output_plot plot_example "chart" [rec_ab_1; rec_a] ∅
    = plot_example (map (trace_of [rec_ab_1; rec_a]) keys) "chart" ∅ /\
    output_plot plot_example "chart" [rec_ab_1; rec_a] ∅
    = (inr tt, <["chart.html" := map (trace_of [rec_ab_1; rec_a]) keys]> ∅) /\
    forall k,
      series_name (trace_of [rec_ab_1; rec_a] k) = k /\
      series_mode (trace_of [rec_ab_1; rec_a] k) = "lines+markers" /\
      length (series_x (trace_of [rec_ab_1; rec_a] k))
      = length (series_y (trace_of [rec_ab_1; rec_a] k)) /\
      StronglySorted Z.lt (series_x (trace_of [rec_ab_1; rec_a] k)) /\
      forall i v,
        In (i, v) (combine (series_x (trace_of [rec_ab_1; rec_a] k))
                           (series_y (trace_of [rec_ab_1; rec_a] k)))
        <-> exists d, 0 <= i /\ [rec_ab_1; rec_a] !! Z.to_nat i = Some d
                      /\ d !! k = Some v.
Proof.
  destruct (output_plot_chart plot_example "chart" rec_ab_1 [rec_a] ∅)
    as (keys & Hs & Hnd & Hk & Hrun & Hwritten & Htrace).
  { intros d Hd. apply list_elem_of_singleton in Hd. subst d.
    apply (bool_decide_unpack _). vm_compute. exact I. }
  exists keys. split; [exact Hs |]. split; [exact Hnd |]. split; [exact Hk |].
  split; [exact Hrun |].
  split; [exact (Hwritten rec_ab_1_nonempty) | exact Htrace].
Defined.

Lemma output_plot_cases (data : list (gmap string pyval)) :
  data = [] \/
  (exists first rest d k,
     data = first :: rest /\ d ∈ rest /\ k ∈ dom d /\ k ∉ dom first) \/
  (exists first rest,
     data = first :: rest /\ forall d, d ∈ rest -> dom d ⊆ dom first).
Proof.
  destruct data as [| first rest]; [left; reflexivity | right].
  destruct (decide (Forall (fun d : gmap string pyval => dom d ⊆ dom first) rest))
    as [Hall | Hex].
  - right. exists first, rest. split; [reflexivity |].
    apply Forall_forall, Hall.
  - left. apply (not_Forall_Exists _), Exists_exists in Hex as (d & Hd & Hn).
    apply not_subseteq_elem in Hn as (k & Hk & Hnk).
    exists first, rest, d, k. auto.
Qed.

(** X7: the exceptions of [output_plot].  Its own code raises [IndexError]
    on the empty sequence and [KeyError] when some record after the first
    has a key that the first lacks, both before [py.plot] is called, so
    that no file is written; in every other case it calls [py.plot] on one
    trace per key of the first record and returns or raises what the call
    does.  With plotly's refusal of an empty list of traces, it raises
    [IndexError] exactly on the empty sequence, [KeyError] exactly on such a
    later key, [PlotlyEmptyDataError] exactly when no record has a key, and
    nothing else; whenever it raises, the files are as they were. *)
Theorem output_plot_raises (py_plot : Plot) (path : string)
    (data : list (gmap string pyval)) (files : Charts) :
  (data = [] -> output_plot py_plot path data files = (inl IndexError, files)) /\
  (forall first rest d k,
     data = first :: rest -> d ∈ rest -> k ∈ dom d -> k ∉ dom first ->
     output_plot py_plot path data files = (inl KeyError, files)) /\
  (forall first rest,
     data = first :: rest -> (forall d, d ∈ rest -> dom d ⊆ dom first) ->
     exists to_plot,
       length to_plot = size (dom first) /\
       output_plot py_plot path data files = py_plot to_plot path files) /\
  (fst (output_plot plot_example path data files) = inl IndexError
   <-> data = []) /\
  (fst (output_plot plot_example path data files) = inl KeyError
   <-> exists first rest d k,
         data = first :: rest /\ d ∈ rest /\ k ∈ dom d /\ k ∉ dom first) /\
  (fst (output_plot plot_example path data files) = inl PlotlyEmptyDataError
   <-> data <> [] /\ forall d, d ∈ data -> d = ∅) /\
  (forall e, fst (output_plot plot_example path data files) = inl e ->
     (e = IndexError \/ e = KeyError \/ e = PlotlyEmptyDataError) /\
     snd (output_plot plot_example path data files) = files).
Proof.
  assert (Hkey : forall (pp : Plot) first rest d k,
            data = first :: rest -> d ∈ rest -> k ∈ dom d -> k ∉ dom first ->
            output_plot pp path data files = (inl KeyError, files)).
  { intros pp first rest d k -> Hd Hk Hnk. unfold output_plot.
    rewrite (add_records_key_error 0 (first :: rest) _ d k); [reflexivity | | |].
    - apply elem_of_cons. right. exact Hd.
    - exact Hk.
    - rewrite dom_init_plot_data. exact Hnk. }
  assert (Hrun : forall first rest,
            data = first :: rest -> (forall d, d ∈ rest -> dom d ⊆ dom first) ->
            exists to_plot,
              length to_plot = size (dom first) /\
              forall pp : Plot,
                output_plot pp path data files = pp to_plot path files).
  { intros first rest -> Hsub.
    destruct (output_plot_run path first rest files Hsub)
      as (keys & _ & Hnd & Hk & Hrun).
    exists (map (trace_of (first :: rest)) keys).
    split; [| exact Hrun]. rewrite length_map. apply keys_length; assumption. }
  split; [intros ->; reflexivity |].
  split; [apply Hkey |].
  split.
  { intros first rest Hdata Hsub.
    destruct (Hrun first rest Hdata Hsub) as (to_plot & Hlen & Heq).
    exists to_plot. split; [exact Hlen | apply Heq]. }
  destruct (output_plot_cases data)
    as [-> | [(first & rest & d & k & Hdata & Hd & Hk & Hnk)
             | (first & rest & Hdata & Hsub)]].
  - (* the empty sequence *)
    simpl. split; [tauto |]. split; [| split].
    + split; [discriminate | intros (f & r & _ & _ & H & _); discriminate].
    + split; [discriminate | intros [H _]; congruence].
    + intros e [= <-]. auto.
  - (* a later key outside the first record *)
    rewrite (Hkey plot_example first rest d k Hdata Hd Hk Hnk). simpl.
    split; [split; [discriminate | intros ->; discriminate] |].
    split; [| split].
    + split; [| reflexivity]. intros _. exists first, rest, d, k. auto.
    + split; [discriminate |]. intros [_ Hall]. subst data.
      rewrite (Hall d) in Hk by (constructor 2; exact Hd).
      rewrite dom_empty_L in Hk. inversion Hk.
    + intros e [= <-]. auto.
  - (* the call of py.plot *)
    destruct (Hrun first rest Hdata Hsub) as (to_plot & Hlen & Heq).
    rewrite (Heq plot_example).
    assert (Hnokey : ~ exists f r d k,
               data = f :: r /\ d ∈ r /\ k ∈ dom d /\ k ∉ dom f).
    { intros (f & r & d & k & Hd' & Hd & Hk & Hnk). rewrite Hdata in Hd'.
      injection Hd' as <- <-. apply Hnk, (Hsub d Hd), Hk. }
    assert (Hne : data <> []) by (rewrite Hdata; discriminate).
    destruct to_plot as [| t to_plot]; simpl.
    + assert (Hfirst : first = ∅).
      { apply dom_empty_inv_L, leibniz_equiv, size_empty_inv.
        symmetry. exact Hlen. }
      split; [split; [discriminate | congruence] |].
      split; [split; [discriminate | intros H; destruct (Hnokey H)] |].
      split.
      * split; [| reflexivity]. intros _. split; [exact Hne |].
        intros d Hd. rewrite Hdata in Hd.
        apply elem_of_cons in Hd as [-> | Hd]; [exact Hfirst |].
        apply dom_empty_inv_L, equiv_empty_L.
        rewrite <- (dom_empty_L (D := gset string) (A := pyval)), <- Hfirst.
        apply Hsub, Hd.
      * intros e [= <-]. auto.
    + split; [split; [discriminate | congruence] |].
      split; [split; [discriminate | intros H; destruct (Hnokey H)] |].
      split.
      * split; [discriminate |]. intros [_ Hall].
        rewrite (Hall first) in Hlen by (rewrite Hdata; constructor).
        rewrite dom_empty_L, size_empty in Hlen. discriminate.
      * intros e H. discriminate.
Qed.

(** ** The fractions at their ends *)

Lemma SFdiv_self (m : positive) (e : Z) :
  SFdiv prec emax (S754_finite false m e) (S754_finite false m e)
  = S754_finite false 4503599627370496 (-52).
Proof.
  unfold SFdiv.
  pose proof (SFdiv_core_binary_spec m m e e) as H. cbv zeta in H.
  rewrite H. clear H.
  replace (Zdigits2 (Z.pos m) + e - (Zdigits2 (Z.pos m) + e)) with 0 by lia.
  rewrite fexp_eq, Z.sub_diag.
  change (Z.min (Z.max (0 - 53) (-1074)) 0) with (-53).
  change (0 - -53) with 53.
  rewrite (Z.mul_comm (Z.pos m)), Z.div_mul by lia.
  unfold loc_of. rewrite Z.mod_mul by lia. rewrite Z.eqb_refl.
  vm_compute. reflexivity.
Qed.

Lemma float_div_self (n : Z) :
  0 < n < 2 ^ 63 -> (float_of_Z n / float_of_Z n)%float = 1%float.
Proof.
  intros Hn. apply Prim2SF_inj. rewrite FloatAxioms.div_spec.
  destruct (Prim2SF_float_of_Z_pos n Hn) as (m & e & Hm & _).
  rewrite Hm, SFdiv_self. reflexivity.
Qed.

Lemma float_div_zero (n : Z) :
  0 < n < 2 ^ 63 -> (float_of_Z 0 / float_of_Z n)%float = 0%float.
Proof.
  intros Hn. apply Prim2SF_inj. rewrite FloatAxioms.div_spec.
  destruct (Prim2SF_float_of_Z_pos n Hn) as (m & e & Hm & _).
  rewrite Hm. reflexivity.
Qed.

Lemma percentage_full (n : Z) :
  0 < n <= sys_maxsize -> percentage n n = 100%float.
Proof.
  intros Hn. rewrite sys_maxsize_eq in Hn.
  unfold percentage. rewrite float_div_self by lia. reflexivity.
Qed.

Lemma percentage_none (n : Z) :
  0 < n <= sys_maxsize -> percentage 0 n = 0%float.
Proof.
  intros Hn. rewrite sys_maxsize_eq in Hn.
  unfold percentage. rewrite float_div_zero by lia. reflexivity.
Qed.

Lemma filter_length_all {A} (f : A -> bool) (l : list A) :
  Forall (fun x => f x = true) l -> length (List.filter f l) = length l.
Proof.
  induction 1 as [| x l Hx _ IH]; [reflexivity |].
  simpl. rewrite Hx. simpl. rewrite IH. reflexivity.
Qed.

Lemma filter_length_none {A} (f : A -> bool) (l : list A) :
  Forall (fun x => f x = false) l -> length (List.filter f l) = 0%nat.
Proof.
  induction 1 as [| x l Hx _ IH]; [reflexivity |].
  simpl. rewrite Hx. exact IH.
Qed.

(** X8: the ends of [init_move_frac] are exact.  On a positive population
    whose genes all have an index 1, the pass stores exactly 100.0 when every
    entity has the object of the literal 'd' there and exactly 0.0 when none
    has: the division and the product round nothing away. *)
Theorem init_move_frac_extremes (s : Surface) (d : gmap string pyval) :
  0 < population s <= sys_maxsize ->
  Forall has_second_choice (cells s) ->
  (Forall (fun c => defects_second c = true) (cells s) ->
   init_move_stats {| surface := s; stats := d |}
   = (inr tt, {| surface := s;
                 stats := <["init_move_frac" := PFloat 100]> d |})) /\
  (Forall (fun c => defects_second c = false) (cells s) ->
   init_move_stats {| surface := s; stats := d |}
   = (inr tt, {| surface := s;
                 stats := <["init_move_frac" := PFloat 0]> d |})).
Proof.
  intros Hpop Hall.
  rewrite (init_move_stats_value s d Hpop Hall).
  fold (percentage (defect_count s) (population s)).
  split; intros Hd.
  - replace (defect_count s) with (population s).
    + rewrite percentage_full by exact Hpop. reflexivity.
    + unfold defect_count, population.
      rewrite (filter_length_all _ _ Hd). reflexivity.
  - replace (defect_count s) with 0.
    + rewrite percentage_none by exact Hpop. reflexivity.
    + unfold defect_count. rewrite (filter_length_none _ _ Hd). reflexivity.
Qed.

Lemma init_move_frac_extremes_witness :
  init_move_stats {| surface := surface_defectors; stats := ∅ |}
  = (inr tt, {| surface := surface_defectors;
                stats := <["init_move_frac" := PFloat 100]> ∅ |}) /\
  init_move_stats {| surface := surface_cooperators; stats := ∅ |}
  = (inr tt, {| surface := surface_cooperators;
                stats := <["init_move_frac" := PFloat 0]> ∅ |}).
Proof.
  split.
  - apply (proj1 (init_move_frac_extremes surface_defectors ∅
                    ltac:(vm_compute; split; [reflexivity | discriminate])
                    ltac:(repeat constructor))).
    repeat constructor.
  - apply (proj2 (init_move_frac_extremes surface_cooperators ∅
                    ltac:(vm_compute; split; [reflexivity | discriminate])
                    ltac:(repeat constructor))).
    repeat constructor.
Defined.

Lemma in_rule_true (r : rule) (c : Cell) :
  first_match c = Some r -> in_rule r c = true.
Proof. intros H. unfold in_rule. apply bool_decide_eq_true_2, H. Qed.

Lemma in_rule_false (r : rule) (c : Cell) :
  first_match c <> Some r -> in_rule r c = false.
Proof. intros H. unfold in_rule. apply bool_decide_eq_false_2, H. Qed.

Lemma rule_count_all (r : rule) (cs : list Cell) :
  Forall (fun c => first_match c = Some r) cs ->
  rule_count r cs = Z.of_nat (length cs).
Proof.
  intros H. unfold rule_count. rewrite filter_length_all; [reflexivity |].
  eapply Forall_impl; [exact H |]. intros c Hc. apply in_rule_true, Hc.
Qed.

Lemma rule_count_zero (r : rule) (cs : list Cell) :
  Forall (fun c => first_match c <> Some r) cs -> rule_count r cs = 0.
Proof.
  intros H. unfold rule_count. rewrite filter_length_none; [reflexivity |].
  eapply Forall_impl; [exact H |]. intros c Hc. apply in_rule_false, Hc.
Qed.

Lemma get_rule_stats_lookup (s : Surface) (d : gmap string pyval) (r : rule) :
  0 < population s <= sys_maxsize ->
  stats (snd (get_rule_stats {| surface := s; stats := d |})) !! rule_key r
  = Some (PFloat (percentage (rule_count r (cells s)) (population s))).
Proof.
  intros Hpop. rewrite (get_rule_stats_value s d Hpop). cbn [snd stats].
  destruct r; cbn [rule_key];
    repeat (rewrite lookup_insert_ne by discriminate);
    apply lookup_insert_eq.
Qed.

(** X9: the ends of the rule fractions are exact.  On a positive population,
    a category that the [if]/[elif] chain gives to no entity gets exactly
    0.0; when the chain gives every entity to one category, that category
    gets exactly 100.0 and the four others exactly 0.0. *)
Theorem rule_fractions_extremes (s : Surface) (d : gmap string pyval) (r : rule) :
  0 < population s <= sys_maxsize ->
  (Forall (fun c => first_match c <> Some r) (cells s) ->
   stats (snd (get_rule_stats {| surface := s; stats := d |})) !! rule_key r
   = Some (PFloat 0)) /\
  (Forall (fun c => first_match c = Some r) (cells s) ->
   forall r',
     stats (snd (get_rule_stats {| surface := s; stats := d |})) !! rule_key r'
     = Some (PFloat (if decide (r' = r) then 100 else 0))).
Proof.
  intros Hpop. split.
  - intros Hnone. rewrite (get_rule_stats_lookup s d r Hpop).
    rewrite (rule_count_zero r _ Hnone), percentage_none by exact Hpop.
    reflexivity.
  - intros Hall r'. rewrite (get_rule_stats_lookup s d r' Hpop).
    destruct (decide (r' = r)) as [-> | Hne].
    + rewrite (rule_count_all r _ Hall). fold (population s).
      rewrite percentage_full by exact Hpop. reflexivity.
    + rewrite rule_count_zero.
      * rewrite percentage_none by exact Hpop. reflexivity.
      * eapply Forall_impl; [exact Hall |]. intros c Hc. simpl in Hc. congruence.
Qed.

Lemma rule_fractions_extremes_witness :
  (Forall (fun c => first_match c <> Some TwoTitsForTat) (cells surface_nine) ->
   stats (snd (get_rule_stats {| surface := surface_nine; stats := ∅ |}))
     !! rule_key TwoTitsForTat
   = Some (PFloat 0)) /\
  (Forall (fun c => first_match c = Some TwoTitsForTat) (cells surface_nine) ->
   forall r',
     stats (snd (get_rule_stats {| surface := surface_nine; stats := ∅ |}))
       !! rule_key r'
     = Some (PFloat (if decide (r' = TwoTitsForTat) then 100 else 0))).
Proof.
  apply (rule_fractions_extremes surface_nine ∅ TwoTitsForTat).
  vm_compute. split; [reflexivity | discriminate].
Defined.

(** ** The population on the grid *)

Lemma population_nonneg (s : Surface) : 0 <= population s.
Proof. unfold population. lia. Qed.

(** X10: on a grid of size zero (no column or no row) [get_population_stats]
    raises [ZeroDivisionError] at the division and stores neither [pop_rel]
    nor [pop_abs], whatever the population. *)
Theorem get_population_stats_zero_grid (s : Surface) (d : gmap string pyval) :
  width s * height s = 0 ->
  population s <= sys_maxsize ->
  get_population_stats {| surface := s; stats := d |}
  = (inl ZeroDivisionError, {| surface := s; stats := d |}).
Proof.
  intros Hzero Hpop. rewrite get_population_stats_run. cbn [surface].
  rewrite Hzero.
  rewrite float_of_int_ok by (split; [apply population_nonneg | exact Hpop]).
  reflexivity.
Qed.

Lemma get_population_stats_zero_grid_witness :
  get_population_stats {| surface := surface_no_grid; stats := ∅ |}
  = (inl ZeroDivisionError, {| surface := surface_no_grid; stats := ∅ |}).
Proof.
  apply (get_population_stats_zero_grid surface_no_grid ∅).
  - reflexivity.
  - vm_compute. discriminate.
Defined.

(** X11: on a grid of positive size that holds the population, [pop_rel] is
    a float between 0.0 and 100.0, exactly 100.0 on a full grid and exactly
    0.0 on an empty one. *)
Theorem pop_rel_range (s : Surface) (d : gmap string pyval) :
  0 < width s * height s <= sys_maxsize ->
  population s <= width s * height s ->
  exists v : float,
    stats (snd (get_population_stats {| surface := s; stats := d |})) !! "pop_rel"
    = Some (PFloat v) /\
    (0 <=? v)%float = true /\ (v <=? 100)%float = true /\
    (population s = width s * height s -> v = 100%float) /\
    (population s = 0 -> v = 0%float).
Proof.
  intros Hgrid Hpop.
  rewrite get_population_stats_value by (try exact Hgrid; lia).
  exists (percentage (population s) (width s * height s)).
  cbn [snd stats].
  rewrite lookup_insert_ne by discriminate. rewrite lookup_insert_eq.
  split; [reflexivity |].
  pose proof (population_nonneg s) as Hnn.
  destruct (percentage_range (population s) (width s * height s)) as [Hlo Hhi].
  { lia. } { rewrite sys_maxsize_eq in Hgrid. lia. }
  split; [exact Hlo |]. split; [exact Hhi |]. split.
  - intros ->. apply percentage_full, Hgrid.
  - intros ->. apply percentage_none, Hgrid.
Qed.

Lemma pop_rel_range_witness :
  exists v : float,
    stats (snd (get_population_stats
                  {| surface := surface_two_by_two; stats := ∅ |})) !! "pop_rel"
    = Some (PFloat v) /\
    (0 <=? v)%float = true /\ (v <=? 100)%float = true /\
    (population surface_two_by_two
     = width surface_two_by_two * height surface_two_by_two -> v = 100%float) /\
    (population surface_two_by_two = 0 -> v = 0%float).
Proof.
  apply (pop_rel_range surface_two_by_two ∅).
  - vm_compute. split; [reflexivity | discriminate].
  - vm_compute. discriminate.
Defined.

(** ** The counting passes and the order of traversal *)

Lemma filter_length_perm {A} (f : A -> bool) (l l' : list A) :
  Permutation l l' -> length (List.filter f l) = length (List.filter f l').
Proof.
  induction 1 as [| x l l' _ IH | x y l | l l' l'' _ IH1 _ IH2].
  - reflexivity.
  - simpl. destruct (f x); simpl; rewrite IH; reflexivity.
  - simpl. destruct (f x), (f y); reflexivity.
  - rewrite IH1. exact IH2.
Qed.

Lemma has_second_choice_all_or_not (cs : list Cell) :
  Forall has_second_choice cs \/ Exists (fun c => ~ has_second_choice c) cs.
Proof.
  induction cs as [| c cs [IH | IH]].
  - left. constructor.
  - destruct (has_second_choice_dec c) as [Hc | Hc].
    + left. constructor; assumption.
    + right. constructor. exact Hc.
  - right. constructor 2. exact IH.
Qed.

Lemma store_rule_fractions_stats (n : rule_counts) (pop : Z) (st st' : State) :
  stats st = stats st' ->
  fst (store_rule_fractions n pop st) = fst (store_rule_fractions n pop st') /\
  stats (snd (store_rule_fractions n pop st))
  = stats (snd (store_rule_fractions n pop st')).
Proof.
  intros Hst. unfold store_rule_fractions.
  destruct (quotient (num_tfts n) pop); [split; [reflexivity | exact Hst] |].
  destruct (quotient (num_t2ts n) pop); [split; [reflexivity | exact Hst] |].
  destruct (quotient (num_ftfs n) pop); [split; [reflexivity | exact Hst] |].
  destruct (quotient (num_alld n) pop); [split; [reflexivity | exact Hst] |].
  destruct (quotient (num_allc n) pop); [split; [reflexivity | exact Hst] |].
  split; [reflexivity |]. destruct st, st'. simpl in *. rewrite Hst. reflexivity.
Qed.

(** X12: the two counting passes do not depend on the order in which the
    surface hands out its entities: on two surfaces that hold the same
    entities in any order, [init_move_stats] and [get_rule_stats] return or
    raise the same and leave the same dictionary. *)
Theorem counting_passes_any_order (s s' : Surface) (d : gmap string pyval) :
  Permutation (cells s) (cells s') ->
  (fst (init_move_stats {| surface := s; stats := d |})
   = fst (init_move_stats {| surface := s'; stats := d |}) /\
   stats (snd (init_move_stats {| surface := s; stats := d |}))
   = stats (snd (init_move_stats {| surface := s'; stats := d |}))) /\
  (fst (get_rule_stats {| surface := s; stats := d |})
   = fst (get_rule_stats {| surface := s'; stats := d |}) /\
   stats (snd (get_rule_stats {| surface := s; stats := d |}))
   = stats (snd (get_rule_stats {| surface := s'; stats := d |}))).
Proof.
  intros Hperm.
  destruct (cells s) as [| c cs] eqn:Hcs.
  - apply Permutation_nil in Hperm.
    rewrite !init_move_stats_empty, !get_rule_stats_empty by assumption.
    repeat split.
  - assert (Hne : cells s <> []) by congruence.
    assert (Hne' : cells s' <> []).
    { intros E. rewrite E in Hperm. apply Permutation_sym, Permutation_nil in Hperm.
      discriminate. }
    rewrite <- Hcs in Hperm. clear c cs Hcs.
    assert (Hlen : length (cells s) = length (cells s'))
      by (apply Permutation_length, Hperm).
    split.
    + rewrite !init_move_stats_run by assumption. cbn [surface stats].
      destruct (has_second_choice_all_or_not (cells s)) as [Hall | Hex].
      * assert (Hall' : Forall has_second_choice (cells s'))
          by (rewrite <- Hperm; exact Hall).
        rewrite (collect_second_choice_ok _ Hall), (collect_second_choice_ok _ Hall').
        rewrite !count_defect_cells, !length_map.
        rewrite (filter_length_perm defects_second _ _ Hperm), Hlen.
        destruct (float_of_int _) as [e | f]; [repeat split |].
        destruct (float_div_int f _) as [e | q]; repeat split.
      * assert (Hex' : Exists (fun c => ~ has_second_choice c) (cells s')).
        { apply Exists_exists in Hex as (c & Hc & Hn).
          apply Exists_exists. exists c. split; [| exact Hn].
          rewrite <- Hperm. exact Hc. }
        rewrite (collect_second_choice_error _ Hex),
                (collect_second_choice_error _ Hex').
        repeat split.
    + rewrite !get_rule_stats_run by assumption. cbn [surface].
      rewrite !count_rules_first_match.
      replace (first_match_counts (cells s')) with (first_match_counts (cells s)).
      * unfold population. rewrite Hlen. apply store_rule_fractions_stats.
        reflexivity.
      * unfold first_match_counts, rule_count.
        rewrite !(filter_length_perm _ _ _ Hperm). reflexivity.
Qed.

Lemma counting_passes_any_order_witness :
  (fst (init_move_stats {| surface := surface_example; stats := ∅ |})
   = fst (init_move_stats {| surface := surface_reversed; stats := ∅ |}) /\
   stats (snd (init_move_stats {| surface := surface_example; stats := ∅ |}))
   = stats (snd (init_move_stats {| surface := surface_reversed; stats := ∅ |}))) /\
  (fst (get_rule_stats {| surface := surface_example; stats := ∅ |})
   = fst (get_rule_stats {| surface := surface_reversed; stats := ∅ |}) /\
   stats (snd (get_rule_stats {| surface := surface_example; stats := ∅ |}))
   = stats (snd (get_rule_stats {| surface := surface_reversed; stats := ∅ |}))).
Proof.
  apply (counting_passes_any_order surface_example surface_reversed ∅).
  apply Permutation_rev.
Defined.

(** X13: the [if]/[elif] chain of [get_rule_stats] counts every entity at
    most once: the five counters and the number of entities that no branch
    takes add up to the number of entities. *)
Theorem rule_counters_partition (cs : list Cell) :
  num_tfts (count_rules cs) + num_t2ts (count_rules cs)
  + num_ftfs (count_rules cs) + num_alld (count_rules cs)
  + num_allc (count_rules cs)
  + Z.of_nat (length (List.filter unclassified cs))
  = Z.of_nat (length cs).
Proof.
  rewrite count_rules_first_match. unfold first_match_counts.
  cbn [num_tfts num_t2ts num_ftfs num_alld num_allc].
  induction cs as [| c cs IH]; [reflexivity |].
  rewrite !rule_count_cons. cbn [List.filter length].
  unfold in_rule, first_match, unclassified in *.
  destruct (is_tft c), (is_t2t c), (is_ftf c), (is_alld c), (is_allc c);
    cbn [orb negb length];
    repeat case_bool_decide; try congruence; lia.
Qed.

(** ** The first pass that raises *)

Section FirstFailure.

Variable s_mean : list pyval -> result pyval.
Variable s_pstdev : list pyval -> pyval -> result pyval.

Lemma run_passes_first_failure (before after : list pass) (p : pass) (e : exn)
    (s : Surface) (d : gmap string pyval) :
  (forall q, q ∈ before -> fst (alone s_mean s_pstdev q s) = inr tt) ->
  fst (alone s_mean s_pstdev p s) = inl e ->
  fst (run_passes s_mean s_pstdev (before ++ p :: after)
         {| surface := s; stats := d |}) = inl e.
Proof.
  intros Hbefore Hp. revert d.
  induction before as [| q before IH]; intros d.
  - destruct (run_pass_alone s_mean s_pstdev p s d) as [Hfst _].
    simpl. unfold bind.
    destruct (run_pass s_mean s_pstdev p {| surface := s; stats := d |})
      as [[e' | []] st]; simpl in *; congruence.
  - destruct (run_pass_alone s_mean s_pstdev q s d) as [Hfst _].
    pose proof (logged_surface (pass_keys q) (run_pass s_mean s_pstdev q)
                  {| surface := s; stats := d |}
                  (logged_run_pass s_mean s_pstdev q)) as Hsurf.
    rewrite (Hbefore q) in Hfst by constructor.
    simpl. unfold bind.
    destruct (run_pass s_mean s_pstdev q {| surface := s; stats := d |})
      as [[e' | []] [s1 d1]]; simpl in Hfst, Hsurf; [discriminate |].
    subst s1. apply IH. intros q' Hq'. apply Hbefore. constructor 2. exact Hq'.
Qed.

(** X14: [get_stats] raises what the first pass that raises does: when a
    pass, called alone on the surface, raises an exception and every pass
    that [get_stats] calls before it returns, [get_stats] raises that
    exception and returns no record, whatever the later passes would do. *)
Theorem get_stats_first_failure (s : Surface) (before after : list pass)
    (p : pass) (e : exn) :
  all_passes = before ++ p :: after ->
  (forall q, q ∈ before -> fst (alone s_mean s_pstdev q s) = inr tt) ->
  fst (alone s_mean s_pstdev p s) = inl e ->
  fst (get_stats s_mean s_pstdev s) = inl e.
Proof.
  intros Hsplit Hbefore Hp.
  pose proof (run_passes_first_failure before after p e s ∅ Hbefore Hp) as Hrun.
  rewrite get_stats_in_order_all. unfold get_stats_in_order, bind.
  rewrite Hsplit.
  destruct (run_passes s_mean s_pstdev (before ++ p :: after)
              {| surface := s; stats := ∅ |}) as [[e' | []] st];
    simpl in *; congruence.
Qed.

End FirstFailure.

Lemma get_stats_first_failure_witness :
  fst (get_stats mean_example pstdev_example surface_short_gene) = inl IndexError.
Proof.
  apply (get_stats_first_failure mean_example pstdev_example surface_short_gene
           [] [FractionDef; GeneLength; ScoreStats; RuleStats; AgeStats]
           InitMove IndexError).
  - reflexivity.
  - intros q Hq. inversion Hq.
  - vm_compute. reflexivity.
Defined.

(** ** The records of [get_stats], plotted *)

Section History.

Variable s_mean : list pyval -> result pyval.
Variable s_pstdev : list pyval -> pyval -> result pyval.
Variable py_plot : Plot.

(** X15: the records of [get_stats] can always be plotted.  For a non-empty
    sequence of records, each returned by [get_stats] on some surface,
    [output_plot] hands [py.plot], with the path it was given, fourteen
    traces, one per key of [get_stats] in sorted order, which plotly writes
    as the chart, under the path with .html appended if it lacks it; and
    every trace has one point per record, at x = 0, 1, ..., len(data)-1. *)
Theorem get_stats_records_plot (path : string) (surfaces : list Surface)
    (data : list (gmap string pyval)) (files : Charts) :
  data <> [] ->
  Forall2 (fun s d => fst (get_stats s_mean s_pstdev s) = inr d) surfaces data ->
  exists keys : list string,
    Sorted str_le keys /\ length keys = 14%nat /\
    (forall k, k ∈ keys <-> k ∈ stats_keys) /\
    output_plot py_plot path data files
    = py_plot (map (trace_of data) keys) path files /\
    output_plot plot_example path data files
    = (inr tt, <[html_name path := map (trace_of data) keys]> files) /\
    forall k, k ∈ keys ->
      series_x (trace_of data k) = seqZ 0 (Z.of_nat (length data)) /\
      length (series_y (trace_of data k)) = length data.
Proof.
  intros Hne Hrec.
  assert (Hdom : forall d, d ∈ data -> dom d = list_to_set stats_keys).
  { intros d Hd. apply list_elem_of_lookup in Hd as [i Hi].
    destruct (Forall2_lookup_r _ _ _ _ _ Hrec Hi) as (s & _ & Hs).
    apply (get_stats_dom s_mean s_pstdev s d Hs). }
  destruct data as [| first rest]; [congruence |].
  assert (Hfirst : dom first = list_to_set stats_keys)
    by (apply Hdom; constructor).
  destruct (output_plot_run path first rest files) as (keys & Hs & Hnd & Hk & Hrun).
  { intros d Hd. rewrite Hfirst, (Hdom d); [reflexivity |].
    constructor 2. exact Hd. }
  assert (Hkeys : forall k, k ∈ keys <-> k ∈ stats_keys).
  { intros k. rewrite Hk, Hfirst. apply elem_of_list_to_set. }
  assert (Hlen : length keys = 14%nat).
  { rewrite (keys_length keys (dom first) Hnd Hk), Hfirst.
    vm_compute. reflexivity. }
  exists keys. split; [exact Hs |]. split; [exact Hlen |].
  split; [exact Hkeys |]. split; [apply Hrun |]. split.
  - rewrite Hrun. apply plot_example_traces.
    destruct keys; [discriminate Hlen | discriminate].
  - intros k Hin.
    destruct (points_of_same_keys 0 (first :: rest) k) as (Hx & Hy & _).
    { intros d Hd. rewrite (Hdom d Hd). apply elem_of_list_to_set, Hkeys, Hin. }
    unfold trace_of, extend, new_series.
    cbn [series_x series_y app]. split; [exact Hx |].
    rewrite length_map, <- (length_map fst), Hx, length_seqZ. lia.
Qed.

End History.

Lemma get_stats_records_plot_witness :
  exists d,
    fst (get_stats mean_example pstdev_example surface_example) = inr d /\
    exists keys : list string,
      Sorted str_le keys /\ length keys = 14%nat /\
      (forall k, k ∈ keys <-> k ∈ stats_keys) /\
      output_plot plot_example "chart" [d; d] ∅
      = plot_example (map (trace_of [d; d]) keys) "chart" ∅ /\
      output_plot plot_example "chart" [d; d] ∅
      = (inr tt, <["chart.html" := map (trace_of [d; d]) keys]> ∅) /\
      forall k, k ∈ keys ->
        series_x (trace_of [d; d] k) = seqZ 0 (Z.of_nat (length [d; d])) /\
        length (series_y (trace_of [d; d] k)) = length [d; d].
Proof.
  destruct (result_is_ok
              (fst (get_stats mean_example pstdev_example surface_example)))
    as [d Hd]; [vm_compute; reflexivity |].
  exists d. split; [exact Hd |].
  apply (get_stats_records_plot mean_example pstdev_example plot_example
           "chart" [surface_example; surface_example] [d; d] ∅).
  - discriminate.
  - repeat constructor; exact Hd.
Defined.
